(** * Arbitrage bot: decision-and-execution pipeline

    A shallow embedding of the core of the bot (src/core, src/utils/cache.py),
    of the loop that drives it (src/main.py) and of the credential getters
    (src/config/credentials.py), with the properties its specification
    states about it and further properties of the same code.

    Numbers.  Prices, strikes, stakes and percentages are Python
    [decimal.Decimal] values computed in the default context: 28 significant
    digits, ROUND_HALF_EVEN.  A finite decimal is a sign, a coefficient and an
    exponent; every arithmetic operation computes the exact result and rounds
    it to the context precision, as the General Decimal Arithmetic
    specification (which the [decimal] module implements) prescribes.  The
    special values (NaN, infinities) and the exponent limits of the context
    (Emax = 999999, Emin = -999999) are outside the model.

    Failure.  A function that can raise returns a [result]: a value or the
    exception raised; [try ... except Exception] is [try_except].

    Dictionaries.  Price dictionaries, market records, order confirmations
    and the cache's store are finite maps with string keys ([gmap]); the
    time-slot maps of the matcher, whose iteration order decides the order
    of the matches, are association lists in insertion order.

    Text.  A [str] is written as the string of its UTF-8 bytes.  Where the
    code reads a [str] character by character (the two regular expressions
    of the matcher, and [Decimal] on what they capture) the model reads the
    code points of the string, with the character classes of the
    interpreter's Unicode database.

    Time and tasks.  The clock of the cache is an input of its operations.
    A coroutine run as a task is described by the time it takes and by what
    it ends with; [gather] and [wait_for] are functions on such tasks.

    Part I holds the definitions, module by module of the source; Part II
    the properties: decimal arithmetic first ([DecFacts]: each operation
    returns the exactly computed result, correctly rounded), then the engine,
    the cache, the matcher, the executor, the bot's loop and the
    credentials. *)

From Stdlib Require Import ZArith NArith QArith Qround Qpower Qabs Lia Lqa.
From Stdlib Require Import String Ascii List Bool.
From stdpp Require Import base option list gmap strings.

(* ===================================================================== *)
(** * Part I: definitions                                                 *)
(* ===================================================================== *)

(** ** Exceptions

    Python exceptions that the modelled code can raise or catch; all of them
    are subclasses of [Exception]. *)

Inductive exn : Type :=
| DivisionByZero
| InvalidOperation
| KeyError (key : string)
| TimeoutError
| Exception (msg : string).

Inductive result (A : Type) : Type :=
| Ok (a : A)
| Raise (e : exn).

Arguments Ok {A} a.
Arguments Raise {A} e.

Definition bind {A B : Type} (m : result A) (k : A -> result B) : result B :=
  match m with
  | Ok a => k a
  | Raise e => Raise e
  end.

(** [str(e)] *)
Definition exn_str (e : exn) : string :=
  match e with
  | DivisionByZero => "[<class 'decimal.DivisionByZero'>]"
  | InvalidOperation => "[<class 'decimal.InvalidOperation'>]"
  | KeyError key => "'" ++ key ++ "'"
  | TimeoutError => EmptyString
  | Exception msg => msg
  end.

(** [try: m except Exception: h] *)
Definition try_except {A : Type} (m : result A) (h : exn -> A) : A :=
  match m with
  | Ok a => a
  | Raise e => h e
  end.

Notation "'do' x <- m ; k" := (bind m (fun x => k))
  (at level 10, x name, m at level 100, k at level 200).

(** ** decimal.Decimal in the default context *)

Module Dec.

Local Open Scope Z_scope.

Record Decimal : Type := mkDecimal {
  sign : bool;      (* true: negative *)
  coeff : N;        (* the digits, as a number *)
  expo : Z
}.

(** Context precision: [getcontext().prec]. *)
Definition prec : Z := 28.

Fixpoint digits_fuel (fuel : nat) (n : Z) : Z :=
  match fuel with
  | O => 1
  | S f => if n <? 10 then 1 else 1 + digits_fuel f (n / 10)
  end.

(** Number of decimal digits of a coefficient: [len(self._int)]; the
    coefficient 0 is written with one digit. *)
Definition digits (n : Z) : Z := digits_fuel (S (Z.to_nat (Z.log2 n))) n.

(** [c / m] rounded to an integer, ties to the even neighbour
    (ROUND_HALF_EVEN on the digits dropped). *)
Definition round_half_even (c m : Z) : Z :=
  let q := c / m in
  let r := c mod m in
  match 2 * r ?= m with
  | Lt => q
  | Gt => q + 1
  | Eq => if Z.even q then q else q + 1
  end.

(** [Decimal._fix]: round to the context precision. *)
Definition _fix (d : Decimal) : Decimal :=
  let c := Z.of_N (coeff d) in
  let n := digits c in
  if n <=? prec then d
  else
    let k := n - prec in
    let c' := round_half_even c (10 ^ k) in
    if prec <? digits c'
    then mkDecimal (sign d) (Z.to_N (c' / 10)) (expo d + k + 1)
    else mkDecimal (sign d) (Z.to_N c') (expo d + k).

(** The coefficient with its sign. *)
Definition signed (d : Decimal) : Z :=
  if sign d then - Z.of_N (coeff d) else Z.of_N (coeff d).

(** [bool(d)]: a decimal is falsy exactly when it is a zero. *)
Definition truthy (d : Decimal) : bool := negb (coeff d =? 0)%N.

Definition copy_negate (d : Decimal) : Decimal :=
  mkDecimal (negb (sign d)) (coeff d) (expo d).

(** [a + b] *)
Definition add (a b : Decimal) : Decimal :=
  let e := Z.min (expo a) (expo b) in
  let z := signed a * 10 ^ (expo a - e) + signed b * 10 ^ (expo b - e) in
  _fix (mkDecimal (if z =? 0 then sign a && sign b else z <? 0) (Z.abs_N z) e).

(** [a - b] *)
Definition sub (a b : Decimal) : Decimal := add a (copy_negate b).

(** [a * b] *)
Definition mul (a b : Decimal) : Decimal :=
  _fix (mkDecimal (xorb (sign a) (sign b)) (coeff a * coeff b) (expo a + expo b)).

(** The loop of [__truediv__] that brings an exact quotient as close to the
    ideal exponent as its trailing zeros allow. *)
Fixpoint strip_zeros (fuel : nat) (c e ideal : Z) : Z * Z :=
  match fuel with
  | O => (c, e)
  | S f =>
      if (e <? ideal) && (c mod 10 =? 0)
      then strip_zeros f (c / 10) (e + 1) ideal
      else (c, e)
  end.

(** [a / b] *)
Definition div (a b : Decimal) : result Decimal :=
  let s := xorb (sign a) (sign b) in
  let ca := Z.of_N (coeff a) in
  let cb := Z.of_N (coeff b) in
  if cb =? 0 then
    if ca =? 0 then Raise InvalidOperation else Raise DivisionByZero
  else if ca =? 0 then
    Ok (_fix (mkDecimal s 0 (expo a - expo b)))
  else
    let shift := digits cb - digits ca + prec + 1 in
    let e := expo a - expo b - shift in
    let num := if 0 <=? shift then ca * 10 ^ shift else ca in
    let den := if 0 <=? shift then cb else cb * 10 ^ (- shift) in
    let q := num / den in
    let r := num mod den in
    if r =? 0 then
      let '(q', e') := strip_zeros (Z.to_nat shift) q e (expo a - expo b) in
      Ok (_fix (mkDecimal s (Z.to_N q') e'))
    else
      let q' := if q mod 5 =? 0 then q + 1 else q in
      Ok (_fix (mkDecimal s (Z.to_N q') e)).

(** Three-way numeric comparison ([Decimal._cmp]); exact, no rounding. *)
Definition cmp (a b : Decimal) : comparison :=
  let e := Z.min (expo a) (expo b) in
  (signed a * 10 ^ (expo a - e)) ?= (signed b * 10 ^ (expo b - e)).

Definition eqb (a b : Decimal) : bool :=
  match cmp a b with Eq => true | _ => false end.
Definition ltb (a b : Decimal) : bool :=
  match cmp a b with Lt => true | _ => false end.
Definition leb (a b : Decimal) : bool :=
  match cmp a b with Gt => false | _ => true end.
Definition geb (a b : Decimal) : bool := leb b a.
Definition gtb (a b : Decimal) : bool := ltb b a.

(** [abs(d)] *)
Definition abs (d : Decimal) : Decimal :=
  _fix (mkDecimal false (coeff d) (expo d)).

(** [Decimal._rescale(exp, ROUND_HALF_EVEN)] *)
Definition _rescale (d : Decimal) (e : Z) : Decimal :=
  let c := Z.of_N (coeff d) in
  if c =? 0 then mkDecimal (sign d) 0 e
  else if e <=? expo d then mkDecimal (sign d) (Z.to_N (c * 10 ^ (expo d - e))) e
  else mkDecimal (sign d) (Z.to_N (round_half_even c (10 ^ (e - expo d)))) e.

(** [d.quantize(exp)]: the exponent of [exp] is the target exponent; a
    result that needs more than [prec] digits is an InvalidOperation. *)
Definition quantize (d exp : Decimal) : result Decimal :=
  let c := Z.of_N (coeff d) in
  let e := expo exp in
  if c =? 0 then Ok (_fix (mkDecimal (sign d) 0 e))
  else if prec <? (expo d + digits c - 1) - e + 1 then Raise InvalidOperation
  else
    let ans := _rescale d e in
    if prec <? digits (Z.of_N (coeff ans)) then Raise InvalidOperation
    else Ok (_fix ans).

(** Literals of the source. *)
Definition of_Z (z : Z) : Decimal := mkDecimal (z <? 0) (Z.abs_N z) 0.
Definition zero : Decimal := mkDecimal false 0 0.          (* Decimal('0') *)
Definition one : Decimal := mkDecimal false 1 0.           (* Decimal('1') *)
Definition hundred : Decimal := mkDecimal false 100 0.     (* Decimal('100') *)
Definition two : Decimal := of_Z 2.                        (* the int 2 *)

Definition cent : Decimal := mkDecimal false 1 (-2).       (* Decimal('0.01') *)

(** *** The numbers decimals denote, and rounding on them

    These are specification-level counterparts of the operations above:
    the rational a decimal stands for, rounding a rational to an integer
    (ties to even), at a fixed exponent, and to [prec] significant digits. *)

Definition p10 (z : Z) : Q := (inject_Z 10 ^ z)%Q.

Definition value (d : Decimal) : Q := (inject_Z (signed d) * p10 (expo d))%Q.

Definition Qround_half_even (q : Q) : Z :=
  let f := Qfloor q in
  match (q - inject_Z f ?= 1 # 2)%Q with
  | Lt => f
  | Gt => f + 1
  | Eq => if Z.even f then f else f + 1
  end.

Definition round_at (k : Z) (q : Q) : Q :=
  (inject_Z (Qround_half_even (q / p10 k)) * p10 k)%Q.

(** The decimal order of magnitude of a non-zero rational: the [m] with
    [10^(m-1) <= |q| < 10^m]. *)
Definition magnitude (q : Q) : Z :=
  let a := Z.abs (Qnum q) in
  let d := Z.pos (Qden q) in
  let m0 := digits a - digits d in
  if (if 0 <=? m0 then d * 10 ^ m0 <=? a else d <=? a * 10 ^ (- m0))
  then m0 + 1 else m0.

Definition round_prec (q : Q) : Q :=
  if Qeq_bool q 0 then 0%Q else round_at (magnitude q - prec) q.

End Dec.

Import Dec.

(** Closes the side conditions [field] leaves on rationals known to be
    positive. *)
Ltac q_nonzero := repeat split; let E := fresh "E" in intros E; lra.

(** ** src/core/arbitrage_engine.py *)

Module Engine.

Local Open Scope string_scope.

(** A price dictionary as the venue clients build it: [yes_ask], [yes_bid],
    [no_ask], [no_bid] bound to a Decimal or to None.  [dict.get(key)] reads
    a missing key and a key bound to None alike. *)
Definition dict_get (d : gmap string (option Decimal)) (key : string)
  : option Decimal :=
  match d !! key with
  | Some v => v
  | None => None
  end.

Record Opportunity : Type := mkOpportunity {
  type : string;
  limitless_side : string;
  limitless_price : Decimal;
  polymarket_side : string;
  polymarket_price : Decimal;
  total_cost : Decimal;
  spread_pct : Decimal;
  profit_pct : Decimal
}.

Record ArbitrageEngine : Type := mkArbitrageEngine {
  min_spread_pct : Decimal;
  max_bet : Decimal;
  slippage : Decimal
}.

(** The constants [__init__] pre-computes. *)
Definition _one : Decimal := Dec.one.
Definition _hundred : Decimal := Dec.hundred.
Definition _zero : Decimal := Dec.zero.

Definition calculate_spread (self : ArbitrageEngine) (price1 price2 : Decimal)
  : result Decimal :=
  if negb (truthy price1) || negb (truthy price2)
     || Dec.leb price1 _zero || Dec.leb price2 _zero
  then Ok _zero
  else
    do mid <- Dec.div (Dec.add price1 price2) Dec.two;
    if Dec.eqb mid _zero then Ok _zero
    else
      do r <- Dec.div (Dec.abs (Dec.sub price1 price2)) mid;
      Ok (Dec.mul r _hundred).

Definition _evaluate_scenario (self : ArbitrageEngine)
    (lim_price poly_price : option Decimal)
    (scenario_type lim_side poly_side : string) : result (option Opportunity) :=
  match lim_price, poly_price with
  | Some lim, Some poly =>
      if negb (truthy lim) || negb (truthy poly) then Ok None
      else
        let total := Dec.add lim poly in
        (* Arbitrage exists when total cost < 1.00 *)
        if Dec.geb total _one then Ok None
        else
          do q <- Dec.div (Dec.sub _one total) total;
          let profit := Dec.mul q _hundred in
          let poly_implied := Dec.sub _one poly in
          do spread <- calculate_spread self lim poly_implied;
          if Dec.ltb spread (min_spread_pct self) then Ok None
          else Ok (Some {| type := scenario_type;
                           limitless_side := lim_side;
                           limitless_price := lim;
                           polymarket_side := poly_side;
                           polymarket_price := poly;
                           total_cost := total;
                           spread_pct := spread;
                           profit_pct := profit |})
  | _, _ => Ok None
  end.

(** [max(l, key=...)] on a non-empty list: the first of the maximal
    elements. *)
Definition max_by_profit (first : Opportunity) (rest : list Opportunity)
  : Opportunity :=
  fold_left
    (fun best o => if Dec.gtb (profit_pct o) (profit_pct best) then o else best)
    rest first.

Definition find_arbitrage (self : ArbitrageEngine)
    (lim_prices poly_prices : gmap string (option Decimal))
  : result (option Opportunity) :=
  do opp1 <- _evaluate_scenario self
               (dict_get lim_prices "yes_ask") (dict_get poly_prices "no_ask")
               "YES_LIMITLESS_NO_POLYMARKET" "YES" "NO";
  let opportunities := match opp1 with Some o => [o] | None => [] end in
  do opp2 <- _evaluate_scenario self
               (dict_get lim_prices "no_ask") (dict_get poly_prices "yes_ask")
               "NO_LIMITLESS_YES_POLYMARKET" "NO" "YES";
  let opportunities :=
    (opportunities ++ match opp2 with Some o => [o] | None => [] end)%list in
  match opportunities with
  | [] => Ok None
  | o :: rest => Ok (Some (max_by_profit o rest))
  end.

Definition calculate_bet_size (self : ArbitrageEngine) (opportunity : Opportunity)
  : result Decimal :=
  do q <- Dec.div (slippage self) _hundred;
  let slippage_factor := Dec.sub _one q in
  let adjusted_max := Dec.mul (max_bet self) slippage_factor in
  do bet_per_side <- Dec.div adjusted_max Dec.two;
  Dec.quantize bet_per_side Dec.cent.

Definition estimate_profit (self : ArbitrageEngine) (opportunity : Opportunity)
    (bet_size : Decimal) : result Decimal :=
  let total_invested := Dec.mul bet_size Dec.two in
  do total_payout <- Dec.div (Dec.mul bet_size Dec.two) (total_cost opportunity);
  Dec.quantize (Dec.sub total_payout total_invested) Dec.cent.

(** What the specification asks of [calculateBetSize], word for word: the
    maximum stake reduced by the slippage percentage, halved, and rounded to
    two decimals with ties away from zero (round-half-up).  Kept apart from
    [calculate_bet_size] to compare the two. *)
Definition spec_bet_size_half_up (self : ArbitrageEngine) : Q :=
  let exact := (value (max_bet self)
                * (1 - value (slippage self) / 100) / 2)%Q in
  let cents := (Qabs exact * 100)%Q in
  let up := Qfloor (cents + (1 # 2)) in
  ((if Qle_bool 0 exact then inject_Z up else - inject_Z up) / 100)%Q.

(** The value [calculate_bet_size] stands for, operation by operation: the
    slippage percentage divided by 100, taken from 1, multiplied by the
    maximum stake and halved, each result rounded to the context precision;
    then rounded to cents, ties to the even cent. *)
Definition bet_size_value (max_bet slippage : Q) : Q :=
  round_at (-2)
    (round_prec
       (round_prec (max_bet * round_prec (1 - round_prec (slippage / 100))) / 2)).

End Engine.

(** ** src/utils/cache.py

    The clock is an input: every operation that calls [datetime.now()]
    takes the instant it reads, in microseconds (the resolution of
    [datetime]).  The operations are modelled one at a time, as they run when
    no other coroutine interleaves; the lock then has no effect. *)

Module Cache.

Local Open Scope Z_scope.

(** [timedelta(seconds=s)] *)
Definition timedelta_seconds (s : Z) : Z := s * 1000000.

Section AsyncCache.

(** The cached values other than None; a Python value of type [Any] is
    [None] or [Some v]. *)
Context {V : Type}.

Record CacheEntry : Type := mkCacheEntry {
  value : option V;
  expires_at : Z
}.

Record AsyncCache : Type := mkAsyncCache {
  _cache : gmap string CacheEntry;
  _ttl : Z
}.

Definition __init__ (ttl : Z) : AsyncCache :=
  {| _cache := ∅; _ttl := ttl |}.

Definition get (now : Z) (key : string) (self : AsyncCache)
  : option V * AsyncCache :=
  match _cache self !! key with
  | Some entry =>
      if now <? expires_at entry then (value entry, self)
      else (None, {| _cache := delete key (_cache self); _ttl := _ttl self |})
  | None => (None, self)
  end.

(** [ttl or self._ttl]: None and 0 both select the default. *)
Definition ttl_or_default (ttl : option Z) (self : AsyncCache) : Z :=
  match ttl with
  | Some t => if t =? 0 then _ttl self else t
  | None => _ttl self
  end.

Definition set (now : Z) (key : string) (v : option V) (ttl : option Z)
    (self : AsyncCache) : AsyncCache :=
  {| _cache :=
       <[key := {| value := v;
                   expires_at := now + timedelta_seconds (ttl_or_default ttl self) |}]>
         (_cache self);
     _ttl := _ttl self |}.

(** [fetch_fn] is a producer with effects of its own: it runs on a world
    [W], which it may change, and returns a value or raises.  [now_get] and
    [now_set] are the instants read by [get] and by [set]. *)
Definition get_or_fetch {W : Type} (now_get now_set : Z) (key : string)
    (fetch_fn : W -> result (option V) * W) (self : AsyncCache) (w : W)
  : result (option V) * AsyncCache * W :=
  let '(cached, self1) := get now_get key self in
  match cached with
  | Some v => (Ok (Some v), self1, w)
  | None =>
      match fetch_fn w with
      | (Ok v, w') => (Ok v, set now_set key v None self1, w')
      | (Raise e, w') => (Raise e, self1, w')
      end
  end.

Definition invalidate (key : string) (self : AsyncCache) : AsyncCache :=
  {| _cache := delete key (_cache self); _ttl := _ttl self |}.

Definition clear (self : AsyncCache) : AsyncCache :=
  {| _cache := ∅; _ttl := _ttl self |}.

Definition cleanup_expired (now : Z) (self : AsyncCache) : nat * AsyncCache :=
  let expired :=
    (List.filter (fun kv => expires_at (snd kv) <=? now)
                 (map_to_list (_cache self))).*1 in
  (length expired,
   {| _cache := foldr delete (_cache self) expired; _ttl := _ttl self |}).

End AsyncCache.

Arguments CacheEntry : clear implicits.
Arguments AsyncCache : clear implicits.

End Cache.

(** ** Tasks

    A coroutine run as a task: how long it takes to finish, in
    milliseconds, and what it finishes with. *)

Record task (A : Type) : Type := mkTask {
  finishes_after : Z;
  outcome : result A
}.

Arguments mkTask {A}.
Arguments finishes_after {A}.
Arguments outcome {A}.

(** [asyncio.gather(t1, t2, return_exceptions=True)]: waits for both and
    returns each task's value or exception as a result. *)
Definition gather_return_exceptions {A B : Type} (t1 : task A) (t2 : task B)
  : task (result A * result B) :=
  {| finishes_after := Z.max (finishes_after t1) (finishes_after t2);
     outcome := Ok (outcome t1, outcome t2) |}.

(** [asyncio.gather(t1, t2, return_exceptions=False)]: the first exception
    raised is propagated at once; otherwise both values once both are done. *)
Definition gather {A B : Type} (t1 : task A) (t2 : task B) : task (A * B) :=
  match outcome t1, outcome t2 with
  | Ok a, Ok b =>
      {| finishes_after := Z.max (finishes_after t1) (finishes_after t2);
         outcome := Ok (a, b) |}
  | Raise e, Ok _ => {| finishes_after := finishes_after t1; outcome := Raise e |}
  | Ok _, Raise e => {| finishes_after := finishes_after t2; outcome := Raise e |}
  | Raise e1, Raise e2 =>
      if (finishes_after t1 <=? finishes_after t2)%Z
      then {| finishes_after := finishes_after t1; outcome := Raise e1 |}
      else {| finishes_after := finishes_after t2; outcome := Raise e2 |}
  end.

(** [await asyncio.wait_for(t, timeout)] on a task that has not run yet,
    [timeout] in seconds: the task's result if it finishes before the
    timeout has passed.  A task still running then is cancelled and the wait
    ends with TimeoutError, and so does every wait with a timeout of zero or
    less. *)
Definition wait_for {A : Type} (t : task A) (timeout : Z) : result A :=
  if (0 <? timeout)%Z && (finishes_after t <? timeout * 1000)%Z then outcome t
  else Raise TimeoutError.

(** [try: body except Exception: None] around a client call. *)
Definition caught_to_None {A : Type} (t : task (option A)) : task (option A) :=
  {| finishes_after := finishes_after t;
     outcome := Ok (try_except (outcome t) (fun _ => None)) |}.

(** ** Venue records and clients

    A market record is the dict a venue returns: string fields ([id],
    [title], [question], [condition_id], ...) and, on Polymarket, the list
    [tokens] of outcome tokens, each a dict that may hold a [token_id]. *)

Record Token : Type := mkToken { token_id : option string }.

Record Market : Type := mkMarket {
  fields : gmap string string;
  tokens : option (list Token)
}.

(** An order confirmation, as a venue returns it. *)
Abbreviation Dict := (gmap string string).

(** [bool(d)] for an optional dict. *)
Definition dict_truthy (d : option Dict) : bool :=
  match d with
  | Some m => negb (bool_decide (m = ∅))
  | None => false
  end.

(** The operations the core uses of a venue client. *)
Record Client : Type := mkClient {
  get_active_hourly_markets : task (list Market);
  place_order : string -> string -> Decimal -> Decimal -> task (option Dict)
}.

(** ** src/core/market_monitor.py *)

Module Monitor.

Local Open Scope string_scope.

Record MarketMatch : Type := mkMarketMatch {
  limitless : Market;
  polymarket : Market;
  strike_limitless : Decimal;
  strike_polymarket : Decimal;
  strike_diff : Decimal;
  time : string
}.

(** [self.limitless['id']] *)
Definition limitless_id (self : MarketMatch) : result string :=
  match fields (limitless self) !! "id" with
  | Some i => Ok i
  | None => Raise (KeyError "id")
  end.

Definition polymarket_condition_id (self : MarketMatch) : result string :=
  match fields (polymarket self) !! "condition_id" with
  | Some i => Ok i
  | None => Raise (KeyError "condition_id")
  end.

(** [self.limitless] and [self.polymarket] are [limitless_client] and
    [polymarket_client] here, apart from the two markets of a match. *)
Record MarketMonitor : Type := mkMarketMonitor {
  limitless_client : Client;
  polymarket_client : Client;
  max_strike_diff : Decimal
}.

(** A map [time -> [(strike, market)]] in insertion order, as the dict of
    the source iterates. *)
Abbreviation TimeMap := (list (string * list (Decimal * Market))).

Fixpoint time_map_get (time_slot : string) (time_map : TimeMap)
  : option (list (Decimal * Market)) :=
  match time_map with
  | [] => None
  | (k, v) :: rest =>
      if String.eqb k time_slot then Some v else time_map_get time_slot rest
  end.

(** [if k not in m: m[k] = []] then [m[k].append(x)] *)
Fixpoint time_map_append (time_slot : string) (x : Decimal * Market)
    (time_map : TimeMap) : TimeMap :=
  match time_map with
  | [] => [(time_slot, [x])]
  | (k, v) :: rest =>
      if String.eqb k time_slot then (k, (v ++ [x])%list) :: rest
      else (k, v) :: time_map_append time_slot x rest
  end.

(** *** Text

    A Python [str] is a sequence of Unicode code points, and the regular
    expressions and [Decimal] read it as such.  A [str] is written here as
    the string of its UTF-8 bytes (a lone surrogate, which a [str] may
    hold, as three bytes like its neighbours): [code_points] reads the
    code points of a string and [text] writes a string from them.  A byte
    that starts no well-formed sequence, which the bytes of a [str] never
    hold, is read as U+FFFD. *)

(** [ord(c)] of an ASCII character. *)
Definition ord (c : ascii) : N := N_of_ascii c.

Arguments ord c%_char.

Definition continuation (b : N) : bool := ((128 <=? b) && (b <? 192))%N.

Fixpoint utf8_decode (bytes : list N) : list N :=
  match bytes with
  | [] => []
  | b0 :: r0 =>
      if (b0 <? 128)%N then b0 :: utf8_decode r0
      else
        let replaced := 65533%N :: utf8_decode r0 in
        match r0 with
        | b1 :: r1 =>
            let c2 := ((b0 - 192) * 64 + (b1 - 128))%N in
            if (194 <=? b0)%N && (b0 <? 224)%N && continuation b1
            then c2 :: utf8_decode r1
            else
              match r1 with
              | b2 :: r2 =>
                  let c3 := (((b0 - 224) * 64 + (b1 - 128)) * 64 + (b2 - 128))%N in
                  if (224 <=? b0)%N && (b0 <? 240)%N
                     && continuation b1 && continuation b2 && (2048 <=? c3)%N
                  then c3 :: utf8_decode r2
                  else
                    match r2 with
                    | b3 :: r3 =>
                        let c4 := ((((b0 - 240) * 64 + (b1 - 128)) * 64
                                    + (b2 - 128)) * 64 + (b3 - 128))%N in
                        if (240 <=? b0)%N && (b0 <? 248)%N
                           && continuation b1 && continuation b2
                           && continuation b3
                           && (65536 <=? c4)%N && (c4 <? 1114112)%N
                        then c4 :: utf8_decode r3
                        else replaced
                    | [] => replaced
                    end
              | [] => replaced
              end
        | [] => replaced
        end
  end.

Definition utf8_encode (c : N) : list N :=
  (if c <? 128 then [c]
   else if c <? 2048 then [192 + c / 64; 128 + c mod 64]
   else if c <? 65536
        then [224 + c / 4096; 128 + (c / 64) mod 64; 128 + c mod 64]
        else [240 + c / 262144; 128 + (c / 4096) mod 64;
              128 + (c / 64) mod 64; 128 + c mod 64])%N.

Definition code_points (s : string) : list N :=
  utf8_decode (map N_of_ascii (list_ascii_of_string s)).

Definition text (cs : list N) : string :=
  string_of_list_ascii (map ascii_of_N (flat_map utf8_encode cs)).

(** *** The character classes

    [\d] matches the characters of category Nd of the interpreter's Unicode
    database, and [Decimal] reads each of them as the digit it stands for;
    they come in runs of ten, from the zero to the nine of a script.
    [decimal_zeros] lists the zeros (Unicode 14.0, the database of
    CPython 3.11): ASCII, Arabic-Indic, ..., fullwidth, ..., the
    mathematical digits, ..., the segmented digits. *)

Definition decimal_zeros : list N :=
  [48; 1632; 1776; 1984; 2406; 2534; 2662; 2790; 2918; 3046; 3174; 3302;
   3430; 3558; 3664; 3792; 3872; 4160; 4240; 6112; 6160; 6470; 6608; 6784;
   6800; 6992; 7088; 7232; 7248; 42528; 43216; 43264; 43472; 43504; 43600;
   44016; 65296; 66720; 68912; 69734; 69872; 69942; 70096; 70384; 70736;
   70864; 71248; 71360; 71472; 71904; 72016; 72784; 73040; 73120; 92768;
   92864; 93008; 120782; 120792; 120802; 120812; 120822; 123200; 123632;
   125264; 130032]%N.

(** The digit a character stands for, if it is a decimal digit. *)
Definition decimal_digit (c : N) : option N :=
  match List.find (fun zero => (zero <=? c) && (c <? zero + 10))%N decimal_zeros with
  | Some zero => Some (c - zero)%N
  | None => None
  end.

(** [\d] *)
Definition is_digit (c : N) : bool :=
  match decimal_digit c with Some _ => true | None => false end.

(** [\s]: the white space of the Unicode database.  Tab to carriage
    return, the four separators U+001C to U+001F, space, next line,
    no-break space, the Ogham space mark, the spaces U+2000 to U+200A, the
    line and paragraph separators, and the narrow no-break, medium
    mathematical and ideographic spaces. *)
Definition is_space (c : N) : bool :=
  (((9 <=? c) && (c <=? 13)) || ((28 <=? c) && (c <=? 32))
   || (c =? 133) || (c =? 160) || (c =? 5760)
   || ((8192 <=? c) && (c <=? 8202)) || (c =? 8232) || (c =? 8233)
   || (c =? 8239) || (c =? 8287) || (c =? 12288))%N.

(** *** The two regular expressions

    [STRIKE_REGEX] is [\$(\d+(?:,\d{3})*(?:\.\d{2})?)] and [TIME_REGEX] is
    [(\d{1,2}:\d{2})\s*UTC]; [search] returns the leftmost match, every
    quantifier taking as much as it can. *)

(** [\d*]: the longest run of digits, and what follows it. *)
Fixpoint span_digits (s : list N) : list N * list N :=
  match s with
  | c :: rest =>
      if is_digit c
      then let '(ds, r) := span_digits rest in (c :: ds, r)
      else ([], s)
  | [] => ([], [])
  end.

(** [(?:,\d{3})*] *)
Fixpoint comma_groups (s : list N) : list N * list N :=
  match s with
  | c0 :: a :: b :: c :: rest =>
      if (c0 =? ord ",")%N && is_digit a && is_digit b && is_digit c
      then let '(gs, r) := comma_groups rest in (c0 :: a :: b :: c :: gs, r)
      else ([], s)
  | _ => ([], s)
  end.

(** [(?:\.\d{2})?] *)
Definition cents_group (s : list N) : list N :=
  match s with
  | c0 :: a :: b :: _ =>
      if (c0 =? ord ".")%N && is_digit a && is_digit b then [c0; a; b] else []
  | _ => []
  end.

(** [STRIKE_REGEX] anchored at the start of [s]: group 1. *)
Definition strike_match_at (s : list N) : option (list N) :=
  match s with
  | c0 :: rest =>
      if (c0 =? ord "$")%N then
        match span_digits rest with
        | ([], _) => None
        | (ds, r1) =>
            let '(gs, r2) := comma_groups r1 in
            Some (ds ++ gs ++ cents_group r2)%list
        end
      else None
  | [] => None
  end.

Fixpoint strike_search (s : list N) : option (list N) :=
  match strike_match_at s with
  | Some g => Some g
  | None =>
      match s with
      | _ :: rest => strike_search rest
      | [] => None
      end
  end.

(** [\s*UTC] *)
Fixpoint utc_follows (s : list N) : bool :=
  match s with
  | c :: rest =>
      if is_space c then utc_follows rest
      else
        match s with
        | u :: t :: c' :: _ =>
            ((u =? ord "U") && (t =? ord "T") && (c' =? ord "C"))%N
        | _ => false
        end
  | [] => false
  end.

(** [TIME_REGEX] anchored at the start of [s]: group 1; two digits for the
    hour are tried before one. *)
Definition time_match_at (s : list N) : option (list N) :=
  let two :=
    match s with
    | a :: b :: c0 :: c :: d :: rest =>
        if is_digit a && is_digit b && (c0 =? ord ":")%N && is_digit c && is_digit d
           && utc_follows rest
        then Some [a; b; c0; c; d] else None
    | _ => None
    end in
  match two with
  | Some g => Some g
  | None =>
      match s with
      | a :: c0 :: c :: d :: rest =>
          if is_digit a && (c0 =? ord ":")%N && is_digit c && is_digit d
             && utc_follows rest
          then Some [a; c0; c; d] else None
      | _ => None
      end
  end.

Fixpoint time_search (s : list N) : option (list N) :=
  match time_match_at s with
  | Some g => Some g
  | None =>
      match s with
      | _ :: rest => time_search rest
      | [] => None
      end
  end.

(** The number a run of digits writes. *)
Definition digits_value (ds : list N) : N :=
  fold_left (fun acc c => (acc * 10 + default 0 (decimal_digit c))%N) ds 0%N.

(** [Decimal(strike_str)] for the text [STRIKE_REGEX] matches, commas
    removed: digits, then possibly a point and more digits. *)
Definition decimal_of_text (s : list N) : Decimal :=
  let '(int_part, rest) := span_digits s in
  match rest with
  | _ :: frac_part =>
      mkDecimal false (digits_value (int_part ++ frac_part))
                (- Z.of_nat (length frac_part))
  | [] => mkDecimal false (digits_value int_part) 0
  end.

Definition parse_strike_and_time (title : string) : option (Decimal * string) :=
  let s := code_points title in
  match strike_search s, time_search s with
  | Some strike_match, Some time_match =>
      let strike_str :=
        List.filter (fun c => negb (c =? ord ",")%N) strike_match in
      Some (decimal_of_text strike_str, text time_match)
  | _, _ => None
  end.

Definition _build_time_strike_map (markets : list Market) (title_key : string)
  : TimeMap :=
  fold_left
    (fun time_map market =>
       let title := default "" (fields market !! title_key) in
       match parse_strike_and_time title with
       | Some (strike, time_slot) =>
           time_map_append time_slot (strike, market) time_map
       | None => time_map
       end)
    markets [].

(** The matching loops of [find_matching_markets] (by time slot, then all
    combinations within the strike threshold). *)
Definition match_time_maps (self : MarketMonitor) (lim_map poly_map : TimeMap)
  : list MarketMatch :=
  flat_map
    (fun '(time_slot, lims) =>
       match time_map_get time_slot poly_map with
       | None => []
       | Some polys =>
           flat_map
             (fun '(lim_strike, lim_market) =>
                flat_map
                  (fun '(poly_strike, poly_market) =>
                     let diff := Dec.abs (Dec.sub lim_strike poly_strike) in
                     if Dec.leb diff (max_strike_diff self)
                     then [ {| limitless := lim_market;
                               polymarket := poly_market;
                               strike_limitless := lim_strike;
                               strike_polymarket := poly_strike;
                               strike_diff := diff;
                               time := time_slot |} ]
                     else [])
                  polys)
             lims
       end)
    lim_map.

(** The body of the [try] block. *)
Definition find_matching_markets_body (self : MarketMonitor)
  : result (list MarketMatch) :=
  let lim_task := get_active_hourly_markets (limitless_client self) in
  let poly_task := get_active_hourly_markets (polymarket_client self) in
  do fetched <- outcome (gather_return_exceptions lim_task poly_task);
  match fetched with
  | (Raise _, _) => Ok []
  | (Ok _, Raise _) => Ok []
  | (Ok lim_markets, Ok poly_markets) =>
      let lim_map := _build_time_strike_map lim_markets "title" in
      let poly_map := _build_time_strike_map poly_markets "question" in
      Ok (match_time_maps self lim_map poly_map)
  end.

Definition find_matching_markets (self : MarketMonitor) : list MarketMatch :=
  try_except (find_matching_markets_body self) (fun _ => []).

(** The pairs of one time slot the specification asks for: of the cross
    product of the two venues' markets at the slot, those whose strike
    difference is within the threshold, each as a match. *)
Definition qualifying_pairs (self : MarketMonitor) (time_slot : string)
    (lims polys : list (Decimal * Market)) : list MarketMatch :=
  map (fun '((lim_strike, lim_market), (poly_strike, poly_market)) =>
         {| limitless := lim_market;
            polymarket := poly_market;
            strike_limitless := lim_strike;
            strike_polymarket := poly_strike;
            strike_diff := Dec.abs (Dec.sub lim_strike poly_strike);
            time := time_slot |})
      (List.filter
         (fun '((lim_strike, _), (poly_strike, _)) =>
            Dec.leb (Dec.abs (Dec.sub lim_strike poly_strike)) (max_strike_diff self))
         (list_prod lims polys)).

(** *** What the two patterns match

    The text [STRIKE_REGEX] captures after the dollar sign (digits, groups
    of a comma and three digits, possibly a point and two digits) and the
    text [TIME_REGEX] captures (one or two digits, a colon, two digits), as
    predicates on the code points captured. *)

Definition comma_or_digit (c : N) : bool := (c =? ord ",")%N || is_digit c.

Definition strike_text (g : list N) : Prop :=
  exists ds groups cs,
    g = (ds ++ flat_map (cons (ord ",")) groups ++ cs)%list
    /\ ds <> [] /\ forallb is_digit ds = true
    /\ Forall (fun group => length group = 3%nat /\ forallb is_digit group = true)
              groups
    /\ (cs = []
        \/ exists a b, cs = [ord "."; a; b]
                       /\ is_digit a = true /\ is_digit b = true).

Definition time_text (g : list N) : Prop :=
  exists h c d,
    g = (h ++ [ord ":"; c; d])%list /\ (length h = 1 \/ length h = 2)%nat
    /\ forallb is_digit h = true /\ is_digit c = true /\ is_digit d = true.

End Monitor.

(** ** src/core/order_executor.py *)

Module Executor.

Import Engine Monitor.
Local Open Scope string_scope.

Record ExecutionResult : Type := mkExecutionResult {
  success : bool;
  limitless_order : option Dict;
  polymarket_order : option Dict;
  error : option string;
  bet_size : option Decimal
}.

Definition both_filled (self : ExecutionResult) : bool :=
  dict_truthy (limitless_order self) && dict_truthy (polymarket_order self).

Record OrderExecutor : Type := mkOrderExecutor {
  limitless : Client;
  polymarket : Client;
  execution_timeout : Z       (* seconds *)
}.

Definition _execute_limitless_order (self : OrderExecutor)
    (market_id side : string) (bet_size price : Decimal) : task (option Dict) :=
  caught_to_None (place_order (limitless self) market_id side bet_size price).

Definition _execute_polymarket_order (self : OrderExecutor)
    (token_id side : string) (bet_size price : Decimal) : task (option Dict) :=
  caught_to_None (place_order (polymarket self) token_id side bet_size price).

Definition upper_ascii (c : ascii) : ascii :=
  let n := nat_of_ascii c in
  if (97 <=? n)%nat && (n <=? 122)%nat then ascii_of_nat (n - 32) else c.

(** [str.upper()] on ASCII text. *)
Fixpoint upper (s : string) : string :=
  match s with
  | EmptyString => EmptyString
  | String c rest => String (upper_ascii c) (upper rest)
  end.

Definition _get_polymarket_token_id (self : OrderExecutor)
    (polymarket_market : Market) (side : string) : option string :=
  let tokens := default [] (tokens polymarket_market) in
  if (length tokens <? 2)%nat then None
  else
    (* Token index: YES = 1, NO = 0 *)
    let token_idx := if String.eqb (upper side) "YES" then 1%nat else 0%nat in
    match tokens !! token_idx with
    | Some t => token_id t
    | None => None
    end.

(** [bool(s)] for an optional string. *)
Definition str_truthy (s : option string) : bool :=
  match s with
  | Some EmptyString => false
  | Some _ => true
  | None => false
  end.

Definition execute_arbitrage (self : OrderExecutor) (opportunity : Opportunity)
    (bet : Decimal) (match_ : MarketMatch) : result ExecutionResult :=
  let poly_token_id :=
    _get_polymarket_token_id self (Monitor.polymarket match_)
                             (polymarket_side opportunity) in
  if negb (str_truthy poly_token_id) then
    Ok {| success := false; limitless_order := None; polymarket_order := None;
          error := Some "Invalid Polymarket token ID"; bet_size := None |}
  else
    do market_id <- limitless_id match_;
    let lim_task :=
      _execute_limitless_order self market_id (limitless_side opportunity)
                               bet (limitless_price opportunity) in
    let poly_task :=
      _execute_polymarket_order self (default "" poly_token_id) "BUY"
                                bet (polymarket_price opportunity) in
    match wait_for (gather lim_task poly_task) (execution_timeout self) with
    | Ok (lim_result, poly_result) =>
        let ok := dict_truthy lim_result && dict_truthy poly_result in
        Ok {| success := ok; limitless_order := lim_result;
              polymarket_order := poly_result; error := None;
              bet_size := Some bet |}
    | Raise TimeoutError =>
        Ok {| success := false; limitless_order := None;
              polymarket_order := None; error := Some "Execution timeout";
              bet_size := Some bet |}
    | Raise e =>
        Ok {| success := false; limitless_order := None;
              polymarket_order := None; error := Some (exn_str e);
              bet_size := Some bet |}
    end.

End Executor.

(** ** src/main.py

    The bot's counters are, like the cache, a state that the coroutines
    change in place.  [process_match] is modelled as it runs on the
    counters it finds: it only ever adds to them, and what it adds does not
    depend on what they hold, so the counters after several [process_match]
    coroutines have run interleaved are those of running them one after the
    other.  Log lines leave no trace in the model. *)

Module Bot.

Import Engine Monitor Executor.
Local Open Scope string_scope.

(** [self.stats]: a dict with five fixed keys, each a counter. *)
Record Stats : Type := mkStats {
  scans : nat;
  opportunities_found : nat;
  trades_executed : nat;
  trades_successful : nat;
  trades_failed : nat
}.

(** The counters [__init__] starts from. *)
Definition initial_stats : Stats := mkStats 0 0 0 0 0.

(** [self.stats[key] += 1], key by key. *)
Definition count_scan (s : Stats) : Stats :=
  mkStats (S (scans s)) (opportunities_found s) (trades_executed s)
          (trades_successful s) (trades_failed s).
Definition count_opportunity (s : Stats) : Stats :=
  mkStats (scans s) (S (opportunities_found s)) (trades_executed s)
          (trades_successful s) (trades_failed s).
Definition count_executed (s : Stats) : Stats :=
  mkStats (scans s) (opportunities_found s) (S (trades_executed s))
          (trades_successful s) (trades_failed s).
Definition count_successful (s : Stats) : Stats :=
  mkStats (scans s) (opportunities_found s) (trades_executed s)
          (S (trades_successful s)) (trades_failed s).
Definition count_failed (s : Stats) : Stats :=
  mkStats (scans s) (opportunities_found s) (trades_executed s)
          (trades_successful s) (S (trades_failed s)).

(** A price dictionary, as a client's [get_market_prices] returns it; the
    empty dictionary stands for a failed fetch. *)
Abbreviation Prices := (gmap string (option Decimal)).

(** [bool(d)] for a price dictionary. *)
Definition prices_truthy (d : Prices) : bool := negb (bool_decide (d = ∅)).

(** The bot: the two clients' [get_market_prices], and the monitor, the
    engine and the executor that [initialize_clients] builds. *)
Record ArbitrageBot : Type := mkArbitrageBot {
  limitless_get_market_prices : string -> task Prices;
  polymarket_get_market_prices : string -> task Prices;
  monitor : MarketMonitor;
  arbitrage_engine : ArbitrageEngine;
  executor : OrderExecutor
}.

(** Steps that read and change the counters and may raise; the counters
    keep what was added before a raise. *)
Definition Step (A : Type) : Type := Stats -> result A * Stats.

Definition ret {A : Type} (a : A) : Step A := fun s => (Ok a, s).

Definition lift {A : Type} (r : result A) : Step A := fun s => (r, s).

Definition add_to (count : Stats -> Stats) : Step unit := fun s => (Ok tt, count s).

Definition and_then {A B : Type} (m : Step A) (k : A -> Step B) : Step B :=
  fun s =>
    match m s with
    | (Ok a, s') => k a s'
    | (Raise e, s') => (Raise e, s')
    end.

Notation "'run' x <- m ; k" := (and_then m (fun x => k))
  (at level 10, x name, m at level 100, k at level 200).

(** The body of the [try] block of [process_match]. *)
Definition process_match_body (self : ArbitrageBot) (match_ : MarketMatch)
  : Step bool :=
  run market_id <- lift (limitless_id match_);
  run condition_id <- lift (polymarket_condition_id match_);
  run prices <- lift (outcome (gather (limitless_get_market_prices self market_id)
                                      (polymarket_get_market_prices self condition_id)));
  let '(lim_prices, poly_prices) := prices in
  if negb (prices_truthy lim_prices) || negb (prices_truthy poly_prices)
  then ret false
  else
    run opportunity <- lift (find_arbitrage (arbitrage_engine self)
                                            lim_prices poly_prices);
    match opportunity with
    | None => ret false
    | Some opportunity =>
        run _ <- add_to count_opportunity;
        run bet_size <- lift (calculate_bet_size (arbitrage_engine self) opportunity);
        run estimated_profit <-
          lift (estimate_profit (arbitrage_engine self) opportunity bet_size);
        run result <-
          lift (execute_arbitrage (executor self) opportunity bet_size match_);
        run _ <- add_to count_executed;
        if success result
        then run _ <- add_to count_successful; ret true
        else run _ <- add_to count_failed; ret false
    end.

Definition process_match (self : ArbitrageBot) (match_ : MarketMatch)
    (stats : Stats) : bool * Stats :=
  match process_match_body self match_ stats with
  | (Ok traded, stats') => (traded, stats')
  | (Raise _, stats') => (false, stats')
  end.

(** [asyncio.gather] (with [return_exceptions=True]) over the
    [process_match] coroutines of a scan: their results in the order of the
    matches, and the counters once all have run. *)
Fixpoint process_matches (self : ArbitrageBot) (matches : list MarketMatch)
    (stats : Stats) : list bool * Stats :=
  match matches with
  | [] => ([], stats)
  | match_ :: rest =>
      let '(traded, stats1) := process_match self match_ stats in
      let '(results, stats2) := process_matches self rest stats1 in
      (traded :: results, stats2)
  end.

(** [sum(1 for r in results if r is True)] *)
Definition trades_this_scan (results : list bool) : nat :=
  length (List.filter (fun r => r) results).

(** One scan; [now] is the instant [cleanup_expired] reads in the
    [finally] block. *)
Definition scan_and_execute {V : Type} (now : Z) (self : ArbitrageBot)
    (stats : Stats) (cache : Cache.AsyncCache V) : Stats * Cache.AsyncCache V :=
  let stats1 := count_scan stats in
  let matches := find_matching_markets (monitor self) in
  let stats2 :=
    match matches with
    | [] => stats1
    | _ => snd (process_matches self matches stats1)
    end in
  (stats2, snd (Cache.cleanup_expired now cache)).

(** The counters agree with each other: every trade executed was counted
    as successful or as failed, and none was executed without an
    opportunity. *)
Definition consistent (s : Stats) : Prop :=
  trades_executed s = (trades_successful s + trades_failed s)%nat
  /\ (trades_executed s <= opportunities_found s)%nat.

(** Counters added key by key. *)
Definition plus (s d : Stats) : Stats :=
  mkStats (scans s + scans d)
          (opportunities_found s + opportunities_found d)
          (trades_executed s + trades_executed d)
          (trades_successful s + trades_successful d)
          (trades_failed s + trades_failed d).

End Bot.

(** ** src/config/credentials.py

    The process environment is an input of the getters; each getter has a
    cache of its own, made by [functools.lru_cache(maxsize=1)]. *)

Module Credentials.

Local Open Scope string_scope.

(** [os.environ] *)
Abbreviation Environ := (gmap string string).

(** [os.getenv(name, '')] *)
Definition getenv (environ : Environ) (name : string) : string :=
  default "" (environ !! name).

Inductive ValueError : Type := mkValueError (msg : string).

(** [lru_cache(maxsize=1)] around a function of no argument: the slot
    holds the value of the first call that returned, and every later call
    returns it; a call that raises leaves the slot empty. *)
Definition lru_cache {A : Type} (f : Environ -> A + ValueError)
    (environ : Environ) (slot : option A) : (A + ValueError) * option A :=
  match slot with
  | Some a => (inl a, slot)
  | None =>
      match f environ with
      | inl a => (inl a, Some a)
      | inr e => (inr e, None)
      end
  end.

Definition get_limitless_key
  : Environ -> option string -> (string + ValueError) * option string :=
  lru_cache (fun environ =>
    let key := getenv environ "LIMITLESS_API_KEY" in
    if String.eqb key "" then
      inr (mkValueError "LIMITLESS_API_KEY not found in environment")
    else inl key).

Definition get_limitless_private_key
  : Environ -> option string -> (string + ValueError) * option string :=
  lru_cache (fun environ =>
    let key := getenv environ "LIMITLESS_PRIVATE_KEY" in
    if String.eqb key "" then
      inr (mkValueError "LIMITLESS_PRIVATE_KEY not found in environment")
    else inl key).

Definition get_polymarket_private_key
  : Environ -> option string -> (string + ValueError) * option string :=
  lru_cache (fun environ =>
    let key := getenv environ "POLYMARKET_PRIVATE_KEY" in
    if String.eqb key "" then
      inr (mkValueError "POLYMARKET_PRIVATE_KEY not found in environment")
    else inl key).

Definition get_polymarket_api_key
  : Environ -> option string -> (string + ValueError) * option string :=
  lru_cache (fun environ => inl (getenv environ "POLYMARKET_API_KEY")).

End Credentials.

(** ** Sample data for the examples of Part II *)

Module Samples.

Import Engine.
Local Open Scope string_scope.

(** The configuration of src/config/settings.py: minimum spread 3.0,
    maximum bet 10.0, slippage tolerance 0.5. *)
Definition engine_3pct : ArbitrageEngine :=
  {| min_spread_pct := mkDecimal false 30 (-1);
     max_bet := mkDecimal false 100 (-1);
     slippage := mkDecimal false 5 (-1) |}.

(** The same with a slippage tolerance of 1.5. *)
Definition engine_slippage_15 : ArbitrageEngine :=
  {| min_spread_pct := mkDecimal false 30 (-1);
     max_bet := mkDecimal false 100 (-1);
     slippage := mkDecimal false 15 (-1) |}.

Definition price (cents : N) : Decimal := mkDecimal false cents (-2).

Definition quotes (yes_ask no_ask : N) : gmap string (option Decimal) :=
  <["yes_ask" := Some (price yes_ask)]> (<["no_ask" := Some (price no_ask)]> ∅).

Definition some_opportunity : Opportunity :=
  {| type := "YES_LIMITLESS_NO_POLYMARKET";
     limitless_side := "YES"; limitless_price := price 40;
     polymarket_side := "NO"; polymarket_price := price 45;
     total_cost := price 85;
     spread_pct := mkDecimal false 3157894736842105263157894737 (-26);
     profit_pct := mkDecimal false 1764705882352941176470588235 (-26) |}.

(** A cache of numbers with a default TTL of 10 seconds, in which "k" was
    set at instant 0 with a TTL of 0. *)
Definition cache_ttl_0 : Cache.AsyncCache nat :=
  Cache.set 0 "k" (Some 7%nat) (Some 0%Z) (Cache.__init__ 10).

(** The same cache with "k" set to 7 with a TTL of 60 seconds. *)
Definition cache_ttl_60 : Cache.AsyncCache nat :=
  Cache.set 0 "k" (Some 7%nat) (Some 60%Z) (Cache.__init__ 10).

(** The same cache with "k" set to None with a TTL of 60 seconds. *)
Definition cache_holding_None : Cache.AsyncCache nat :=
  Cache.set 0 "k" None (Some 60%Z) (Cache.__init__ 10).

(** A producer that counts its calls and returns the count. *)
Definition counting_producer (calls : nat) : result (option nat) * nat :=
  (Ok (Some (S calls)), S calls).

(** Venue records and clients. *)
Definition limitless_market (id title : string) : Market :=
  {| fields := <["id" := id]> (<["title" := title]> ∅); tokens := None |}.

Definition polymarket_market (condition_id question : string) : Market :=
  {| fields := <["condition_id" := condition_id]> (<["question" := question]> ∅);
     tokens := Some [mkToken (Some "token-no"); mkToken (Some "token-yes")] |}.

Definition lim_95000 : Market :=
  limitless_market "lim-1" "BTC above $95,000 at 14:00 UTC".

Definition poly_95200 : Market :=
  polymarket_market "poly-1" "BTC above $95,200.00 at 14:00 UTC?".

Definition confirmation : Dict := <["id" := "order-1"]> ∅.

(** A client whose fetch returns [markets] after 100 ms and whose order
    submissions all end as [order]. *)
Definition client (markets : result (list Market)) (order : task (option Dict))
  : Client :=
  {| get_active_hourly_markets := mkTask 100 markets;
     place_order := fun _ _ _ _ => order |}.

Definition no_order : task (option Dict) := mkTask 0 (Ok None).

(** Both venues answer; the strike threshold is 200.0. *)
Definition monitor_ok : Monitor.MarketMonitor :=
  {| Monitor.limitless_client := client (Ok [lim_95000]) no_order;
     Monitor.polymarket_client := client (Ok [poly_95200]) no_order;
     Monitor.max_strike_diff := mkDecimal false 2000 (-1) |}.

(** The Limitless fetch fails. *)
Definition monitor_limitless_down : Monitor.MarketMonitor :=
  {| Monitor.limitless_client := client (Raise (Exception "connection reset")) no_order;
     Monitor.polymarket_client := client (Ok [poly_95200]) no_order;
     Monitor.max_strike_diff := mkDecimal false 2000 (-1) |}.

Definition matched : Monitor.MarketMatch :=
  {| Monitor.limitless := lim_95000;
     Monitor.polymarket := poly_95200;
     Monitor.strike_limitless := mkDecimal false 95000 0;
     Monitor.strike_polymarket := mkDecimal false 9520000 (-2);
     Monitor.strike_diff := mkDecimal false 20000 (-2);
     Monitor.time := "14:00" |}.

(** Leg A is confirmed after 100 ms, leg B is refused after 50 ms; the
    timeout is 12 seconds. *)
Definition executor_leg_b_raises : Executor.OrderExecutor :=
  {| Executor.limitless := client (Ok []) (mkTask 100 (Ok (Some confirmation)));
     Executor.polymarket := client (Ok []) (mkTask 50 (Raise (Exception "rejected")));
     Executor.execution_timeout := 12 |}.

(** Both legs are confirmed, leg B after 13 seconds only. *)
Definition executor_slow : Executor.OrderExecutor :=
  {| Executor.limitless := client (Ok []) (mkTask 100 (Ok (Some confirmation)));
     Executor.polymarket := client (Ok []) (mkTask 13000 (Ok (Some confirmation)));
     Executor.execution_timeout := 12 |}.


(** A second opportunity, cheaper than [some_opportunity]: Limitless YES at
    0.30 against Polymarket NO at 0.45. *)
Definition cheaper_opportunity : Opportunity :=
  {| type := "YES_LIMITLESS_NO_POLYMARKET";
     limitless_side := "YES"; limitless_price := price 30;
     polymarket_side := "NO"; polymarket_price := price 45;
     total_cost := price 75;
     spread_pct := mkDecimal false 5882352941176470588235294118 (-26);
     profit_pct := mkDecimal false 3333333333333333333333333333 (-26) |}.

(** The second scenario on Limitless NO at 0.45 and Polymarket YES at
    0.50. *)
Definition dearer_opportunity : Opportunity :=
  {| type := "NO_LIMITLESS_YES_POLYMARKET";
     limitless_side := "NO"; limitless_price := price 45;
     polymarket_side := "YES"; polymarket_price := price 50;
     total_cost := price 95;
     spread_pct := mkDecimal false 1052631578947368421052631579 (-26);
     profit_pct := mkDecimal false 5263157894736842105263157895 (-27) |}.


(** A producer that fails. *)
Definition failing_producer (calls : nat) : result (option nat) * nat :=
  (Raise (Exception "unreachable"), S calls).

(** A match whose Polymarket record carries no token list. *)
Definition matched_without_tokens : Monitor.MarketMatch :=
  {| Monitor.limitless := lim_95000;
     Monitor.polymarket := limitless_market "poly-1" "BTC above $95,200.00 at 14:00 UTC?";
     Monitor.strike_limitless := mkDecimal false 95000 0;
     Monitor.strike_polymarket := mkDecimal false 9520000 (-2);
     Monitor.strike_diff := mkDecimal false 20000 (-2);
     Monitor.time := "14:00" |}.

End Samples.

(* ===================================================================== *)
(** * Part II: properties                                                 *)
(* ===================================================================== *)

(** ** Decimal arithmetic *)

Module DecFacts.

Local Open Scope Z_scope.

(** *** Digits *)

Lemma digits_fuel_pos (fuel : nat) (n : Z) : 1 <= digits_fuel fuel n.
Proof.
  revert n. induction fuel as [|f IH]; intros n; cbn [digits_fuel]; [lia|].
  destruct (n <? 10); [lia|]. specialize (IH (n / 10)). lia.
Qed.

Lemma digits_fuel_spec (fuel : nat) (n : Z) :
  0 < n -> n < 2 ^ Z.of_nat fuel ->
  10 ^ (digits_fuel fuel n - 1) <= n < 10 ^ digits_fuel fuel n.
Proof.
  revert n. induction fuel as [|f IH]; intros n Hpos Hlt.
  - simpl in Hlt. lia.
  - cbn [digits_fuel]. destruct (Z.ltb_spec n 10) as [H10|H10].
    + simpl. lia.
    + assert (Hq : 0 < n / 10) by (apply Z.div_str_pos; lia).
      assert (Hb : n / 10 < 2 ^ Z.of_nat f).
      { apply Z.div_lt_upper_bound; [lia|].
        rewrite Nat2Z.inj_succ, Z.pow_succ_r in Hlt by lia. lia. }
      specialize (IH (n / 10) Hq Hb).
      pose proof (digits_fuel_pos f (n / 10)) as Hd.
      set (d := digits_fuel f (n / 10)) in *.
      replace (1 + d - 1) with (Z.succ (d - 1)) by lia.
      replace (1 + d) with (Z.succ d) by lia.
      rewrite !Z.pow_succ_r by lia.
      pose proof (Z.div_mod n 10 ltac:(lia)) as Hdm.
      pose proof (Z.mod_pos_bound n 10 ltac:(lia)) as Hm.
      lia.
Qed.

Lemma digits_spec (n : Z) :
  0 < n -> 10 ^ (digits n - 1) <= n < 10 ^ digits n.
Proof.
  intros Hpos. unfold digits. apply digits_fuel_spec; [assumption|].
  rewrite Nat2Z.inj_succ, Z2Nat.id by apply Z.log2_nonneg.
  apply Z.log2_spec. assumption.
Qed.

Lemma digits_pos (n : Z) : 1 <= digits n.
Proof. apply digits_fuel_pos. Qed.

Lemma pow10_pos (k : Z) : 0 <= k -> 0 < 10 ^ k.
Proof. intros. apply Z.pow_pos_nonneg; lia. Qed.

Lemma pow10_lt_inv (a b : Z) : 0 <= b -> 10 ^ a < 10 ^ b -> a < b.
Proof. intros Hb H. apply (Z.pow_lt_mono_r_iff 10); lia. Qed.

Lemma digits_unique (n k : Z) :
  0 < n -> 10 ^ (k - 1) <= n < 10 ^ k -> digits n = k.
Proof.
  intros Hpos [Hlo Hhi].
  pose proof (digits_spec n Hpos) as [Dlo Dhi].
  pose proof (digits_pos n) as Dp.
  assert (Hk : 1 <= k).
  { destruct (Z.le_gt_cases 1 k) as [?|Hneg]; [assumption|]. exfalso.
    destruct (Z.eq_dec k 0) as [->|Hk0]; [simpl in Hhi; lia|].
    rewrite (Z.pow_neg_r 10 k) in Hhi by lia. lia. }
  assert (digits n - 1 < k) by (apply pow10_lt_inv; lia).
  assert (k - 1 < digits n) by (apply pow10_lt_inv; lia).
  lia.
Qed.

Lemma digits_0 : digits 0 = 1.
Proof. reflexivity. Qed.

Lemma digits_le_iff (n k : Z) : 0 < n -> 0 <= k -> (digits n <= k <-> n < 10 ^ k).
Proof.
  intros Hpos Hk. pose proof (digits_spec n Hpos) as [Dlo Dhi].
  pose proof (digits_pos n) as Dp. split; intros H.
  - eapply Z.lt_le_trans; [exact Dhi|]. apply Z.pow_le_mono_r; lia.
  - assert (digits n - 1 < k) by (apply pow10_lt_inv; lia). lia.
Qed.

(** *** Powers of ten *)

Lemma p10_pos (z : Z) : (0 < p10 z)%Q.
Proof. unfold p10. apply Qpower_0_lt. reflexivity. Qed.

Lemma p10_add (a b : Z) : (p10 (a + b) == p10 a * p10 b)%Q.
Proof. unfold p10. apply Qpower_plus. discriminate. Qed.

Lemma p10_opp (a : Z) : (p10 (- a) == / p10 a)%Q.
Proof. unfold p10. apply Qpower_opp. Qed.

Lemma p10_sub (a b : Z) : (p10 (a - b) == p10 a / p10 b)%Q.
Proof.
  replace (a - b) with (a + - b) by lia.
  rewrite p10_add, p10_opp. reflexivity.
Qed.

Lemma p10_0 : (p10 0 == 1)%Q.
Proof. reflexivity. Qed.

Lemma p10_1 : (p10 1 == 10)%Q.
Proof. reflexivity. Qed.

Lemma p10_Z (z : Z) : 0 <= z -> (p10 z == inject_Z (10 ^ z))%Q.
Proof. intros H. unfold p10. symmetry. apply Zpower_Qpower. assumption. Qed.

Lemma p10_lt (a b : Z) : a < b -> (p10 a < p10 b)%Q.
Proof. intros H. unfold p10. apply Qpower_lt_compat_l; [assumption|reflexivity]. Qed.

Lemma p10_le (a b : Z) : a <= b -> (p10 a <= p10 b)%Q.
Proof. intros H. unfold p10. apply Qpower_le_compat_l; [assumption|discriminate]. Qed.

Lemma p10_lt_inv (a b : Z) : (p10 a < p10 b)%Q -> a < b.
Proof. intros H. unfold p10 in H. eapply Qpower_lt_compat_l_inv; [exact H|reflexivity]. Qed.

Lemma p10_succ (a : Z) : (p10 (a + 1) == 10 * p10 a)%Q.
Proof. rewrite p10_add, p10_1. ring. Qed.

Lemma p10_pred (a : Z) : (p10 (a - 1) == p10 a / 10)%Q.
Proof. rewrite p10_sub, p10_1. reflexivity. Qed.

Lemma inject_Z_pos (z : Z) : 0 < z -> (0 < inject_Z z)%Q.
Proof. intros H. change 0%Q with (inject_Z 0). rewrite <- Zlt_Qlt. assumption. Qed.

Lemma inject_Z_nonneg (z : Z) : 0 <= z -> (0 <= inject_Z z)%Q.
Proof. intros H. change 0%Q with (inject_Z 0). rewrite <- Zle_Qle. assumption. Qed.

(** *** Rounding a rational to an integer *)

Lemma Qfloor_unique (q : Q) (z : Z) :
  (inject_Z z <= q)%Q -> (q < inject_Z (z + 1))%Q -> Qfloor q = z.
Proof.
  intros Hlo Hhi.
  pose proof (Qfloor_le q) as Fl. pose proof (Qlt_floor q) as Fh.
  assert (H1 : (inject_Z z < inject_Z (Qfloor q + 1))%Q) by (eapply Qle_lt_trans; eauto).
  assert (H2 : (inject_Z (Qfloor q) < inject_Z (z + 1))%Q) by (eapply Qle_lt_trans; eauto).
  rewrite <- Zlt_Qlt in H1, H2. lia.
Qed.

Lemma Qrhe_comp (q1 q2 : Q) : (q1 == q2)%Q -> Qround_half_even q1 = Qround_half_even q2.
Proof.
  intros H. unfold Qround_half_even.
  rewrite (Qfloor_comp _ _ H).
  assert (Hc : ((q1 - inject_Z (Qfloor q2) ?= 1 # 2) = (q2 - inject_Z (Qfloor q2) ?= 1 # 2))%Q).
  { apply Qcompare_comp; [rewrite H|]; reflexivity. }
  rewrite Hc. reflexivity.
Qed.

Lemma Qrhe_bounds (q : Q) : Qfloor q <= Qround_half_even q <= Qfloor q + 1.
Proof.
  unfold Qround_half_even.
  destruct (q - inject_Z (Qfloor q) ?= 1 # 2)%Q; [destruct (Z.even _)| |]; lia.
Qed.

Lemma Qrhe_Z (z : Z) : Qround_half_even (inject_Z z) = z.
Proof.
  unfold Qround_half_even. rewrite Qfloor_Z.
  destruct (Qcompare_spec (inject_Z z - inject_Z z) (1 # 2)) as [H|H|H];
    [exfalso; lra| reflexivity | exfalso; lra].
Qed.

Lemma Qrhe_mono (q1 q2 : Q) :
  (q1 <= q2)%Q -> Qround_half_even q1 <= Qround_half_even q2.
Proof.
  intros H. pose proof (Qfloor_resp_le _ _ H) as Hf.
  pose proof (Qrhe_bounds q1) as B1. pose proof (Qrhe_bounds q2) as B2.
  destruct (Z.eq_dec (Qfloor q1) (Qfloor q2)) as [E|NE]; [|lia].
  unfold Qround_half_even. rewrite E.
  destruct (Qcompare_spec (q1 - inject_Z (Qfloor q2)) (1 # 2)) as [H1|H1|H1];
  destruct (Qcompare_spec (q2 - inject_Z (Qfloor q2)) (1 # 2)) as [H2|H2|H2];
  try destruct (Z.even (Qfloor q2)); try lia; exfalso; lra.
Qed.

Lemma Qrhe_opp (q : Q) : Qround_half_even (- q) = - Qround_half_even q.
Proof.
  pose proof (Qfloor_le q) as Fl. pose proof (Qlt_floor q) as Fh.
  set (f := Qfloor q) in *.
  rewrite inject_Z_plus in Fh.
  destruct (Qeq_dec q (inject_Z f)) as [E|NE].
  - rewrite (Qrhe_comp q (inject_Z f) E).
    assert (E' : (- q == inject_Z (- f))%Q) by (rewrite inject_Z_opp, E; reflexivity).
    rewrite (Qrhe_comp _ _ E'), !Qrhe_Z. reflexivity.
  - assert (Hlt : (inject_Z f < q)%Q).
    { destruct (Qlt_le_dec (inject_Z f) q) as [?|Hle]; [assumption|].
      exfalso. apply NE. lra. }
    assert (Ff : Qfloor (- q) = - f - 1).
    { apply Qfloor_unique.
      - replace (- f - 1) with (- (f + 1)) by lia.
        rewrite inject_Z_opp, inject_Z_plus. lra.
      - replace (- f - 1 + 1) with (- f) by lia. rewrite inject_Z_opp. lra. }
    unfold Qround_half_even. fold f. rewrite Ff.
    replace (inject_Z (- f - 1)) with (- inject_Z f - 1)%Q
      by (unfold Z.sub; rewrite inject_Z_plus, !inject_Z_opp; reflexivity).
    destruct (Qcompare_spec (q - inject_Z f) (1 # 2)) as [H1|H1|H1];
    destruct (Qcompare_spec (- q - (- inject_Z f - 1)) (1 # 2)) as [H2|H2|H2];
    try (exfalso; lra); try lia.
    replace (- f - 1) with (- (f + 1)) by lia.
    rewrite Z.even_opp. replace (f + 1) with (Z.succ f) by lia.
    rewrite Z.even_succ, <- Z.negb_even.
    destruct (Z.even f); simpl; lia.
Qed.

Lemma Qrhe_div (c m : Z) :
  0 < m -> Qround_half_even (inject_Z c / inject_Z m) = round_half_even c m.
Proof.
  intros Hm. unfold Qround_half_even, round_half_even.
  rewrite <- Zdiv_Qdiv.
  pose proof (Z.div_mod c m ltac:(lia)) as Hdm.
  pose proof (Z.mod_pos_bound c m Hm) as Hb.
  assert (Hm' : (0 < inject_Z m)%Q) by (rewrite (Zlt_Qlt 0 m) in Hm; exact Hm).
  assert (Hfrac : (inject_Z c / inject_Z m - inject_Z (c / m) == inject_Z (c mod m) / inject_Z m)%Q).
  { rewrite Hdm at 1. rewrite inject_Z_plus, inject_Z_mult. field.
    intros Hz. lra. }
  assert (Hc : (inject_Z c / inject_Z m - inject_Z (c / m) ?= 1 # 2)%Q
                = (2 * (c mod m) ?= m)).
  { destruct (Z.compare_spec (2 * (c mod m)) m) as [H|H|H].
    - apply Qeq_alt. rewrite Hfrac.
      assert (Hq : (inject_Z m == 2 * inject_Z (c mod m))%Q)
        by (rewrite <- H at 1; rewrite inject_Z_mult; reflexivity).
      assert (Hq' : (inject_Z (c mod m) == inject_Z m / 2)%Q)
        by (rewrite Hq; field).
      rewrite Hq'. field. q_nonzero.
    - apply Qlt_alt. rewrite Hfrac. apply Qlt_shift_div_r; [assumption|].
      rewrite (Zlt_Qlt (2 * (c mod m)) m) in H. rewrite inject_Z_mult in H.
      change (inject_Z 2) with 2%Q in H. lra.
    - apply Qgt_alt. rewrite Hfrac. apply Qlt_shift_div_l; [assumption|].
      rewrite (Zlt_Qlt m (2 * (c mod m))) in H. rewrite inject_Z_mult in H.
      change (inject_Z 2) with 2%Q in H. lra. }
  rewrite Hc. reflexivity.
Qed.

(** *** Rounding at a fixed exponent *)

Lemma round_at_comp (k : Z) (q1 q2 : Q) :
  (q1 == q2)%Q -> (round_at k q1 == round_at k q2)%Q.
Proof.
  intros H. unfold round_at.
  rewrite (Qrhe_comp (q1 / p10 k) (q2 / p10 k)) by (rewrite H; reflexivity).
  reflexivity.
Qed.

Lemma Qdiv_le_mono (a b c : Q) : (0 < c)%Q -> (a <= b)%Q -> (a / c <= b / c)%Q.
Proof.
  intros Hc H. unfold Qdiv. apply Qmult_le_r; [apply Qinv_lt_0_compat|]; assumption.
Qed.

Lemma round_at_mono (k : Z) (q1 q2 : Q) :
  (q1 <= q2)%Q -> (round_at k q1 <= round_at k q2)%Q.
Proof.
  intros H. unfold round_at. apply Qmult_le_r; [apply p10_pos|].
  rewrite <- Zle_Qle. apply Qrhe_mono. apply Qdiv_le_mono; [apply p10_pos|assumption].
Qed.

Lemma round_at_opp (k : Z) (q : Q) : (round_at k (- q) == - round_at k q)%Q.
Proof.
  unfold round_at.
  rewrite (Qrhe_comp (- q / p10 k) (- (q / p10 k)))
    by (field; pose proof (p10_pos k); intros Hz; lra).
  rewrite Qrhe_opp, inject_Z_opp. ring.
Qed.

Lemma round_at_exact (k z : Z) :
  (round_at k (inject_Z z * p10 k) == inject_Z z * p10 k)%Q.
Proof.
  unfold round_at.
  rewrite (Qrhe_comp (inject_Z z * p10 k / p10 k) (inject_Z z))
    by (field; pose proof (p10_pos k); intros Hz; lra).
  rewrite Qrhe_Z. reflexivity.
Qed.

Lemma round_at_ge (k z : Z) (q : Q) :
  (inject_Z z * p10 k <= q)%Q -> (inject_Z z * p10 k <= round_at k q)%Q.
Proof.
  intros H. rewrite <- (round_at_exact k z). apply round_at_mono. assumption.
Qed.

Lemma round_at_le (k z : Z) (q : Q) :
  (q <= inject_Z z * p10 k)%Q -> (round_at k q <= inject_Z z * p10 k)%Q.
Proof.
  intros H. rewrite <- (round_at_exact k z). apply round_at_mono. assumption.
Qed.

(** *** Order of magnitude *)

Lemma inject_Z_pow10_bounds (a da : Z) :
  0 < a -> 10 ^ (da - 1) <= a < 10 ^ da -> 1 <= da ->
  (p10 (da - 1) <= inject_Z a /\ inject_Z a < p10 da)%Q.
Proof.
  intros Ha [Hlo Hhi] Hd.
  rewrite !p10_Z by lia. rewrite <- Zle_Qle, <- Zlt_Qlt. lia.
Qed.

Lemma magnitude_unique (q : Q) (m1 m2 : Z) :
  (p10 (m1 - 1) <= q)%Q -> (q < p10 m1)%Q ->
  (p10 (m2 - 1) <= q)%Q -> (q < p10 m2)%Q -> m1 = m2.
Proof.
  intros L1 H1 L2 H2.
  assert (m1 - 1 < m2) by (apply p10_lt_inv; lra).
  assert (m2 - 1 < m1) by (apply p10_lt_inv; lra).
  lia.
Qed.

Lemma Qabs_num_den (q : Q) :
  (Qabs q == inject_Z (Z.abs (Qnum q)) / inject_Z (Z.pos (Qden q)))%Q.
Proof.
  destruct q as [n d]. unfold Qabs. cbn [Qnum Qden]. apply Qmake_Qdiv.
Qed.

Lemma magnitude_spec (q : Q) :
  ~ (q == 0)%Q ->
  (p10 (magnitude q - 1) <= Qabs q /\ Qabs q < p10 (magnitude q))%Q.
Proof.
  intros Hnz. rewrite Qabs_num_den. unfold magnitude.
  set (a := Z.abs (Qnum q)). set (d := Z.pos (Qden q)).
  assert (Ha : 0 < a).
  { subst a. destruct q as [n dd]. cbn [Qnum] in *.
    assert (n <> 0); [|lia]. intros ->. apply Hnz. reflexivity. }
  assert (Hd : 0 < d) by (subst d; lia).
  pose proof (digits_spec a Ha) as Sa. pose proof (digits_pos a) as Pa.
  pose proof (digits_spec d Hd) as Sd. pose proof (digits_pos d) as Pd.
  destruct (inject_Z_pow10_bounds a _ Ha Sa Pa) as [La Ua].
  destruct (inject_Z_pow10_bounds d _ Hd Sd Pd) as [Ld Ud].
  set (da := digits a) in *. set (dd := digits d) in *.
  set (m0 := da - dd).
  set (A := inject_Z a) in *. set (D := inject_Z d) in *.
  assert (HD : (0 < D)%Q) by (pose proof (p10_pos (dd - 1)); lra).
  assert (EX : (p10 da == p10 m0 * p10 dd)%Q)
    by (rewrite <- p10_add; subst m0; replace (da - dd + dd) with da by lia; reflexivity).
  assert (EY : (p10 dd == 10 * p10 (dd - 1))%Q)
    by (rewrite <- p10_succ; replace (dd - 1 + 1) with dd by lia; reflexivity).
  assert (EZ : (p10 da == 10 * p10 (da - 1))%Q)
    by (rewrite <- p10_succ; replace (da - 1 + 1) with da by lia; reflexivity).
  pose proof (p10_pos m0) as PX. pose proof (p10_pos (dd - 1)) as PY.
  set (X := p10 m0) in *. set (Y := p10 (dd - 1)) in *.
  assert (Htest : (if 0 <=? m0 then d * 10 ^ m0 <=? a else d <=? a * 10 ^ (- m0)) = true
                  <-> (D * X <= A)%Q).
  { destruct (Z.leb_spec 0 m0) as [Hm|Hm].
    - rewrite Z.leb_le. subst X D A. rewrite p10_Z by assumption.
      rewrite <- inject_Z_mult, <- Zle_Qle. reflexivity.
    - rewrite Z.leb_le.
      assert (EN : (p10 (- m0) * X == 1)%Q).
      { subst X. rewrite <- p10_add. replace (- m0 + m0) with 0 by lia. reflexivity. }
      pose proof (p10_pos (- m0)) as PN.
      assert (EA : (inject_Z (a * 10 ^ (- m0)) == A * p10 (- m0))%Q)
        by (rewrite inject_Z_mult, p10_Z by lia; reflexivity).
      rewrite Zle_Qle, EA. fold D.
      split; intros H.
      + assert (H1 : (D * X <= A * p10 (- m0) * X)%Q)
          by (apply Qmult_le_r; assumption).
        assert (H2 : (A * p10 (- m0) * X == A)%Q)
          by (rewrite <- Qmult_assoc, EN; ring).
        lra.
      + assert (H1 : (D * X * p10 (- m0) <= A * p10 (- m0))%Q)
          by (apply Qmult_le_r; assumption).
        assert (H2 : (D * X * p10 (- m0) == D)%Q)
          by (rewrite <- Qmult_assoc, (Qmult_comm X), EN; ring).
        lra. }
  destruct (if 0 <=? m0 then d * 10 ^ m0 <=? a else d <=? a * 10 ^ (- m0)) eqn:T.
  - assert (HT : (D * X <= A)%Q) by (apply Htest; reflexivity).
    replace (m0 + 1 - 1) with m0 by lia. rewrite p10_succ. fold X.
    clearbody A D X Y. split.
    + apply Qle_shift_div_l; [assumption|]. lra.
    + apply Qlt_shift_div_r; [assumption|].
      assert (E1 : (p10 da == 10 * X * Y)%Q) by (rewrite EX, EY; ring).
      assert (10 * X * Y <= 10 * X * D)%Q by nra. lra.
  - assert (HT : ~ (D * X <= A)%Q) by (intros H; apply Htest in H; discriminate).
    rewrite p10_pred. fold X. clearbody A D X Y. split.
    + apply Qle_shift_div_l; [assumption|].
      assert (E1 : (p10 da == 10 * X * Y)%Q) by (rewrite EX, EY; ring).
      assert (E2 : (p10 dd == 10 * Y)%Q) by exact EY.
      assert (X * D <= 10 * X * Y)%Q by nra.
      assert (X / 10 * D == (1 # 10) * (X * D))%Q by field.
      lra.
    + apply Qlt_shift_div_r; [assumption|]. lra.
Qed.

Lemma magnitude_pos_eq (q : Q) (m : Z) :
  (p10 (m - 1) <= q)%Q -> (q < p10 m)%Q -> magnitude q = m.
Proof.
  intros Hlo Hhi.
  assert (Hq : (0 < q)%Q) by (pose proof (p10_pos (m - 1)); lra).
  assert (Hnz : ~ (q == 0)%Q) by (intros E; lra).
  destruct (magnitude_spec q Hnz) as [Mlo Mhi].
  rewrite Qabs_pos in Mlo, Mhi by lra.
  eapply magnitude_unique; eauto.
Qed.

Lemma magnitude_opp (q : Q) : magnitude (- q) = magnitude q.
Proof.
  unfold magnitude. destruct q as [n d]. cbn [Qnum Qden Qopp].
  rewrite Z.abs_opp. reflexivity.
Qed.

Lemma magnitude_comp (q1 q2 : Q) :
  ~ (q1 == 0)%Q -> (q1 == q2)%Q -> magnitude q1 = magnitude q2.
Proof.
  intros Hnz E.
  assert (Hnz2 : ~ (q2 == 0)%Q) by (rewrite <- E; assumption).
  destruct (magnitude_spec q1 Hnz) as [L1 H1].
  destruct (magnitude_spec q2 Hnz2) as [L2 H2].
  assert (EA : (Qabs q1 == Qabs q2)%Q) by (rewrite E; reflexivity).
  apply (magnitude_unique (Qabs q2)); lra.
Qed.

(** *** Rounding to the context precision *)

Lemma round_prec_0 (q : Q) : (q == 0)%Q -> (round_prec q == 0)%Q.
Proof.
  intros E. unfold round_prec.
  rewrite (proj2 (Qeq_bool_iff q 0) E). reflexivity.
Qed.

Lemma round_prec_nz (q : Q) :
  ~ (q == 0)%Q -> round_prec q = round_at (magnitude q - prec) q.
Proof.
  intros Hnz. unfold round_prec.
  destruct (Qeq_bool q 0) eqn:E; [|reflexivity].
  apply Qeq_bool_eq in E. contradiction.
Qed.

Lemma round_prec_comp (q1 q2 : Q) :
  (q1 == q2)%Q -> (round_prec q1 == round_prec q2)%Q.
Proof.
  intros E. destruct (Qeq_dec q1 0) as [Z1|NZ1].
  - rewrite !round_prec_0; [reflexivity| |assumption]. rewrite <- E. assumption.
  - assert (NZ2 : ~ (q2 == 0)%Q) by (rewrite <- E; assumption).
    rewrite !round_prec_nz by assumption.
    rewrite (magnitude_comp q1 q2 NZ1 E). apply round_at_comp. assumption.
Qed.

Lemma round_prec_opp (q : Q) : (round_prec (- q) == - round_prec q)%Q.
Proof.
  destruct (Qeq_dec q 0) as [Z1|NZ1].
  - rewrite !round_prec_0; [reflexivity|assumption|]. rewrite Z1. reflexivity.
  - assert (NZ2 : ~ (- q == 0)%Q) by (intros E; apply NZ1; lra).
    rewrite !round_prec_nz by assumption.
    rewrite magnitude_opp. apply round_at_opp.
Qed.

Lemma round_prec_pos_bounds (q : Q) (m : Z) :
  (p10 (m - 1) <= q)%Q -> (q < p10 m)%Q ->
  (p10 (m - 1) <= round_prec q /\ round_prec q <= p10 m)%Q.
Proof.
  intros Hlo Hhi.
  assert (Hq : (0 < q)%Q) by (pose proof (p10_pos (m - 1)); lra).
  rewrite round_prec_nz by (intros E; lra).
  rewrite (magnitude_pos_eq q m Hlo Hhi).
  assert (E1 : (p10 (m - 1) == inject_Z (10 ^ (prec - 1)) * p10 (m - prec))%Q).
  { rewrite <- p10_Z by (unfold prec; lia). rewrite <- p10_add.
    replace (prec - 1 + (m - prec)) with (m - 1) by lia. reflexivity. }
  assert (E2 : (p10 m == inject_Z (10 ^ prec) * p10 (m - prec))%Q).
  { rewrite <- p10_Z by (unfold prec; lia). rewrite <- p10_add.
    replace (prec + (m - prec)) with m by lia. reflexivity. }
  split.
  - rewrite E1. apply round_at_ge. rewrite <- E1. assumption.
  - rewrite E2. apply round_at_le. rewrite <- E2. lra.
Qed.

Lemma round_prec_nonneg (q : Q) : (0 <= q)%Q -> (0 <= round_prec q)%Q.
Proof.
  intros Hq. destruct (Qeq_dec q 0) as [Z1|NZ1].
  - rewrite round_prec_0 by assumption. lra.
  - destruct (magnitude_spec q NZ1) as [L H].
    rewrite Qabs_pos in L, H by assumption.
    destruct (round_prec_pos_bounds q _ L H) as [B _].
    pose proof (p10_pos (magnitude q - 1)). lra.
Qed.

Lemma round_prec_mono_pos (q1 q2 : Q) :
  (0 < q1)%Q -> (q1 <= q2)%Q -> (round_prec q1 <= round_prec q2)%Q.
Proof.
  intros Hpos Hle.
  assert (NZ1 : ~ (q1 == 0)%Q) by (intros E; lra).
  assert (NZ2 : ~ (q2 == 0)%Q) by (intros E; lra).
  destruct (magnitude_spec q1 NZ1) as [L1 H1].
  destruct (magnitude_spec q2 NZ2) as [L2 H2].
  rewrite Qabs_pos in L1, H1, L2, H2 by lra.
  assert (Hm : magnitude q1 - 1 < magnitude q2) by (apply p10_lt_inv; lra).
  destruct (Z.eq_dec (magnitude q1) (magnitude q2)) as [E|NE].
  - rewrite !round_prec_nz by assumption. rewrite E. apply round_at_mono. assumption.
  - destruct (round_prec_pos_bounds q1 _ L1 H1) as [_ B1].
    destruct (round_prec_pos_bounds q2 _ L2 H2) as [B2 _].
    assert (p10 (magnitude q1) <= p10 (magnitude q2 - 1))%Q by (apply p10_le; lia).
    lra.
Qed.

Lemma round_prec_mono (q1 q2 : Q) :
  (q1 <= q2)%Q -> (round_prec q1 <= round_prec q2)%Q.
Proof.
  intros Hle.
  destruct (Qlt_le_dec 0 q1) as [P1|N1].
  - apply round_prec_mono_pos; assumption.
  - destruct (Qlt_le_dec q2 0) as [N2|P2].
    + assert (H : (round_prec (- q2) <= round_prec (- q1))%Q)
        by (apply round_prec_mono_pos; lra).
      rewrite !round_prec_opp in H. lra.
    + assert (H1 : (0 <= round_prec (- q1))%Q) by (apply round_prec_nonneg; lra).
      rewrite round_prec_opp in H1.
      pose proof (round_prec_nonneg q2 P2). lra.
Qed.

(** A value that fits the precision is not changed. *)
Lemma round_prec_exact (z e : Z) :
  Z.abs z < 10 ^ prec -> (round_prec (inject_Z z * p10 e) == inject_Z z * p10 e)%Q.
Proof.
  intros Hz.
  assert (Hpos : forall c, 0 < c -> c < 10 ^ prec ->
            (round_prec (inject_Z c * p10 e) == inject_Z c * p10 e)%Q).
  { intros c Hc Hlt.
    pose proof (digits_spec c Hc) as Sc. pose proof (digits_pos c) as Pc.
    destruct (inject_Z_pow10_bounds c _ Hc Sc Pc) as [Lc Uc].
    assert (Hd : digits c <= prec)
      by (apply digits_le_iff; [lia | unfold prec; lia | assumption]).
    pose proof (p10_pos e) as Pe.
    assert (Lo : (p10 (digits c + e - 1) <= inject_Z c * p10 e)%Q).
    { replace (digits c + e - 1) with (digits c - 1 + e) by lia.
      rewrite p10_add. apply Qmult_le_r; assumption. }
    assert (Hi : (inject_Z c * p10 e < p10 (digits c + e))%Q).
    { rewrite p10_add. apply Qmult_lt_r; assumption. }
    assert (Hq : (0 < inject_Z c * p10 e)%Q).
    { pose proof (p10_pos (digits c + e - 1)). lra. }
    rewrite round_prec_nz by (intros E; lra).
    rewrite (magnitude_pos_eq _ _ Lo Hi).
    assert (E : (inject_Z c * p10 e
                 == inject_Z (c * 10 ^ (prec - digits c)) * p10 (digits c + e - prec))%Q).
    { rewrite inject_Z_mult, <- p10_Z by lia.
      rewrite <- Qmult_assoc, <- p10_add.
      replace (prec - digits c + (digits c + e - prec)) with e by lia. reflexivity. }
    rewrite (round_at_comp _ _ _ E), round_at_exact. symmetry. exact E. }
  destruct (Z.lt_trichotomy z 0) as [Hn|[->|Hp]].
  - assert (E : (inject_Z z * p10 e == - (inject_Z (- z) * p10 e))%Q)
      by (rewrite inject_Z_opp; ring).
    rewrite (round_prec_comp _ _ E), round_prec_opp, Hpos by lia.
    symmetry. exact E.
  - assert (E : (inject_Z 0 * p10 e == 0)%Q) by ring.
    rewrite (round_prec_0 _ E). symmetry. exact E.
  - apply Hpos; lia.
Qed.

Lemma round_at_proper (k : Z) : Proper (Qeq ==> Qeq) (round_at k).
Proof. intros q1 q2 E. apply round_at_comp. assumption. Qed.

Lemma round_prec_proper : Proper (Qeq ==> Qeq) round_prec.
Proof. intros q1 q2 E. apply round_prec_comp. assumption. Qed.

#[global] Existing Instance round_at_proper.
#[global] Existing Instance round_prec_proper.

(** *** Integer rounding, through its rational counterpart *)

Lemma rhe_nonneg (c m : Z) : 0 <= c -> 0 < m -> 0 <= round_half_even c m.
Proof.
  intros Hc Hm. unfold round_half_even.
  assert (0 <= c / m) by (apply Z.div_pos; lia).
  destruct (2 * (c mod m) ?= m); [destruct (Z.even _)| |]; lia.
Qed.

Lemma rhe_le (c m z : Z) : 0 < m -> c <= z * m -> round_half_even c m <= z.
Proof.
  intros Hm H. rewrite <- (Qrhe_div c m Hm), <- (Qrhe_Z z).
  apply Qrhe_mono. apply Qle_shift_div_r.
  - rewrite (Zlt_Qlt 0 m) in Hm. exact Hm.
  - rewrite <- inject_Z_mult, <- Zle_Qle. assumption.
Qed.

Lemma rhe_ge (c m z : Z) : 0 < m -> z * m <= c -> z <= round_half_even c m.
Proof.
  intros Hm H. rewrite <- (Qrhe_div c m Hm), <- (Qrhe_Z z) at 1.
  apply Qrhe_mono. apply Qle_shift_div_l.
  - rewrite (Zlt_Qlt 0 m) in Hm. exact Hm.
  - rewrite <- inject_Z_mult, <- Zle_Qle. assumption.
Qed.

(** *** The value of a decimal *)

Lemma value_mk (s : bool) (c : N) (e : Z) :
  (value (mkDecimal s c e)
   == (if s then - (inject_Z (Z.of_N c) * p10 e) else inject_Z (Z.of_N c) * p10 e))%Q.
Proof.
  unfold value, signed. cbn [sign coeff expo]. destruct s.
  - rewrite inject_Z_opp. ring.
  - reflexivity.
Qed.

Lemma value_signed (sg : bool) (z e : Z) :
  (value (mkDecimal sg (Z.abs_N z) e) == inject_Z (if sg then - Z.abs z else Z.abs z) * p10 e)%Q.
Proof.
  unfold value, signed. cbn [sign coeff expo]. rewrite N2Z.inj_abs_N. reflexivity.
Qed.

Lemma value_of_signed (sg : bool) (z e : Z) :
  (z <> 0 -> sg = (z <? 0)) ->
  (value (mkDecimal sg (Z.abs_N z) e) == inject_Z z * p10 e)%Q.
Proof.
  intros Hs. rewrite value_signed.
  destruct (Z.eq_dec z 0) as [->|Hz].
  - destruct sg; reflexivity.
  - rewrite (Hs Hz). destruct (Z.ltb_spec z 0).
    + replace (- Z.abs z) with z by lia. reflexivity.
    + replace (Z.abs z) with z by lia. reflexivity.
Qed.

Lemma fix_sign (s : bool) (c : N) (e : Z) :
  _fix (mkDecimal s c e)
  = mkDecimal s (coeff (_fix (mkDecimal false c e))) (expo (_fix (mkDecimal false c e))).
Proof.
  unfold _fix. cbn [sign coeff expo].
  destruct (digits (Z.of_N c) <=? prec); [reflexivity|].
  destruct (prec <? digits _); reflexivity.
Qed.

Lemma pos_value_bounds (c e : Z) :
  0 < c ->
  (p10 (digits c + e - 1) <= inject_Z c * p10 e
   /\ inject_Z c * p10 e < p10 (digits c + e))%Q.
Proof.
  intros Hc.
  pose proof (digits_spec c Hc) as Sc. pose proof (digits_pos c) as Pc.
  destruct (inject_Z_pow10_bounds c _ Hc Sc Pc) as [Lc Uc].
  pose proof (p10_pos e) as Pe. split.
  - replace (digits c + e - 1) with (digits c - 1 + e) by lia.
    rewrite p10_add. apply Qmult_le_r; assumption.
  - rewrite p10_add. apply Qmult_lt_r; assumption.
Qed.

Lemma value_fix_pos (c : N) (e : Z) :
  (value (_fix (mkDecimal false c e)) == round_prec (value (mkDecimal false c e)))%Q.
Proof.
  rewrite (value_mk false c e).
  unfold _fix. cbn [sign coeff expo]. set (C := Z.of_N c).
  assert (HC : 0 <= C) by (subst C; lia).
  destruct (Z.leb_spec (digits C) prec) as [Hd|Hd].
  - rewrite value_mk. fold C. symmetry. apply round_prec_exact.
    destruct (Z.eq_dec C 0) as [->|Hnz]; [reflexivity|].
    rewrite Z.abs_eq by lia. apply digits_le_iff; [lia | unfold prec; lia | assumption].
  - assert (Hpos : 0 < C).
    { destruct (Z.eq_dec C 0) as [E|?]; [|lia]. rewrite E in Hd. unfold prec in Hd.
      rewrite digits_0 in Hd. lia. }
    set (k := digits C - prec). assert (Hk : 0 < k) by (subst k; lia).
    set (c' := round_half_even C (10 ^ k)).
    assert (Hm : 0 < 10 ^ k) by (apply pow10_pos; lia).
    assert (Hc'0 : 0 <= c') by (apply rhe_nonneg; lia).
    pose proof (digits_spec C Hpos) as [SLo SHi].
    assert (Hc'hi : c' <= 10 ^ prec).
    { apply rhe_le; [assumption|]. rewrite <- Z.pow_add_r by (unfold prec; lia).
      replace (prec + k) with (digits C) by (subst k; lia). lia. }
    assert (Hc'lo : 10 ^ (prec - 1) <= c').
    { apply rhe_ge; [assumption|]. rewrite <- Z.pow_add_r by (unfold prec; lia).
      replace (prec - 1 + k) with (digits C - 1) by (subst k; lia). lia. }
    destruct (pos_value_bounds C e Hpos) as [Lo Hi].
    assert (Hq : (0 < inject_Z C * p10 e)%Q)
      by (pose proof (p10_pos (digits C + e - 1)); lra).
    rewrite round_prec_nz by (intros E; lra).
    rewrite (magnitude_pos_eq _ _ Lo Hi).
    replace (digits C + e - prec) with (e + k) by (subst k; lia).
    unfold round_at.
    assert (Eq : (inject_Z C * p10 e / p10 (e + k) == inject_Z C / inject_Z (10 ^ k))%Q).
    { rewrite p10_add, <- (p10_Z k) by lia.
      pose proof (p10_pos e). pose proof (p10_pos k).
      field. q_nonzero. }
    rewrite (Qrhe_comp _ _ Eq), Qrhe_div by assumption. fold c'.
    destruct (Z.ltb_spec prec (digits c')) as [Hcarry|Hno].
    + assert (Ec' : c' = 10 ^ prec).
      { assert (Hc'pos : 0 < c') by (pose proof (pow10_pos (prec - 1)); unfold prec in *; lia).
        pose proof (digits_spec c' Hc'pos) as [L _].
        assert (10 ^ prec <= 10 ^ (digits c' - 1)) by (apply Z.pow_le_mono_r; lia).
        lia. }
      rewrite value_mk. rewrite Ec'.
      rewrite Z2N.id by (apply Z.div_pos; [apply Z.pow_nonneg|]; lia).
      replace (10 ^ prec / 10) with (10 ^ (prec - 1)) by reflexivity.
      rewrite <- !p10_Z by (unfold prec; lia).
      rewrite <- !p10_add. replace (prec - 1 + (e + k + 1)) with (prec + (e + k)) by lia.
      reflexivity.
    + rewrite value_mk. rewrite Z2N.id by assumption. reflexivity.
Qed.

Lemma value_fix (d : Decimal) : (value (_fix d) == round_prec (value d))%Q.
Proof.
  destruct d as [s c e]. rewrite fix_sign.
  pose proof (value_fix_pos c e) as H. rewrite fix_sign in H.
  set (c' := coeff (_fix (mkDecimal false c e))) in *.
  set (e' := expo (_fix (mkDecimal false c e))) in *.
  rewrite !value_mk in H. rewrite !value_mk. destruct s.
  - rewrite round_prec_opp, H. reflexivity.
  - exact H.
Qed.

(** *** The operations compute the exact result, rounded *)

Lemma value_aligned (d : Decimal) (e : Z) :
  e <= expo d ->
  (inject_Z (signed d * 10 ^ (expo d - e)) * p10 e == value d)%Q.
Proof.
  intros He. unfold value. rewrite inject_Z_mult, <- p10_Z by lia.
  rewrite <- Qmult_assoc, <- p10_add.
  replace (expo d - e + e) with (expo d) by lia. reflexivity.
Qed.

Lemma value_add (a b : Decimal) :
  (value (add a b) == round_prec (value a + value b))%Q.
Proof.
  unfold add. rewrite value_fix. apply round_prec_comp.
  set (e := Z.min (expo a) (expo b)).
  rewrite value_of_signed.
  - rewrite inject_Z_plus, Qmult_plus_distr_l.
    rewrite !value_aligned by (subst e; lia). reflexivity.
  - intros Hz. apply Z.eqb_neq in Hz. rewrite Hz. reflexivity.
Qed.

Lemma value_copy_negate (d : Decimal) : (value (copy_negate d) == - value d)%Q.
Proof.
  destruct d as [s c e]. unfold copy_negate. cbn [sign coeff expo].
  rewrite !value_mk. destruct s; cbn [negb]; ring.
Qed.

Lemma value_sub (a b : Decimal) :
  (value (sub a b) == round_prec (value a - value b))%Q.
Proof.
  unfold sub. rewrite value_add, value_copy_negate. reflexivity.
Qed.

Lemma value_mul (a b : Decimal) :
  (value (mul a b) == round_prec (value a * value b))%Q.
Proof.
  unfold mul. rewrite value_fix. apply round_prec_comp.
  destruct a as [sa ca ea], b as [sb cb eb]. cbn [sign coeff expo].
  rewrite !value_mk, N2Z.inj_mul.
  destruct sa, sb; cbn [xorb]; rewrite inject_Z_mult, p10_add; ring.
Qed.

Lemma value_abs (d : Decimal) : (value (abs d) == round_prec (Qabs (value d)))%Q.
Proof.
  unfold abs. rewrite value_fix. apply round_prec_comp.
  destruct d as [s c e]. cbn [sign coeff expo].
  rewrite !value_mk.
  assert (Hnn : (0 <= inject_Z (Z.of_N c) * p10 e)%Q).
  { apply Qmult_le_0_compat; [|apply Qlt_le_weak, p10_pos].
    apply inject_Z_nonneg. lia. }
  destruct s.
  - rewrite Qabs_opp, Qabs_pos by assumption. reflexivity.
  - rewrite Qabs_pos by assumption. reflexivity.
Qed.

Lemma value_zero : (value zero == 0)%Q.
Proof. reflexivity. Qed.

Lemma value_one : (value one == 1)%Q.
Proof. reflexivity. Qed.

Lemma value_hundred : (value hundred == 100)%Q.
Proof. reflexivity. Qed.

Lemma value_two : (value two == 2)%Q.
Proof. reflexivity. Qed.

(** *** Comparison is the order of the values *)

Lemma cmp_value (a b : Decimal) : cmp a b = (value a ?= value b)%Q.
Proof.
  unfold cmp. set (e := Z.min (expo a) (expo b)).
  set (x := signed a * 10 ^ (expo a - e)). set (y := signed b * 10 ^ (expo b - e)).
  assert (Ea : (value a == inject_Z x * p10 e)%Q)
    by (subst x; rewrite value_aligned by (subst e; lia); reflexivity).
  assert (Eb : (value b == inject_Z y * p10 e)%Q)
    by (subst y; rewrite value_aligned by (subst e; lia); reflexivity).
  pose proof (p10_pos e) as Pe.
  symmetry. destruct (Z.compare_spec x y) as [H|H|H].
  - apply Qeq_alt. rewrite Ea, Eb, H. reflexivity.
  - apply Qlt_alt. rewrite Ea, Eb. apply Qmult_lt_r; [assumption|].
    rewrite <- Zlt_Qlt. assumption.
  - apply Qgt_alt. rewrite Ea, Eb. apply Qmult_lt_r; [assumption|].
    rewrite <- Zlt_Qlt. assumption.
Qed.

Lemma ltb_lt (a b : Decimal) : ltb a b = true <-> (value a < value b)%Q.
Proof.
  unfold ltb. rewrite cmp_value, Qlt_alt.
  destruct (value a ?= value b)%Q; split; congruence.
Qed.

Lemma leb_le (a b : Decimal) : leb a b = true <-> (value a <= value b)%Q.
Proof.
  unfold leb. rewrite cmp_value, Qle_alt.
  destruct (value a ?= value b)%Q; split; congruence.
Qed.

Lemma eqb_eq (a b : Decimal) : eqb a b = true <-> (value a == value b)%Q.
Proof.
  unfold eqb. rewrite cmp_value, Qeq_alt.
  destruct (value a ?= value b)%Q; split; congruence.
Qed.

Lemma geb_ge (a b : Decimal) : geb a b = true <-> (value b <= value a)%Q.
Proof. unfold geb. apply leb_le. Qed.

Lemma gtb_gt (a b : Decimal) : gtb a b = true <-> (value b < value a)%Q.
Proof. unfold gtb. apply ltb_lt. Qed.

Lemma ltb_false (a b : Decimal) : ltb a b = false <-> (value b <= value a)%Q.
Proof.
  rewrite <- not_true_iff_false, ltb_lt. split; intros H.
  - apply Qnot_lt_le. assumption.
  - apply Qle_not_lt. assumption.
Qed.

Lemma leb_false (a b : Decimal) : leb a b = false <-> (value b < value a)%Q.
Proof.
  rewrite <- not_true_iff_false, leb_le. split; intros H.
  - apply Qnot_le_lt. assumption.
  - apply Qlt_not_le. assumption.
Qed.

Lemma truthy_value (d : Decimal) : truthy d = true <-> ~ (value d == 0)%Q.
Proof.
  destruct d as [s c e]. unfold truthy. cbn [coeff]. rewrite value_mk.
  pose proof (p10_pos e) as Pe.
  rewrite negb_true_iff, N.eqb_neq. split.
  - intros Hc E.
    assert (Hp : (0 < inject_Z (Z.of_N c))%Q)
      by (apply inject_Z_pos; lia).
    assert (0 < inject_Z (Z.of_N c) * p10 e)%Q by (apply Qmult_lt_0_compat; assumption).
    destruct s; lra.
  - intros Hv ->. apply Hv. destruct s; cbn; ring.
Qed.

(** *** Division *)

(** The adjustment of an inexact quotient ([coeff += 1] when it ends in 0 or
    5) makes rounding the quotient's digits agree with rounding the exact
    quotient. *)
Lemma sticky_round (N D T : Z) :
  0 < D -> 0 < T -> 0 <= N -> N mod D <> 0 ->
  round_half_even (if (N / D) mod 5 =? 0 then N / D + 1 else N / D) (10 * T)
  = round_half_even N (D * (10 * T)).
Proof.
  intros HD HT HN Hr.
  pose proof (Z.div_mod N D ltac:(lia)) as EN.
  pose proof (Z.mod_pos_bound N D HD) as BR.
  set (q := N / D) in *. set (r := N mod D) in *.
  assert (Hq : 0 <= q) by (subst q; apply Z.div_pos; lia).
  pose proof (Z.div_mod q (10 * T) ltac:(lia)) as EQ.
  pose proof (Z.mod_pos_bound q (10 * T) ltac:(lia)) as BL.
  set (h := q / (10 * T)) in *. set (l := q mod (10 * T)) in *.
  assert (Hh : 0 <= h) by (subst h; apply Z.div_pos; lia).
  (* the exact quotient *)
  assert (P1 : 0 <= D * l) by (apply Z.mul_nonneg_nonneg; lia).
  assert (P2 : 0 <= D * (10 * T - 1 - l)) by (apply Z.mul_nonneg_nonneg; lia).
  assert (EDiv : N / (D * (10 * T)) = h).
  { symmetry. apply (Z.div_unique N (D * (10 * T)) h (D * l + r)); [lia|].
    rewrite EN, EQ. ring. }
  assert (EMod : N mod (D * (10 * T)) = D * l + r).
  { symmetry. apply (Z.mod_unique N (D * (10 * T)) h (D * l + r)); [lia|].
    rewrite EN, EQ. ring. }
  (* the adjusted quotient *)
  set (q' := if q mod 5 =? 0 then q + 1 else q).
  set (l' := if q mod 5 =? 0 then l + 1 else l).
  assert (Tl : T * h = T * h) by reflexivity.
  assert (Bl' : 0 <= l' < 10 * T /\ q' = 10 * T * h + l'
                /\ 2 * l' <> 10 * T
                /\ (2 * l' < 10 * T -> l + 1 <= 5 * T)
                /\ (10 * T < 2 * l' -> 5 * T <= l)).
  { subst q' l'. clear EDiv EMod EN P1 P2 Hr BR. clearbody h l q. clear r.
    assert (Em : (10 * T * h) mod 5 = 0).
    { replace (10 * T * h) with (2 * T * h * 5) by ring. apply Z.mod_mul. lia. }
    assert (Eq5 : q mod 5 = l mod 5).
    { rewrite EQ, Z.add_mod, Em by lia. cbn [Z.add]. apply Z.mod_mod. lia. }
    rewrite Eq5. clear Eq5 Em.
    pose proof (Z.div_mod l 5 ltac:(lia)) as E5.
    pose proof (Z.mod_pos_bound l 5 ltac:(lia)) as B5.
    destruct (Z.eqb_spec (l mod 5) 0) as [H5|H5]; repeat split; try lia. }
  destruct Bl' as (Bl' & Eq' & Hne & HLt & HGt).
  assert (EDiv' : q' / (10 * T) = h).
  { symmetry. apply (Z.div_unique q' (10 * T) h l'); lia. }
  assert (EMod' : q' mod (10 * T) = l').
  { symmetry. apply (Z.mod_unique q' (10 * T) h l'); lia. }
  unfold round_half_even. fold q'. rewrite EDiv, EMod, EDiv', EMod'.
  destruct (Z.compare_spec (2 * l') (10 * T)) as [C|C|C]; [lia| |].
  - specialize (HLt C).
    assert (0 <= D * (5 * T - l - 1)) by (apply Z.mul_nonneg_nonneg; lia).
    destruct (Z.compare_spec (2 * (D * l + r)) (D * (10 * T))); lia.
  - specialize (HGt C).
    assert (0 <= D * (l - 5 * T)) by (apply Z.mul_nonneg_nonneg; lia).
    destruct (Z.compare_spec (2 * (D * l + r)) (D * (10 * T))); lia.
Qed.

Lemma strip_zeros_value (fuel : nat) (c e ideal : Z) :
  0 <= c ->
  0 <= fst (strip_zeros fuel c e ideal)
  /\ (inject_Z (fst (strip_zeros fuel c e ideal)) * p10 (snd (strip_zeros fuel c e ideal))
      == inject_Z c * p10 e)%Q.
Proof.
  revert c e. induction fuel as [|f IH]; intros c e Hc; cbn [strip_zeros].
  - split; [assumption|reflexivity].
  - destruct ((e <? ideal) && (c mod 10 =? 0)) eqn:T.
    + apply andb_true_iff in T. destruct T as [_ T]. apply Z.eqb_eq in T.
      pose proof (Z.div_mod c 10 ltac:(lia)) as E.
      assert (Hc' : 0 <= c / 10) by (apply Z.div_pos; lia).
      destruct (IH (c / 10) (e + 1) Hc') as [I1 I2]. split; [assumption|].
      rewrite I2, p10_succ.
      assert (Ec : (inject_Z c == 10 * inject_Z (c / 10))%Q).
      { rewrite E at 1. rewrite T, Z.add_0_r, inject_Z_mult. reflexivity. }
      rewrite Ec. ring.
    + split; [assumption|reflexivity].
Qed.

Lemma div_num_den (ca cb : Z) :
  0 < ca -> 0 < cb ->
  let shift := digits cb - digits ca + prec + 1 in
  let num := if 0 <=? shift then ca * 10 ^ shift else ca in
  let den := if 0 <=? shift then cb else cb * 10 ^ (- shift) in
  0 < num /\ 0 < den /\ 10 ^ prec * den <= num
  /\ (inject_Z num / inject_Z den == inject_Z ca / inject_Z cb * p10 shift)%Q.
Proof.
  intros Ha Hb shift num den.
  pose proof (digits_spec ca Ha) as [La Ua]. pose proof (digits_pos ca) as Pa.
  pose proof (digits_spec cb Hb) as [Lb Ub]. pose proof (digits_pos cb) as Pb.
  assert (HQa : (0 < inject_Z ca)%Q) by (apply inject_Z_pos; lia).
  assert (HQb : (0 < inject_Z cb)%Q) by (apply inject_Z_pos; lia).
  subst num den. destruct (Z.leb_spec 0 shift) as [Hs|Hs].
  - assert (Hp : 0 < 10 ^ shift) by (apply pow10_pos; lia).
    repeat split; [nia|lia| |].
    + assert (E : 10 ^ prec * 10 ^ digits cb = 10 ^ (digits ca - 1) * 10 ^ shift).
      { rewrite <- !Z.pow_add_r by (unfold prec in *; lia). f_equal. subst shift. lia. }
      assert (10 ^ prec * cb <= 10 ^ prec * 10 ^ digits cb)
        by (apply Z.mul_le_mono_nonneg_l; [apply Z.pow_nonneg|]; lia).
      assert (10 ^ (digits ca - 1) * 10 ^ shift <= ca * 10 ^ shift)
        by (apply Z.mul_le_mono_nonneg_r; lia).
      lia.
    + rewrite inject_Z_mult, <- p10_Z by lia. field. q_nonzero.
  - assert (Hp : 0 < 10 ^ (- shift)) by (apply pow10_pos; lia).
    repeat split; [lia|nia| |].
    + assert (E : 10 ^ prec * (10 ^ digits cb * 10 ^ (- shift)) = 10 ^ (digits ca - 1)).
      { rewrite <- !Z.pow_add_r by (unfold prec in *; lia). f_equal. subst shift. lia. }
      assert (10 ^ prec * (cb * 10 ^ (- shift)) <= 10 ^ prec * (10 ^ digits cb * 10 ^ (- shift))).
      { apply Z.mul_le_mono_nonneg_l; [apply Z.pow_nonneg; lia|].
        apply Z.mul_le_mono_nonneg_r; lia. }
      lia.
    + rewrite inject_Z_mult, <- p10_Z by lia.
      assert (Ei : (p10 shift == / p10 (- shift))%Q)
        by (rewrite <- p10_opp; replace (- - shift) with shift by lia; reflexivity).
      rewrite Ei. pose proof (p10_pos (- shift)). field. q_nonzero.
Qed.

Lemma digits_sticky (q : Z) :
  10 ^ prec <= q -> digits (if q mod 5 =? 0 then q + 1 else q) = digits q.
Proof.
  intros Hq. assert (Hpos : 0 < q) by (pose proof (pow10_pos prec); unfold prec in *; lia).
  destruct (Z.eqb_spec (q mod 5) 0) as [H5|H5]; [|reflexivity].
  pose proof (digits_spec q Hpos) as [Lo Hi]. pose proof (digits_pos q) as Pd.
  apply digits_unique; [lia|]. split; [lia|].
  assert (E : 10 ^ digits q = 10 * 10 ^ (digits q - 1)).
  { rewrite <- Z.pow_succ_r by lia. f_equal. lia. }
  pose proof (Z.div_mod q 5 ltac:(lia)) as E5. lia.
Qed.

Lemma round_prec_sticky (N D e : Z) :
  0 < N -> 0 < D -> 10 ^ prec * D <= N -> N mod D <> 0 ->
  (round_prec (inject_Z (if (N / D) mod 5 =? 0 then N / D + 1 else N / D) * p10 e)
   == round_prec (inject_Z N / inject_Z D * p10 e))%Q.
Proof.
  intros HN HD Hbig Hr.
  set (q := N / D). set (q' := if q mod 5 =? 0 then q + 1 else q).
  assert (Hq : 10 ^ prec <= q) by (subst q; apply Z.div_le_lower_bound; lia).
  assert (Hqpos : 0 < q) by (pose proof (pow10_pos prec); unfold prec in *; lia).
  assert (Hq'pos : 0 < q') by (subst q'; destruct (q mod 5 =? 0); lia).
  assert (Ed : digits q' = digits q) by (apply digits_sticky; assumption).
  pose proof (digits_spec q Hqpos) as [Lo Hi].
  set (n := digits q) in *.
  assert (Hn : prec < n).
  { destruct (Z.le_gt_cases n prec) as [Hle|?]; [|assumption].
    assert (10 ^ n <= 10 ^ prec) by (apply Z.pow_le_mono_r; lia). lia. }
  assert (Hprec : prec = 28) by reflexivity.
  set (k := n - prec). assert (Hk : 1 <= k) by (subst k; lia).
  set (T := 10 ^ (k - 1)).
  assert (HT : 0 < T) by (subst T; apply pow10_pos; lia).
  assert (ET : 10 ^ k = 10 * T).
  { subst T. rewrite <- Z.pow_succ_r by lia. f_equal. lia. }
  pose proof (p10_pos e) as Pe. pose proof (p10_pos k) as Pk.
  assert (HQD : (0 < inject_Z D)%Q) by (apply inject_Z_pos; lia).
  (* the adjusted quotient *)
  destruct (pos_value_bounds q' e Hq'pos) as [YLo YHi]. rewrite Ed in YLo, YHi. fold n in YLo, YHi.
  (* the exact quotient *)
  pose proof (Z.div_mod N D ltac:(lia)) as EN. fold q in EN.
  pose proof (Z.mod_pos_bound N D HD) as BR.
  assert (XLo : (p10 (n + e - 1) <= inject_Z N / inject_Z D * p10 e)%Q).
  { replace (n + e - 1) with (n - 1 + e) by lia. rewrite p10_add.
    apply Qmult_le_r; [assumption|]. apply Qle_shift_div_l; [assumption|].
    rewrite p10_Z by lia. rewrite <- inject_Z_mult, <- Zle_Qle. nia. }
  assert (XHi : (inject_Z N / inject_Z D * p10 e < p10 (n + e))%Q).
  { rewrite p10_add. apply Qmult_lt_r; [assumption|]. apply Qlt_shift_div_r; [assumption|].
    rewrite p10_Z by lia. rewrite <- inject_Z_mult, <- Zlt_Qlt. nia. }
  assert (HY : (0 < inject_Z q' * p10 e)%Q) by (pose proof (p10_pos (n + e - 1)); lra).
  assert (HX : (0 < inject_Z N / inject_Z D * p10 e)%Q) by (pose proof (p10_pos (n + e - 1)); lra).
  rewrite !round_prec_nz by (intros E; lra).
  rewrite (magnitude_pos_eq _ _ YLo YHi), (magnitude_pos_eq _ _ XLo XHi).
  replace (n + e - prec) with (e + k) by (subst k; lia).
  unfold round_at.
  assert (EY : (inject_Z q' * p10 e / p10 (e + k) == inject_Z q' / inject_Z (10 * T))%Q).
  { rewrite <- ET, <- p10_Z, p10_add by lia. field. q_nonzero. }
  assert (EX : (inject_Z N / inject_Z D * p10 e / p10 (e + k)
                == inject_Z N / inject_Z (D * (10 * T)))%Q).
  { rewrite <- ET, inject_Z_mult, <- p10_Z, p10_add by lia. field. q_nonzero. }
  rewrite (Qrhe_comp _ _ EY), (Qrhe_comp _ _ EX), !Qrhe_div by lia.
  subst q' q. rewrite sticky_round by lia. reflexivity.
Qed.

Lemma value_div (a b : Decimal) :
  truthy b = true ->
  exists r, div a b = Ok r /\ (value r == round_prec (value a / value b))%Q.
Proof.
  intros Hb. destruct a as [sa ca ea], b as [sb cb eb].
  unfold truthy in Hb. cbn [coeff] in Hb. apply negb_true_iff, N.eqb_neq in Hb.
  unfold div. cbn [sign coeff expo].
  set (A := Z.of_N ca). set (B := Z.of_N cb).
  assert (HB : 0 < B) by (subst B; lia).
  assert (HQB : (0 < inject_Z B)%Q) by (apply inject_Z_pos; lia).
  pose proof (p10_pos ea) as Pea. pose proof (p10_pos eb) as Peb.
  destruct (Z.eqb_spec B 0) as [?|_]; [lia|].
  (* the exact quotient *)
  assert (EV : (value (mkDecimal sa ca ea) / value (mkDecimal sb cb eb)
                == (if xorb sa sb then -1 else 1)
                   * (inject_Z A / inject_Z B * p10 (ea - eb)))%Q).
  { rewrite !value_mk, p10_sub. fold A B.
    destruct sa, sb; cbn [xorb]; field; q_nonzero. }
  assert (EVs : forall X : Q,
            (X == inject_Z A / inject_Z B * p10 (ea - eb))%Q ->
            ((if xorb sa sb then - X else X)
             == value (mkDecimal sa ca ea) / value (mkDecimal sb cb eb))%Q).
  { intros X EX. rewrite EV. destruct (xorb sa sb); rewrite EX; ring. }
  destruct (Z.eqb_spec A 0) as [HA0|HA0].
  - eexists. split; [reflexivity|]. rewrite value_fix. apply round_prec_comp.
    rewrite value_mk. apply EVs. rewrite HA0. unfold Qdiv. ring.
  - assert (HA : 0 < A) by (subst A; lia).
    destruct (div_num_den A B HA HB) as (Hnum & Hden & Hbig & EQ).
    set (shift := digits B - digits A + prec + 1) in *.
    set (num := if 0 <=? shift then A * 10 ^ shift else A) in *.
    set (den := if 0 <=? shift then B else B * 10 ^ (- shift)) in *.
    assert (HQden : (0 < inject_Z den)%Q)
      by (apply inject_Z_pos; lia).
    assert (EE : (inject_Z num / inject_Z den * p10 (ea - eb - shift)
                  == inject_Z A / inject_Z B * p10 (ea - eb))%Q).
    { rewrite EQ, <- Qmult_assoc, <- p10_add.
      replace (shift + (ea - eb - shift)) with (ea - eb) by lia. reflexivity. }
    destruct (Z.eqb_spec (num mod den) 0) as [Hr|Hr].
    + destruct (strip_zeros (Z.to_nat shift) (num / den) (ea - eb - shift) (ea - eb))
        as [q' e'] eqn:ES.
      assert (Hq : 0 <= num / den) by (apply Z.div_pos; lia).
      pose proof (strip_zeros_value (Z.to_nat shift) (num / den)
                    (ea - eb - shift) (ea - eb) Hq) as [S1 S2].
      rewrite ES in S1, S2. cbn [fst snd] in S1, S2.
      eexists. split; [reflexivity|]. rewrite value_fix. apply round_prec_comp.
      rewrite value_mk, Z2N.id by assumption. apply EVs. rewrite S2, <- EE.
      apply Qmult_comp; [|reflexivity].
      pose proof (Z.div_mod num den ltac:(lia)) as EN. rewrite Hr, Z.add_0_r in EN.
      rewrite EN at 2. rewrite inject_Z_mult. field. q_nonzero.
    + eexists. split; [reflexivity|]. rewrite value_fix.
      set (q' := if (num / den) mod 5 =? 0 then num / den + 1 else num / den).
      assert (Hq' : 0 <= q').
      { assert (0 <= num / den) by (apply Z.div_pos; lia).
        subst q'. destruct (_ =? 0); lia. }
      rewrite value_mk, Z2N.id by assumption.
      pose proof (round_prec_sticky num den (ea - eb - shift) Hnum Hden Hbig Hr) as RS.
      fold q' in RS.
      rewrite <- (round_prec_comp _ _
                    (EVs (inject_Z num / inject_Z den * p10 (ea - eb - shift))%Q EE)).
      destruct (xorb sa sb).
      * rewrite !round_prec_opp, RS. reflexivity.
      * exact RS.
Qed.

Lemma div_ok (a b : Decimal) : truthy b = true -> exists r, div a b = Ok r.
Proof.
  intros Hb. destruct (value_div a b Hb) as (r & Hr & _). exists r. exact Hr.
Qed.

(** *** Quantize *)

Lemma fix_id (d : Decimal) : digits (Z.of_N (coeff d)) <= prec -> _fix d = d.
Proof.
  intros H. unfold _fix. destruct (Z.leb_spec (digits (Z.of_N (coeff d))) prec); [reflexivity|lia].
Qed.

Lemma value_rescale (d : Decimal) (e : Z) :
  (value (_rescale d e) == round_at e (value d))%Q /\ expo (_rescale d e) = e.
Proof.
  destruct d as [s c ed]. unfold _rescale. cbn [sign coeff expo].
  set (C := Z.of_N c). assert (HC : 0 <= C) by (subst C; lia).
  pose proof (p10_pos e) as Pe. pose proof (p10_pos ed) as Ped.
  assert (Hs : forall X Y : Q,
            (X == round_at e Y)%Q ->
            ((if s then - X else X) == round_at e (if s then - Y else Y))%Q).
  { intros X Y E. destruct s; [rewrite round_at_opp, E|rewrite E]; reflexivity. }
  destruct (Z.eqb_spec C 0) as [H0|H0].
  - split; [|reflexivity]. rewrite !value_mk. apply Hs. fold C. rewrite H0. cbn [Z.of_N].
    assert (E0 : (inject_Z 0 * p10 ed == inject_Z 0 * p10 e)%Q) by ring.
    rewrite (round_at_comp _ _ _ E0), round_at_exact. reflexivity.
  - destruct (Z.leb_spec e ed) as [Hle|Hgt].
    + split; [|reflexivity]. rewrite !value_mk. apply Hs. fold C.
      rewrite Z2N.id by (apply Z.mul_nonneg_nonneg; [lia|apply Z.pow_nonneg; lia]).
      assert (E : (inject_Z C * p10 ed == inject_Z (C * 10 ^ (ed - e)) * p10 e)%Q).
      { rewrite inject_Z_mult, <- p10_Z, <- Qmult_assoc, <- p10_add by lia.
        replace (ed - e + e) with ed by lia. reflexivity. }
      rewrite (round_at_comp _ _ _ E), round_at_exact. reflexivity.
    + split; [|reflexivity]. rewrite !value_mk. apply Hs. fold C.
      assert (Hm : 0 < 10 ^ (e - ed)) by (apply pow10_pos; lia).
      rewrite Z2N.id by (apply rhe_nonneg; lia).
      unfold round_at.
      assert (E : (inject_Z C * p10 ed / p10 e == inject_Z C / inject_Z (10 ^ (e - ed)))%Q).
      { rewrite <- p10_Z, p10_sub by lia. field. q_nonzero. }
      rewrite (Qrhe_comp _ _ E), Qrhe_div by assumption. reflexivity.
Qed.

Lemma value_quantize (d exp r : Decimal) :
  quantize d exp = Ok r ->
  (value r == round_at (expo exp) (value d))%Q /\ expo r = expo exp.
Proof.
  unfold quantize. intros H.
  destruct (Z.eqb_spec (Z.of_N (coeff d)) 0) as [H0|H0].
  - injection H as <-. rewrite fix_id by (apply Z.leb_le; reflexivity).
    split; [|reflexivity]. destruct d as [s c ed]. cbn [sign coeff expo] in *.
    assert (c = 0%N) as -> by lia. rewrite !value_mk. cbn [Z.of_N].
    assert (E0 : ((if s then - (inject_Z 0 * p10 ed) else inject_Z 0 * p10 ed)
                  == inject_Z 0 * p10 (expo exp))%Q) by (destruct s; ring).
    rewrite (round_at_comp _ _ _ E0), round_at_exact. destruct s; ring.
  - destruct (prec <? _); [discriminate|].
    destruct (Z.ltb_spec prec (digits (Z.of_N (coeff (_rescale d (expo exp))))));
      [discriminate|].
    injection H as <-. rewrite fix_id by assumption. apply value_rescale.
Qed.

Lemma rhe_small (c m : Z) : 0 <= c -> 0 < m -> c < m -> round_half_even c m <= 1.
Proof. intros Hc Hm Hlt. apply rhe_le; lia. Qed.

(** [quantize] returns when the value is small enough for the rounded
    coefficient to fit the precision. *)
Lemma quantize_ok (d exp : Decimal) :
  coeff d = 0%N \/ digits (Z.of_N (coeff d)) + expo d <= prec + expo exp - 1 ->
  exists r, quantize d exp = Ok r.
Proof.
  intros H. unfold quantize.
  destruct (Z.eqb_spec (Z.of_N (coeff d)) 0) as [H0|H0]; [eexists; reflexivity|].
  destruct H as [H|H]; [lia|].
  set (C := Z.of_N (coeff d)) in *. assert (HC : 0 < C) by (subst C; lia).
  pose proof (digits_spec C HC) as [Lo Hi]. pose proof (digits_pos C) as Pd.
  assert (Hprec : prec = 28) by reflexivity.
  destruct (Z.ltb_spec prec (expo d + digits C - 1 - expo exp + 1)); [lia|].
  assert (Hans : digits (Z.of_N (coeff (_rescale d (expo exp)))) <= prec).
  { unfold _rescale. fold C. destruct (Z.eqb_spec C 0); [lia|].
    destruct (Z.leb_spec (expo exp) (expo d)) as [Hle|Hgt]; cbn [coeff].
    - assert (Hp : 0 < 10 ^ (expo d - expo exp)) by (apply pow10_pos; lia).
      rewrite Z2N.id by nia.
      apply digits_le_iff; [nia|lia|].
      assert (10 ^ digits C * 10 ^ (expo d - expo exp) <= 10 ^ prec).
      { rewrite <- Z.pow_add_r by lia. apply Z.pow_le_mono_r; lia. }
      nia.
    - assert (Hm : 0 < 10 ^ (expo exp - expo d)) by (apply pow10_pos; lia).
      rewrite Z2N.id by (apply rhe_nonneg; lia).
      set (c' := round_half_even C (10 ^ (expo exp - expo d))).
      assert (Hc' : 0 <= c') by (apply rhe_nonneg; lia).
      destruct (Z.eq_dec c' 0) as [->|Hnz]; [rewrite digits_0; lia|].
      apply digits_le_iff; [lia|lia|].
      assert (Hb : c' <= 10 ^ (prec - 1)).
      { destruct (Z.le_gt_cases (expo exp - expo d) (digits C)) as [Hd|Hd].
        - apply Z.le_trans with (10 ^ (digits C - (expo exp - expo d))).
          + apply rhe_le; [assumption|]. rewrite <- Z.pow_add_r by lia.
            replace (digits C - (expo exp - expo d) + (expo exp - expo d)) with (digits C) by lia.
            lia.
          + apply Z.pow_le_mono_r; lia.
        - apply Z.le_trans with 1.
          + apply rhe_small; [lia|assumption|].
            apply Z.lt_le_trans with (10 ^ digits C); [assumption|].
            apply Z.pow_le_mono_r; lia.
          + pose proof (pow10_pos (prec - 1)). lia. }
      assert (10 ^ (prec - 1) < 10 ^ prec) by (apply Z.pow_lt_mono_r; lia).
      lia. }
  destruct (Z.ltb_spec prec (digits (Z.of_N (coeff (_rescale d (expo exp)))))); [lia|].
  eexists; reflexivity.
Qed.

(** *** Further facts used about the engine *)

Lemma round_prec_pos (q : Q) : (0 < q)%Q -> (0 < round_prec q)%Q.
Proof.
  intros Hq. assert (NZ : ~ (q == 0)%Q) by (intros E; lra).
  destruct (magnitude_spec q NZ) as [L H].
  rewrite Qabs_pos in L, H by lra.
  destruct (round_prec_pos_bounds q _ L H) as [B _].
  pose proof (p10_pos (magnitude q - 1)). lra.
Qed.

Lemma round_prec_1 : (round_prec 1 == 1)%Q.
Proof.
  assert (E : (1 == inject_Z 1 * p10 0)%Q) by reflexivity.
  rewrite E at 1. rewrite round_prec_exact by reflexivity. reflexivity.
Qed.

Lemma round_prec_ge_1 (q : Q) : (1 <= q)%Q -> (1 <= round_prec q)%Q.
Proof. intros H. rewrite <- round_prec_1. apply round_prec_mono. assumption. Qed.

Lemma round_prec_le_1 (q : Q) : (q <= 1)%Q -> (round_prec q <= 1)%Q.
Proof. intros H. rewrite <- round_prec_1. apply round_prec_mono. assumption. Qed.

Lemma add_comm (a b : Decimal) : add a b = add b a.
Proof.
  unfold add. rewrite (Z.min_comm (expo b) (expo a)).
  rewrite (Z.add_comm (signed b * _)), (andb_comm (sign b)). reflexivity.
Qed.

(** The magnitude of a difference does not depend on the order of its
    operands. *)
Lemma abs_sub_comm (a b : Decimal) : abs (sub a b) = abs (sub b a).
Proof.
  unfold abs, sub, add. rewrite (Z.min_comm (expo b)).
  assert (Es : forall d, signed (copy_negate d) = - signed d).
  { intros [s c e]. unfold signed, copy_negate. cbn [sign coeff expo]. destruct s; cbn [negb]; lia. }
  assert (Ee : forall d, expo (copy_negate d) = expo d) by (intros [s c e]; reflexivity).
  rewrite !Es, !Ee.
  set (e := Z.min (expo a) (expo b)).
  set (x := signed a * 10 ^ (expo a - e)). set (y := signed b * 10 ^ (expo b - e)).
  replace (y + - signed a * 10 ^ (expo a - e)) with (- (x + - y)) by (subst x y; ring).
  replace (- signed b * 10 ^ (expo b - e)) with (- y) by (subst y; ring).
  rewrite Zabs2N.inj_opp.
  generalize (Z.abs_N (x + - y)). intros n.
  rewrite (fix_sign (if x + - y =? 0 then _ else _)).
  rewrite (fix_sign (if - (x + - y) =? 0 then _ else _)).
  reflexivity.
Qed.

Lemma value_of_Z_pos (d : Decimal) :
  truthy d = true -> sign d = false -> (0 < value d)%Q.
Proof.
  destruct d as [s c e]. unfold truthy. cbn [sign coeff]. intros Hc ->.
  apply negb_true_iff, N.eqb_neq in Hc. rewrite value_mk.
  apply Qmult_lt_0_compat; [|apply p10_pos].
  apply inject_Z_pos. lia.
Qed.


(** *** Further facts on rounding and on division *)


(** Rounding to the context precision twice is rounding once. *)
Lemma round_prec_idem (q : Q) : (round_prec (round_prec q) == round_prec q)%Q.
Proof.
  assert (Hpos : forall q, (0 < q)%Q -> (round_prec (round_prec q) == round_prec q)%Q).
  { clear q. intros q Hq.
    assert (NZ : ~ (q == 0)%Q) by (intros E; lra).
    destruct (magnitude_spec q NZ) as [L H]. rewrite Qabs_pos in L, H by lra.
    rewrite (round_prec_nz q NZ). unfold round_at.
    set (k := (magnitude q - prec)%Z).
    set (n := Qround_half_even (q / p10 k)).
    pose proof (p10_pos k) as Pk.
    assert (Em : (p10 (magnitude q) == inject_Z (10 ^ prec) * p10 k)%Q).
    { rewrite <- p10_Z by (unfold prec; lia). rewrite <- p10_add.
      replace (prec + k)%Z with (magnitude q) by (unfold k; lia). reflexivity. }
    assert (Hn1 : (n <= 10 ^ prec)%Z).
    { rewrite <- (Qrhe_Z (10 ^ prec)). apply Qrhe_mono.
      apply Qle_shift_div_r; [exact Pk|]. lra. }
    assert (Hn0 : (0 <= n)%Z).
    { rewrite <- (Qrhe_Z 0). apply Qrhe_mono.
      apply Qle_shift_div_l; [exact Pk|]. change (inject_Z 0) with 0%Q. lra. }
    destruct (Z.eq_dec n (10 ^ prec)%Z) as [E|NE].
    - rewrite E.
      assert (E1 : (inject_Z (10 ^ prec) * p10 k == inject_Z 1 * p10 (prec + k)%Z)%Q).
      { rewrite p10_add, <- p10_Z by (unfold prec; lia).
        change (inject_Z 1) with 1%Q. ring. }
      rewrite E1. apply round_prec_exact. reflexivity.
    - apply round_prec_exact. lia. }
  destruct (Q_dec q 0) as [[Hlt|Hgt]|E].
  - assert (H := Hpos (- q)%Q ltac:(lra)).
    rewrite !round_prec_opp in H. lra.
  - apply Hpos. exact Hgt.
  - rewrite (round_prec_0 q E). apply round_prec_0. reflexivity.
Qed.

(** Rounding to an integer moves a number by at most one half. *)
Lemma Qrhe_upper (q : Q) : (inject_Z (Qround_half_even q) <= q + (1 # 2))%Q.
Proof.
  unfold Qround_half_even.
  pose proof (Qfloor_le q) as Fl. pose proof (Qlt_floor q) as Fh.
  rewrite inject_Z_plus in Fh. change (inject_Z 1) with 1%Q in Fh.
  destruct (Qcompare_spec (q - inject_Z (Qfloor q)) (1 # 2)) as [H|H|H].
  - destruct (Z.even (Qfloor q));
      [|rewrite inject_Z_plus; change (inject_Z 1) with 1%Q]; lra.
  - lra.
  - rewrite inject_Z_plus. change (inject_Z 1) with 1%Q. lra.
Qed.

Lemma round_at_upper (k : Z) (q : Q) : (round_at k q <= q + (1 # 2) * p10 k)%Q.
Proof.
  unfold round_at. pose proof (p10_pos k) as P.
  pose proof (Qrhe_upper (q / p10 k)) as U.
  assert (E : (q + (1 # 2) * p10 k == (q / p10 k + (1 # 2)) * p10 k)%Q)
    by (field; lra).
  rewrite E. apply Qmult_le_compat_r; lra.
Qed.

Lemma signed_nonneg (d : Decimal) : (0 <= value d)%Q -> (0 <= signed d)%Z.
Proof.
  unfold value. intros H. pose proof (p10_pos (expo d)) as P.
  destruct (Z.le_gt_cases 0 (signed d)) as [?|Hneg]; [assumption|exfalso].
  assert (Hs : (inject_Z (signed d) < 0)%Q)
    by (change 0%Q with (inject_Z 0); rewrite <- Zlt_Qlt; lia).
  assert (inject_Z (signed d) * p10 (expo d) < 0 * p10 (expo d))%Q
    by (apply Qmult_lt_compat_r; assumption).
  lra.
Qed.

Lemma signed_abs (d : Decimal) : Z.abs (signed d) = Z.of_N (coeff d).
Proof. unfold signed. destruct (sign d); lia. Qed.



(** A zero divisor: DivisionByZero, or InvalidOperation when the dividend
    is zero too. *)
Lemma div_raises (a b : Decimal) :
  truthy b = false ->
  Dec.div a b = Raise (if truthy a then DivisionByZero else InvalidOperation).
Proof.
  unfold truthy, Dec.div. intros H. apply negb_false_iff, N.eqb_eq in H.
  rewrite H. cbn [Z.of_N Z.eqb].
  destruct (N.eqb_spec (coeff a) 0) as [E|NE].
  - rewrite E. reflexivity.
  - cbn [negb]. destruct (Z.eqb_spec (Z.of_N (coeff a)) 0) as [E|_]; [lia|reflexivity].
Qed.

Lemma Qdiv_antitone (a t1 t2 : Q) :
  (0 <= a)%Q -> (0 < t1)%Q -> (t1 <= t2)%Q -> (a / t2 <= a / t1)%Q.
Proof.
  intros Ha H1 H12.
  assert (H2 : (0 < t2)%Q) by lra.
  apply Qle_shift_div_l; [exact H1|].
  assert (Hq : (0 <= a / t2)%Q) by (apply Qle_shift_div_l; lra).
  assert (E : (a / t2 * t2 == a)%Q) by (field; lra).
  assert (Hm : (a / t2 * t1 <= a / t2 * t2)%Q).
  { rewrite !(Qmult_comm (a / t2)). apply Qmult_le_compat_r; assumption. }
  lra.
Qed.

(** Rounding to cents succeeds on a non-negative decimal below 10^25. *)
Lemma quantize_cent_ok (d : Decimal) :
  (0 <= value d)%Q -> (value d < p10 25)%Q -> exists r, Dec.quantize d cent = Ok r.
Proof.
  intros H0 H1. apply quantize_ok.
  destruct d as [sd cd ed]. cbn [coeff expo] in *.
  destruct (N.eq_dec cd 0%N) as [E0|N0]; [left; assumption|right].
  rewrite value_mk in H0, H1.
  assert (HC : (0 < Z.of_N cd)%Z) by lia.
  destruct (pos_value_bounds (Z.of_N cd) ed HC) as [Lo Hi].
  assert (Hsd : sd = false).
  { destruct sd; [|reflexivity]. exfalso.
    pose proof (p10_pos (digits (Z.of_N cd) + ed - 1)). lra. }
  subst sd.
  assert (Hlt : (p10 (digits (Z.of_N cd) + ed - 1) < p10 25)%Q) by lra.
  apply p10_lt_inv in Hlt. change (expo cent) with (-2)%Z. unfold prec. lia.
Qed.

End DecFacts.

(** ** The arbitrage engine *)

Module EngineFacts.

Import Engine DecFacts.
Local Open Scope string_scope.

(** *** calculate_spread *)

Lemma spread_guard_comm (price1 price2 : Decimal) :
  negb (truthy price1) || negb (truthy price2)
  || Dec.leb price1 _zero || Dec.leb price2 _zero
  = negb (truthy price2) || negb (truthy price1)
    || Dec.leb price2 _zero || Dec.leb price1 _zero.
Proof.
  destruct (truthy price1), (truthy price2),
    (Dec.leb price1 _zero), (Dec.leb price2 _zero); reflexivity.
Qed.

Lemma calculate_spread_comm (self : ArbitrageEngine) (price1 price2 : Decimal) :
  calculate_spread self price1 price2 = calculate_spread self price2 price1.
Proof.
  unfold calculate_spread.
  rewrite (spread_guard_comm price1 price2), (add_comm price1 price2),
    (abs_sub_comm price1 price2).
  reflexivity.
Qed.

Lemma two_truthy : truthy two = true.
Proof. reflexivity. Qed.

(** The mean of two positive prices is positive. *)
Lemma mean_positive (price1 price2 mid : Decimal) :
  (0 < value price1)%Q -> (0 < value price2)%Q ->
  Dec.div (Dec.add price1 price2) two = Ok mid -> (0 < value mid)%Q.
Proof.
  intros H1 H2 Hd.
  destruct (value_div (Dec.add price1 price2) two two_truthy) as (r & Hr & Vr).
  rewrite Hd in Hr. injection Hr as <-.
  rewrite Vr. apply round_prec_pos.
  assert (Hs : (0 < value (Dec.add price1 price2))%Q)
    by (rewrite value_add; apply round_prec_pos; lra).
  rewrite value_two. apply Qlt_shift_div_l; lra.
Qed.

Lemma spread_guard_false (price1 price2 : Decimal) :
  negb (truthy price1) || negb (truthy price2)
  || Dec.leb price1 _zero || Dec.leb price2 _zero = false
  <-> (0 < value price1)%Q /\ (0 < value price2)%Q.
Proof.
  rewrite !orb_false_iff, !leb_false, !negb_false_iff, !truthy_value.
  unfold _zero. rewrite value_zero. split.
  - intros (((_ & _) & H1) & H2). split; assumption.
  - intros [H1 H2]. repeat split; try assumption; intros E; lra.
Qed.

(** [calculate_spread] always returns: the divisions it reaches have a
    non-zero divisor. *)
Lemma calculate_spread_returns (self : ArbitrageEngine) (price1 price2 : Decimal) :
  exists r, calculate_spread self price1 price2 = Ok r.
Proof.
  unfold calculate_spread.
  destruct (negb (truthy price1) || negb (truthy price2)
            || Dec.leb price1 _zero || Dec.leb price2 _zero) eqn:G;
    [eexists; reflexivity|].
  destruct (div_ok (Dec.add price1 price2) two two_truthy) as (mid & Hmid).
  rewrite Hmid. cbn [bind].
  destruct (Dec.eqb mid _zero) eqn:Z; [eexists; reflexivity|].
  assert (Hm : truthy mid = true).
  { apply truthy_value. intros E.
    assert (Dec.eqb mid _zero = true) by (apply eqb_eq; rewrite E; reflexivity).
    congruence. }
  destruct (div_ok (Dec.abs (Dec.sub price1 price2)) mid Hm) as (r & Hr).
  rewrite Hr. cbn [bind]. eexists; reflexivity.
Qed.

Lemma calculate_spread_same (self : ArbitrageEngine) (p : Decimal) :
  (0 < value p)%Q ->
  exists r, calculate_spread self p p = Ok r /\ (value r == 0)%Q.
Proof.
  intros Hp. unfold calculate_spread.
  rewrite (proj2 (spread_guard_false p p) (conj Hp Hp)).
  destruct (div_ok (Dec.add p p) two two_truthy) as (mid & Hmid).
  rewrite Hmid. cbn [bind].
  pose proof (mean_positive p p mid Hp Hp Hmid) as Hpos.
  assert (Z : Dec.eqb mid _zero = false).
  { apply not_true_iff_false. rewrite eqb_eq. unfold _zero. rewrite value_zero.
    intros E. lra. }
  rewrite Z.
  assert (Hm : truthy mid = true) by (apply truthy_value; intros E; lra).
  destruct (value_div (Dec.abs (Dec.sub p p)) mid Hm) as (r & Hr & Vr).
  rewrite Hr. cbn [bind]. eexists. split; [reflexivity|].
  assert (E0 : (value (Dec.abs (Dec.sub p p)) == 0)%Q).
  { rewrite value_abs, value_sub.
    assert (E : (value p - value p == 0)%Q) by ring.
    rewrite (round_prec_comp _ _ E), (round_prec_0 0) by reflexivity.
    apply round_prec_0. reflexivity. }
  assert (Er : (value r == 0)%Q).
  { rewrite Vr, E0. apply round_prec_0. unfold Qdiv. ring. }
  rewrite value_mul, Er. apply round_prec_0. ring.
Qed.

(** C9.  [calculate_spread(p, p)] is zero for every positive price [p];
    [calculate_spread] is symmetric in its two arguments; with a
    non-positive argument, or with a mean that is zero, it returns the zero
    spread; and it never divides by zero (it returns for all arguments). *)
Theorem calculate_spread_properties (self : ArbitrageEngine) :
  (forall p : Decimal,
      Dec.gtb p _zero = true ->
      exists r, calculate_spread self p p = Ok r /\ Dec.eqb r _zero = true)
  /\ (forall price1 price2 : Decimal,
         calculate_spread self price1 price2 = calculate_spread self price2 price1)
  /\ (forall price1 price2 : Decimal,
         Dec.leb price1 _zero = true \/ Dec.leb price2 _zero = true ->
         calculate_spread self price1 price2 = Ok _zero)
  /\ (forall price1 price2 mid : Decimal,
         Dec.div (Dec.add price1 price2) two = Ok mid ->
         Dec.eqb mid _zero = true ->
         calculate_spread self price1 price2 = Ok _zero)
  /\ (forall price1 price2 : Decimal,
         exists r, calculate_spread self price1 price2 = Ok r).
Proof.
  repeat split.
  - intros p Hp. apply gtb_gt in Hp. unfold _zero in Hp. rewrite value_zero in Hp.
    destruct (calculate_spread_same self p Hp) as (r & Hr & Vr).
    exists r. split; [assumption|]. apply eqb_eq. rewrite Vr. reflexivity.
  - apply calculate_spread_comm.
  - intros price1 price2 H. unfold calculate_spread.
    destruct H as [H|H]; rewrite H, ?orb_true_r; reflexivity.
  - intros price1 price2 mid Hmid Hz. unfold calculate_spread.
    destruct (negb (truthy price1) || negb (truthy price2)
              || Dec.leb price1 _zero || Dec.leb price2 _zero); [reflexivity|].
    rewrite Hmid. cbn [bind]. rewrite Hz. reflexivity.
  - apply calculate_spread_returns.
Qed.

Lemma calculate_spread_properties_witness :
  (exists r, calculate_spread Samples.engine_3pct (mkDecimal false 40 (-2)) (mkDecimal false 40 (-2)) = Ok r
             /\ Dec.eqb r _zero = true)
  /\ calculate_spread Samples.engine_3pct (mkDecimal true 40 (-2)) (mkDecimal false 55 (-2)) = Ok _zero.
Proof.
  split.
  - apply (proj1 (calculate_spread_properties Samples.engine_3pct)). reflexivity.
  - apply (proj1 (proj2 (proj2 (calculate_spread_properties Samples.engine_3pct)))).
    left. reflexivity.
Defined.

(** *** find_arbitrage *)

Lemma evaluate_scenario_none (self : ArbitrageEngine)
    (lim_price poly_price : option Decimal) (scenario_type lim_side poly_side : string) :
  (forall a b, lim_price = Some a -> poly_price = Some b -> (1 <= value a + value b)%Q) ->
  _evaluate_scenario self lim_price poly_price scenario_type lim_side poly_side = Ok None.
Proof.
  intros H. unfold _evaluate_scenario.
  destruct lim_price as [lim|]; [|reflexivity].
  destruct poly_price as [poly|]; [|reflexivity].
  destruct (negb (truthy lim) || negb (truthy poly)); [reflexivity|].
  assert (G : Dec.geb (Dec.add lim poly) _one = true).
  { apply geb_ge. unfold _one. rewrite value_one, value_add.
    apply round_prec_ge_1. apply H; reflexivity. }
  rewrite G. reflexivity.
Qed.

(** C1.  When, for both scenarios, the two leg prices (where both are
    quoted) sum to at least 1, [find_arbitrage] returns None; a sum of
    exactly 1 is included. *)
Theorem find_arbitrage_absent (self : ArbitrageEngine)
    (lim_prices poly_prices : gmap string (option Decimal)) :
  (forall a b : Decimal,
      dict_get lim_prices "yes_ask" = Some a ->
      dict_get poly_prices "no_ask" = Some b ->
      (1 <= value a + value b)%Q) ->
  (forall a b : Decimal,
      dict_get lim_prices "no_ask" = Some a ->
      dict_get poly_prices "yes_ask" = Some b ->
      (1 <= value a + value b)%Q) ->
  find_arbitrage self lim_prices poly_prices = Ok None.
Proof.
  intros H1 H2. unfold find_arbitrage.
  rewrite (evaluate_scenario_none _ _ _ _ _ _ H1). cbn [bind].
  rewrite (evaluate_scenario_none _ _ _ _ _ _ H2). reflexivity.
Qed.

(** Limitless asks 0.55 / 0.60 against Polymarket asks 0.40 / 0.45: the
    first scenario costs exactly 1.00 and the second 1.00. *)
Lemma find_arbitrage_absent_witness :
  find_arbitrage Samples.engine_3pct (Samples.quotes 55 60) (Samples.quotes 40 45)
  = Ok None.
Proof.
  apply find_arbitrage_absent.
  - intros a b Ha Hb. vm_compute in Ha, Hb.
    injection Ha as <-. injection Hb as <-. vm_compute. discriminate.
  - intros a b Ha Hb. vm_compute in Ha, Hb.
    injection Ha as <-. injection Hb as <-. vm_compute. discriminate.
Defined.

Lemma evaluate_scenario_some (self : ArbitrageEngine)
    (lim_price poly_price : option Decimal) (scenario_type lim_side poly_side : string)
    (opp : Opportunity) :
  _evaluate_scenario self lim_price poly_price scenario_type lim_side poly_side
  = Ok (Some opp) ->
  lim_price = Some (limitless_price opp)
  /\ poly_price = Some (polymarket_price opp)
  /\ truthy (limitless_price opp) = true
  /\ truthy (polymarket_price opp) = true
  /\ total_cost opp = Dec.add (limitless_price opp) (polymarket_price opp)
  /\ Dec.ltb (total_cost opp) _one = true
  /\ (exists q, Dec.div (Dec.sub _one (total_cost opp)) (total_cost opp) = Ok q
                /\ profit_pct opp = Dec.mul q _hundred)
  /\ calculate_spread self (limitless_price opp)
       (Dec.sub _one (polymarket_price opp)) = Ok (spread_pct opp)
  /\ Dec.geb (spread_pct opp) (min_spread_pct self) = true.
Proof.
  unfold _evaluate_scenario. intros H.
  destruct lim_price as [lim|]; [|discriminate].
  destruct poly_price as [poly|]; [|discriminate].
  destruct (negb (truthy lim) || negb (truthy poly)) eqn:T; [discriminate|].
  apply orb_false_iff in T. destruct T as [T1 T2].
  apply negb_false_iff in T1, T2.
  destruct (Dec.geb (Dec.add lim poly) _one) eqn:G; [discriminate|].
  destruct (Dec.div (Dec.sub _one (Dec.add lim poly)) (Dec.add lim poly)) as [q|e] eqn:D;
    [|discriminate].
  cbn [bind] in H.
  destruct (calculate_spread self lim (Dec.sub _one poly)) as [spread|e] eqn:S;
    [|discriminate].
  cbn [bind] in H.
  destruct (Dec.ltb spread (min_spread_pct self)) eqn:L; [discriminate|].
  injection H as <-. cbn [limitless_price polymarket_price total_cost profit_pct spread_pct].
  repeat split; try assumption; try reflexivity.
  - unfold Dec.geb in G. apply leb_false in G. apply ltb_lt. assumption.
  - exists q. split; [assumption|reflexivity].
  - apply geb_ge. apply ltb_false. assumption.
Qed.

(** C2.  Every opportunity [find_arbitrage] returns has a total cost that
    is the sum of its two leg prices and is below 1; its profit percentage
    is [(1 - total_cost) / total_cost * 100]; and its spread, computed
    between the Limitless price and [1 - Polymarket price], is at least the
    configured minimum.  The sums, quotients and products are those of the
    decimal context. *)
Theorem find_arbitrage_opportunity (self : ArbitrageEngine)
    (lim_prices poly_prices : gmap string (option Decimal)) (opp : Opportunity) :
  find_arbitrage self lim_prices poly_prices = Ok (Some opp) ->
  total_cost opp = Dec.add (limitless_price opp) (polymarket_price opp)
  /\ Dec.ltb (total_cost opp) _one = true
  /\ (value (total_cost opp) < 1)%Q
  /\ (exists q, Dec.div (Dec.sub _one (total_cost opp)) (total_cost opp) = Ok q
                /\ profit_pct opp = Dec.mul q _hundred)
  /\ calculate_spread self (limitless_price opp)
       (Dec.sub _one (polymarket_price opp)) = Ok (spread_pct opp)
  /\ Dec.geb (spread_pct opp) (min_spread_pct self) = true
  /\ (value (min_spread_pct self) <= value (spread_pct opp))%Q.
Proof.
  unfold find_arbitrage. intros H.
  destruct (_evaluate_scenario self (dict_get lim_prices "yes_ask")
              (dict_get poly_prices "no_ask") _ _ _) as [opp1|e] eqn:E1; [|discriminate].
  cbn [bind] in H.
  destruct (_evaluate_scenario self (dict_get lim_prices "no_ask")
              (dict_get poly_prices "yes_ask") _ _ _) as [opp2|e] eqn:E2; [|discriminate].
  cbn [bind] in H.
  assert (Hin : exists t s1 s2 l p,
             _evaluate_scenario self l p t s1 s2 = Ok (Some opp)).
  { destruct opp1 as [o1|], opp2 as [o2|]; cbv zeta in H; cbn [app] in H;
      try discriminate; injection H as H.
    all: unfold max_by_profit in H; cbn [fold_left] in H.
    - destruct (Dec.gtb (profit_pct o2) (profit_pct o1)); subst opp; eauto 10.
    - subst opp; eauto 10.
    - subst opp; eauto 10. }
  destruct Hin as (t & s1 & s2 & l & p & Hev).
  apply evaluate_scenario_some in Hev.
  destruct Hev as (_ & _ & _ & _ & Htotal & Hlt & Hprofit & Hspread & Hge).
  repeat apply conj; try assumption.
  - apply ltb_lt in Hlt. unfold _one in Hlt. rewrite value_one in Hlt. exact Hlt.
  - apply geb_ge. exact Hge.
Qed.

Lemma find_arbitrage_opportunity_witness :
  total_cost Samples.some_opportunity
  = Dec.add (limitless_price Samples.some_opportunity)
            (polymarket_price Samples.some_opportunity)
  /\ Dec.ltb (total_cost Samples.some_opportunity) _one = true.
Proof.
  pose proof (find_arbitrage_opportunity Samples.engine_3pct
                (Samples.quotes 40 70) (Samples.quotes 50 45)
                Samples.some_opportunity eq_refl) as H.
  split; [exact (proj1 H)|exact (proj1 (proj2 H))].
Defined.

(** *** calculate_bet_size *)

Lemma hundred_truthy : truthy _hundred = true.
Proof. reflexivity. Qed.

Lemma calculate_bet_size_value (self : ArbitrageEngine) (opportunity : Opportunity)
    (b : Decimal) :
  calculate_bet_size self opportunity = Ok b ->
  (value b == bet_size_value (value (max_bet self)) (value (slippage self)))%Q
  /\ expo b = (-2)%Z.
Proof.
  unfold calculate_bet_size. intros H.
  destruct (value_div (slippage self) _hundred hundred_truthy) as (q & Hq & Vq).
  rewrite Hq in H. cbn [bind] in H.
  destruct (value_div (Dec.mul (max_bet self) (Dec.sub _one q)) two two_truthy)
    as (h & Hh & Vh).
  rewrite Hh in H. cbn [bind] in H.
  apply value_quantize in H. destruct H as [Vb Eb]. split; [|exact Eb].
  rewrite Vb. unfold bet_size_value. change (expo cent) with (-2)%Z.
  apply round_at_comp. rewrite Vh. apply round_prec_comp.
  rewrite value_two, value_mul. apply Qdiv_comp; [|reflexivity].
  apply round_prec_comp. apply Qmult_comp; [reflexivity|].
  rewrite value_sub. apply round_prec_comp.
  unfold _one. rewrite value_one, Vq. unfold _hundred. rewrite value_hundred.
  reflexivity.
Qed.

Lemma bet_size_value_antitone (m s1 s2 : Q) :
  (0 <= m)%Q -> (s1 <= s2)%Q -> (bet_size_value m s2 <= bet_size_value m s1)%Q.
Proof.
  intros Hm Hs. unfold bet_size_value.
  apply round_at_mono, round_prec_mono.
  apply Qdiv_le_mono; [reflexivity|].
  apply round_prec_mono.
  assert (Hf : (round_prec (1 - round_prec (s2 / 100))
                <= round_prec (1 - round_prec (s1 / 100)))%Q).
  { apply round_prec_mono.
    assert (round_prec (s1 / 100) <= round_prec (s2 / 100))%Q
      by (apply round_prec_mono, Qdiv_le_mono; [reflexivity|assumption]).
    lra. }
  rewrite !(Qmult_comm m). apply Qmult_le_compat_r; assumption.
Qed.

Lemma round_prec_p10 (e : Z) (z : Z) :
  (Z.abs z < 10 ^ prec)%Z -> forall q, (q <= inject_Z z * p10 e)%Q ->
  (round_prec q <= inject_Z z * p10 e)%Q.
Proof.
  intros Hz q H. rewrite <- (round_prec_exact z e Hz). apply round_prec_mono. assumption.
Qed.

Lemma calculate_bet_size_returns (self : ArbitrageEngine) (opportunity : Opportunity) :
  (0 <= value (slippage self))%Q -> (value (slippage self) <= 100)%Q ->
  (0 <= value (max_bet self))%Q -> (value (max_bet self) <= p10 25)%Q ->
  exists b, calculate_bet_size self opportunity = Ok b.
Proof.
  intros Hs0 Hs1 Hm0 Hm1. unfold calculate_bet_size.
  destruct (value_div (slippage self) _hundred hundred_truthy) as (q & Hq & Vq).
  rewrite Hq. cbn [bind].
  destruct (value_div (Dec.mul (max_bet self) (Dec.sub _one q)) two two_truthy)
    as (h & Hh & Vh).
  rewrite Hh. cbn [bind].
  (* the slippage factor lies between 0 and 1 *)
  unfold _hundred in Vq. rewrite value_hundred in Vq.
  assert (Bq : (0 <= value q <= 1)%Q).
  { rewrite Vq. split.
    - apply round_prec_nonneg. apply Qle_shift_div_l; lra.
    - apply round_prec_le_1. apply Qle_shift_div_r; lra. }
  assert (Bf : (0 <= value (Dec.sub _one q) <= 1)%Q).
  { rewrite value_sub. unfold _one. rewrite value_one. split.
    - apply round_prec_nonneg. lra.
    - apply round_prec_le_1. lra. }
  pose proof (p10_pos 25) as P25.
  assert (Ba : (0 <= value (Dec.mul (max_bet self) (Dec.sub _one q)) <= p10 25)%Q).
  { rewrite value_mul. split.
    - apply round_prec_nonneg. apply Qmult_le_0_compat; lra.
    - assert (E : (p10 25 == inject_Z 1 * p10 25)%Q) by ring.
      rewrite E. apply round_prec_p10; [reflexivity|]. rewrite <- E.
      assert (value (max_bet self) * value (Dec.sub _one q)
              <= value (max_bet self) * 1)%Q
        by (rewrite !(Qmult_comm (value (max_bet self)));
            apply Qmult_le_compat_r; lra).
      lra. }
  assert (Bh : (0 <= value h <= inject_Z 5 * p10 24)%Q).
  { rewrite Vh, value_two. split.
    - apply round_prec_nonneg. apply Qle_shift_div_l; lra.
    - apply round_prec_p10; [reflexivity|]. apply Qle_shift_div_r; [reflexivity|].
      assert (E : (inject_Z 5 * p10 24 * 2 == p10 25)%Q)
        by (replace 25%Z with (24 + 1)%Z by reflexivity; rewrite p10_succ; ring).
      rewrite E. lra. }
  apply quantize_ok.
  destruct h as [sh ch eh]. cbn [coeff expo] in *.
  destruct (N.eq_dec ch 0%N) as [E0|N0]; [left; assumption|right].
  rewrite value_mk in Bh.
  assert (HC : (0 < Z.of_N ch)%Z) by lia.
  destruct (pos_value_bounds (Z.of_N ch) eh HC) as [Lo Hi].
  assert (Hsh : sh = false).
  { destruct sh; [|reflexivity]. exfalso.
    pose proof (p10_pos (digits (Z.of_N ch) + eh - 1)). lra. }
  subst sh.
  assert (Hlt : (p10 (digits (Z.of_N ch) + eh - 1) < p10 25)%Q).
  { assert (inject_Z 5 * p10 24 < p10 25)%Q
      by (replace 25%Z with (24 + 1)%Z by reflexivity; rewrite p10_succ;
          pose proof (p10_pos 24); change (inject_Z 5) with 5%Q; lra).
    lra. }
  apply p10_lt_inv in Hlt. change (expo cent) with (-2)%Z. unfold prec. lia.
Qed.

(** C7, as amended.  For a non-negative maximum bet, [calculate_bet_size]
    returns (for a slippage percentage between 0 and 100 and a maximum bet of
    at most 10^25); what it returns is the maximum bet reduced by the
    slippage percentage and halved, rounded to two decimals with ties to the
    even cent; it does not depend on the opportunity; and it does not
    increase when the slippage tolerance increases. *)
Theorem calculate_bet_size_properties (self : ArbitrageEngine)
    (slippage' : Decimal) (o o' : Opportunity) :
  Dec.leb _zero (max_bet self) = true ->
  Dec.leb (slippage self) slippage' = true ->
  let self' := {| min_spread_pct := min_spread_pct self;
                  max_bet := max_bet self;
                  slippage := slippage' |} in
  (Dec.leb _zero (slippage self) = true ->
   Dec.leb slippage' _hundred = true ->
   Dec.leb (max_bet self) (mkDecimal false 1 25) = true ->
   exists b b', calculate_bet_size self o = Ok b
                /\ calculate_bet_size self' o' = Ok b')
  /\ (forall b b' : Decimal,
         calculate_bet_size self o = Ok b ->
         calculate_bet_size self' o' = Ok b' ->
         (value b == bet_size_value (value (max_bet self)) (value (slippage self)))%Q
         /\ expo b = (-2)%Z
         /\ calculate_bet_size self o' = Ok b
         /\ Dec.leb b' b = true).
Proof.
  intros Hm Hs self'. apply leb_le in Hm, Hs.
  unfold _zero in Hm. rewrite value_zero in Hm. split.
  - intros H0 H100 Hmax. apply leb_le in H0, H100, Hmax.
    unfold _zero in H0. rewrite value_zero in H0.
    unfold _hundred in H100. rewrite value_hundred in H100.
    assert (E25 : (value (mkDecimal false 1 25) == p10 25)%Q)
      by (rewrite value_mk; cbn [Z.of_N]; ring).
    rewrite E25 in Hmax.
    destruct (calculate_bet_size_returns self o) as (b & Hb); try assumption; [lra|].
    destruct (calculate_bet_size_returns self' o') as (b' & Hb');
      cbn [slippage max_bet self']; try assumption; [lra|].
    exists b, b'. split; assumption.
  - intros b b' Hb Hb'.
    destruct (calculate_bet_size_value self o b Hb) as [Vb Eb].
    destruct (calculate_bet_size_value self' o' b' Hb') as [Vb' _].
    cbn [slippage max_bet self'] in Vb'.
    repeat split; try assumption.
    apply leb_le. rewrite Vb, Vb'. apply bet_size_value_antitone; assumption.
Qed.

Lemma calculate_bet_size_properties_witness :
  (exists b b',
      calculate_bet_size Samples.engine_3pct Samples.some_opportunity = Ok b
      /\ calculate_bet_size Samples.engine_slippage_15 Samples.some_opportunity = Ok b')
  /\ (forall b b' : Decimal,
         calculate_bet_size Samples.engine_3pct Samples.some_opportunity = Ok b ->
         calculate_bet_size Samples.engine_slippage_15 Samples.some_opportunity = Ok b' ->
         Dec.leb b' b = true).
Proof.
  pose proof (calculate_bet_size_properties Samples.engine_3pct
                (mkDecimal false 15 (-1))
                Samples.some_opportunity Samples.some_opportunity
                eq_refl eq_refl) as [H1 H2].
  split.
  - apply H1; reflexivity.
  - intros b b' Hb Hb'. apply (H2 b b' Hb Hb').
Defined.

(** C7, as stated, fails: with a maximum bet of 10.0 and a slippage
    tolerance of 1.5 the exact half stake is 4.925; round-half-up gives
    4.93, the code returns 4.92. *)
Lemma calculate_bet_size_not_half_up :
  calculate_bet_size Samples.engine_slippage_15 Samples.some_opportunity
  = Ok (mkDecimal false 492 (-2))
  /\ (spec_bet_size_half_up Samples.engine_slippage_15 == 493 # 100)%Q
  /\ ~ (value (mkDecimal false 492 (-2))
        == spec_bet_size_half_up Samples.engine_slippage_15)%Q.
Proof.
  split; [reflexivity|]. split; [reflexivity|].
  intros H. vm_compute in H. discriminate H.
Qed.


(** *** find_arbitrage: when it raises *)




(** *** find_arbitrage: which scenario is returned *)

Lemma evaluate_scenario_labels (self : ArbitrageEngine)
    (lim_price poly_price : option Decimal) (scenario_type lim_side poly_side : string)
    (opp : Opportunity) :
  _evaluate_scenario self lim_price poly_price scenario_type lim_side poly_side
  = Ok (Some opp) ->
  type opp = scenario_type /\ limitless_side opp = lim_side
  /\ polymarket_side opp = poly_side.
Proof.
  unfold _evaluate_scenario. intros H.
  destruct lim_price as [lim|]; [|discriminate].
  destruct poly_price as [poly|]; [|discriminate].
  destruct (negb (truthy lim) || negb (truthy poly)); [discriminate|].
  destruct (Dec.geb (Dec.add lim poly) _one); [discriminate|].
  destruct (Dec.div (Dec.sub _one (Dec.add lim poly)) (Dec.add lim poly));
    [|discriminate].
  cbn [bind] in H.
  destruct (calculate_spread self lim (Dec.sub _one poly)); [|discriminate].
  cbn [bind] in H.
  destruct (Dec.ltb _ (min_spread_pct self)); [discriminate|].
  injection H as <-. repeat split.
Qed.

(** The selection [find_arbitrage] makes between the outcomes of its two
    scenarios. *)
Lemma find_arbitrage_selects (self : ArbitrageEngine)
    (lim_prices poly_prices : gmap string (option Decimal))
    (o1 o2 : option Opportunity) :
  _evaluate_scenario self (dict_get lim_prices "yes_ask") (dict_get poly_prices "no_ask")
    "YES_LIMITLESS_NO_POLYMARKET" "YES" "NO" = Ok o1 ->
  _evaluate_scenario self (dict_get lim_prices "no_ask") (dict_get poly_prices "yes_ask")
    "NO_LIMITLESS_YES_POLYMARKET" "NO" "YES" = Ok o2 ->
  find_arbitrage self lim_prices poly_prices
  = Ok match o1, o2 with
       | Some a, Some b =>
           Some (if Dec.gtb (profit_pct b) (profit_pct a) then b else a)
       | Some a, None => Some a
       | None, Some b => Some b
       | None, None => None
       end.
Proof.
  intros H1 H2. unfold find_arbitrage. rewrite H1. cbn [bind]. rewrite H2. cbn [bind].
  destruct o1 as [a|], o2 as [b|]; reflexivity.
Qed.

Lemma find_arbitrage_scenarios (self : ArbitrageEngine)
    (lim_prices poly_prices : gmap string (option Decimal)) (r : option Opportunity) :
  find_arbitrage self lim_prices poly_prices = Ok r ->
  exists o1 o2,
    _evaluate_scenario self (dict_get lim_prices "yes_ask") (dict_get poly_prices "no_ask")
      "YES_LIMITLESS_NO_POLYMARKET" "YES" "NO" = Ok o1
    /\ _evaluate_scenario self (dict_get lim_prices "no_ask") (dict_get poly_prices "yes_ask")
         "NO_LIMITLESS_YES_POLYMARKET" "NO" "YES" = Ok o2.
Proof.
  unfold find_arbitrage. intros H.
  destruct (_evaluate_scenario self (dict_get lim_prices "yes_ask") _ _ _ _)
    as [o1|]; [|discriminate].
  cbn [bind] in H.
  destruct (_evaluate_scenario self (dict_get lim_prices "no_ask") _ _ _ _)
    as [o2|]; [|discriminate].
  exists o1, o2. split; reflexivity.
Qed.

(** X2.  Of the scenarios that qualify, [find_arbitrage] returns one with
    the greatest profit percentage, the first scenario (YES on Limitless)
    when the second is not strictly more profitable; it returns None exactly
    when neither qualifies. *)
Theorem find_arbitrage_best (self : ArbitrageEngine)
    (lim_prices poly_prices : gmap string (option Decimal))
    (o1 o2 : option Opportunity) :
  _evaluate_scenario self (dict_get lim_prices "yes_ask") (dict_get poly_prices "no_ask")
    "YES_LIMITLESS_NO_POLYMARKET" "YES" "NO" = Ok o1 ->
  _evaluate_scenario self (dict_get lim_prices "no_ask") (dict_get poly_prices "yes_ask")
    "NO_LIMITLESS_YES_POLYMARKET" "NO" "YES" = Ok o2 ->
  exists r,
    find_arbitrage self lim_prices poly_prices = Ok r
    /\ (r = None <-> o1 = None /\ o2 = None)
    /\ (forall opp, r = Some opp -> o1 = Some opp \/ o2 = Some opp)
    /\ (forall opp o, r = Some opp -> o1 = Some o \/ o2 = Some o ->
                      (value (profit_pct o) <= value (profit_pct opp))%Q)
    /\ (forall a b, o1 = Some a -> o2 = Some b ->
                    (value (profit_pct b) <= value (profit_pct a))%Q -> r = Some a).
Proof.
  intros H1 H2. eexists. split; [apply find_arbitrage_selects; eassumption|].
  assert (Hcmp : forall a b : Opportunity,
             (if Dec.gtb (profit_pct b) (profit_pct a) then b else a) = b
             /\ (value (profit_pct a) < value (profit_pct b))%Q
             \/ (if Dec.gtb (profit_pct b) (profit_pct a) then b else a) = a
                /\ (value (profit_pct b) <= value (profit_pct a))%Q).
  { intros a b. destruct (Dec.gtb (profit_pct b) (profit_pct a)) eqn:G.
    - left. split; [reflexivity|]. apply gtb_gt. exact G.
    - right. split; [reflexivity|]. unfold Dec.gtb in G. apply ltb_false. exact G. }
  destruct o1 as [a|], o2 as [b|].
  - destruct (Hcmp a b) as [[-> Hlt]|[-> Hle]].
    + split; [split; [discriminate|intros [? _]; discriminate]|].
      split; [intros opp [= <-]; right; reflexivity|].
      split; [intros opp o [= <-] [[= <-]|[= <-]]; lra|].
      intros a' b' [= <-] [= <-] Hle. exfalso. lra.
    + split; [split; [discriminate|intros [? _]; discriminate]|].
      split; [intros opp [= <-]; left; reflexivity|].
      split; [intros opp o [= <-] [[= <-]|[= <-]]; lra|].
      intros a' b' [= <-] [= <-] _. reflexivity.
  - split; [split; [discriminate|intros [? _]; discriminate]|].
    split; [intros opp [= <-]; left; reflexivity|].
    split; [intros opp o [= <-] [[= <-]|?]; [lra|discriminate]|].
    intros a' b' _ ?. discriminate.
  - split; [split; [discriminate|intros [_ ?]; discriminate]|].
    split; [intros opp [= <-]; right; reflexivity|].
    split; [intros opp o [= <-] [?|[= <-]]; [discriminate|lra]|].
    intros a' b' ?. discriminate.
  - split; [split; [intros _; split; reflexivity|reflexivity]|].
    split; [intros opp ?; discriminate|].
    split; [intros opp o ?; discriminate|].
    intros a' b' ?. discriminate.
Qed.


(** Both scenarios qualify (0.40 + 0.45 and 0.45 + 0.50); the first is the
    more profitable and is the one returned. *)
Lemma find_arbitrage_best_witness :
  find_arbitrage Samples.engine_3pct (Samples.quotes 40 45) (Samples.quotes 50 45)
  = Ok (Some Samples.some_opportunity).
Proof.
  destruct (find_arbitrage_best Samples.engine_3pct
              (Samples.quotes 40 45) (Samples.quotes 50 45)
              (Some Samples.some_opportunity) (Some Samples.dearer_opportunity)
              eq_refl eq_refl)
    as (r & Hr & _ & _ & _ & Hbest).
  rewrite Hr. f_equal.
  eapply Hbest; [reflexivity|reflexivity|]. vm_compute. discriminate.
Defined.

(** X3.  An opportunity [find_arbitrage] returns names one of the two
    scenarios, buys YES on one venue and NO on the other, and quotes for each
    leg the ask of that side from that venue's price dictionary. *)
Theorem find_arbitrage_legs (self : ArbitrageEngine)
    (lim_prices poly_prices : gmap string (option Decimal)) (opp : Opportunity) :
  find_arbitrage self lim_prices poly_prices = Ok (Some opp) ->
  (type opp = "YES_LIMITLESS_NO_POLYMARKET"
   /\ limitless_side opp = "YES" /\ polymarket_side opp = "NO"
   /\ dict_get lim_prices "yes_ask" = Some (limitless_price opp)
   /\ dict_get poly_prices "no_ask" = Some (polymarket_price opp))
  \/ (type opp = "NO_LIMITLESS_YES_POLYMARKET"
      /\ limitless_side opp = "NO" /\ polymarket_side opp = "YES"
      /\ dict_get lim_prices "no_ask" = Some (limitless_price opp)
      /\ dict_get poly_prices "yes_ask" = Some (polymarket_price opp)).
Proof.
  intros H. destruct (find_arbitrage_scenarios _ _ _ _ H) as (o1 & o2 & H1 & H2).
  rewrite (find_arbitrage_selects _ _ _ _ _ H1 H2) in H. injection H as H.
  assert (Hor : o1 = Some opp \/ o2 = Some opp).
  { destruct o1 as [a|], o2 as [b|]; try discriminate; injection H as H.
    - destruct (Dec.gtb _ _); subst; auto.
    - subst; auto.
    - subst; auto. }
  destruct Hor as [-> | ->]; [left|right].
  - destruct (evaluate_scenario_labels _ _ _ _ _ _ _ H1) as (? & ? & ?).
    destruct (evaluate_scenario_some _ _ _ _ _ _ _ H1) as (? & ? & _).
    repeat split; assumption.
  - destruct (evaluate_scenario_labels _ _ _ _ _ _ _ H2) as (? & ? & ?).
    destruct (evaluate_scenario_some _ _ _ _ _ _ _ H2) as (? & ? & _).
    repeat split; assumption.
Qed.

Lemma find_arbitrage_legs_witness :
  dict_get (Samples.quotes 40 70) "yes_ask"
  = Some (limitless_price Samples.some_opportunity)
  /\ dict_get (Samples.quotes 50 45) "no_ask"
     = Some (polymarket_price Samples.some_opportunity).
Proof.
  destruct (find_arbitrage_legs Samples.engine_3pct
              (Samples.quotes 40 70) (Samples.quotes 50 45)
              Samples.some_opportunity eq_refl)
    as [(_ & _ & _ & H1 & H2)|(H & _)]; [split; assumption|discriminate H].
Defined.
(** *** Signs and order of the figures of an opportunity *)

Lemma calculate_spread_nonneg (self : ArbitrageEngine) (price1 price2 s : Decimal) :
  calculate_spread self price1 price2 = Ok s -> (0 <= value s)%Q.
Proof.
  unfold calculate_spread.
  destruct (negb (truthy price1) || negb (truthy price2)
            || Dec.leb price1 _zero || Dec.leb price2 _zero) eqn:G.
  - intros [= <-]. unfold _zero. rewrite value_zero. lra.
  - apply spread_guard_false in G. destruct G as [P1 P2].
    destruct (div_ok (Dec.add price1 price2) two two_truthy) as (mid & Hmid).
    rewrite Hmid. cbn [bind].
    pose proof (mean_positive price1 price2 mid P1 P2 Hmid) as Hpos.
    destruct (Dec.eqb mid _zero).
    + intros [= <-]. unfold _zero. rewrite value_zero. lra.
    + assert (Hm : truthy mid = true) by (apply truthy_value; intros E; lra).
      destruct (value_div (Dec.abs (Dec.sub price1 price2)) mid Hm) as (r & Hr & Vr).
      rewrite Hr. cbn [bind]. intros [= <-].
      rewrite value_mul. apply round_prec_nonneg.
      unfold _hundred. rewrite value_hundred.
      assert (0 <= value r)%Q; [|lra].
      rewrite Vr. apply round_prec_nonneg.
      apply Qle_shift_div_l; [exact Hpos|].
      rewrite value_abs.
      assert (0 <= round_prec (Qabs (value (Dec.sub price1 price2))))%Q
        by (apply round_prec_nonneg, Qabs_nonneg).
      lra.
Qed.

(** The profit percentage computed from a total cost [t]. *)
Lemma profit_value (total q : Decimal) :
  Dec.div (Dec.sub _one total) total = Ok q ->
  truthy total = true
  /\ (value (Dec.mul q _hundred)
      == round_prec (round_prec (round_prec (1 - value total) / value total) * 100))%Q.
Proof.
  intros H. destruct (truthy total) eqn:T.
  - split; [reflexivity|].
    destruct (value_div (Dec.sub _one total) total T) as (q' & Hq & Vq).
    rewrite H in Hq. injection Hq as <-.
    rewrite value_mul. apply round_prec_comp.
    unfold _hundred. rewrite value_hundred, Vq.
    apply Qmult_comp; [|reflexivity]. apply round_prec_comp.
    apply Qdiv_comp; [|reflexivity].
    rewrite value_sub. unfold _one. rewrite value_one. reflexivity.
  - rewrite (div_raises _ _ T) in H. discriminate.
Qed.

Lemma find_arbitrage_from_scenario (self : ArbitrageEngine)
    (lim_prices poly_prices : gmap string (option Decimal)) (opp : Opportunity) :
  find_arbitrage self lim_prices poly_prices = Ok (Some opp) ->
  exists l p t s1 s2, _evaluate_scenario self l p t s1 s2 = Ok (Some opp).
Proof.
  intros H. destruct (find_arbitrage_scenarios _ _ _ _ H) as (o1 & o2 & H1 & H2).
  rewrite (find_arbitrage_selects _ _ _ _ _ H1 H2) in H. injection H as H.
  destruct o1 as [a|], o2 as [b|]; try discriminate; injection H as H.
  - destruct (Dec.gtb _ _); subst; eauto 10.
  - subst; eauto 10.
  - subst; eauto 10.
Qed.

(** X4.  An opportunity returned for two positive leg prices has a total
    cost strictly between 0 and 1, a positive profit percentage and a
    non-negative spread. *)
Theorem opportunity_figures (self : ArbitrageEngine)
    (lim_prices poly_prices : gmap string (option Decimal)) (opp : Opportunity) :
  find_arbitrage self lim_prices poly_prices = Ok (Some opp) ->
  (0 < value (limitless_price opp))%Q ->
  (0 < value (polymarket_price opp))%Q ->
  (0 < value (total_cost opp))%Q /\ (value (total_cost opp) < 1)%Q
  /\ (0 < value (profit_pct opp))%Q
  /\ (0 <= value (spread_pct opp))%Q.
Proof.
  intros H P1 P2.
  destruct (find_arbitrage_from_scenario _ _ _ _ H) as (l & p & t & s1 & s2 & Hev).
  apply evaluate_scenario_some in Hev.
  destruct Hev as (_ & _ & _ & _ & Htotal & Hlt & (q & Hq & Hprofit) & Hspread & _).
  assert (T0 : (0 < value (total_cost opp))%Q).
  { rewrite Htotal, value_add. apply round_prec_pos. lra. }
  assert (T1 : (value (total_cost opp) < 1)%Q).
  { apply ltb_lt in Hlt. unfold _one in Hlt. rewrite value_one in Hlt. exact Hlt. }
  repeat apply conj; try assumption.
  - destruct (profit_value _ _ Hq) as [_ V]. rewrite Hprofit, V.
    apply round_prec_pos.
    assert (0 < round_prec (round_prec (1 - value (total_cost opp)) / value (total_cost opp)))%Q;
      [|lra].
    apply round_prec_pos. apply Qlt_shift_div_l; [exact T0|].
    assert (0 < round_prec (1 - value (total_cost opp)))%Q
      by (apply round_prec_pos; lra).
    lra.
  - eapply calculate_spread_nonneg. exact Hspread.
Qed.


Lemma opportunity_figures_witness :
  (0 < value (total_cost Samples.some_opportunity))%Q
  /\ (value (total_cost Samples.some_opportunity) < 1)%Q
  /\ (0 < value (profit_pct Samples.some_opportunity))%Q
  /\ (0 <= value (spread_pct Samples.some_opportunity))%Q.
Proof.
  apply (opportunity_figures Samples.engine_3pct
           (Samples.quotes 40 70) (Samples.quotes 50 45)
           Samples.some_opportunity eq_refl); vm_compute; reflexivity.
Defined.

(** X5.  Of two opportunities, the one with the lower (positive) total
    cost has at least the profit percentage of the other: rounding never
    reverses the order. *)
Theorem cheaper_is_more_profitable (self self' : ArbitrageEngine)
    (lim_prices poly_prices lim_prices' poly_prices' : gmap string (option Decimal))
    (opp opp' : Opportunity) :
  find_arbitrage self lim_prices poly_prices = Ok (Some opp) ->
  find_arbitrage self' lim_prices' poly_prices' = Ok (Some opp') ->
  (0 < value (total_cost opp))%Q ->
  (value (total_cost opp) <= value (total_cost opp'))%Q ->
  (value (profit_pct opp') <= value (profit_pct opp))%Q.
Proof.
  intros H H' T0 Hle.
  destruct (find_arbitrage_from_scenario _ _ _ _ H) as (l & p & t & s1 & s2 & Hev).
  destruct (find_arbitrage_from_scenario _ _ _ _ H') as (l' & p' & t' & s1' & s2' & Hev').
  apply evaluate_scenario_some in Hev, Hev'.
  destruct Hev as (_ & _ & _ & _ & _ & _ & (q & Hq & Hprofit) & _).
  destruct Hev' as (_ & _ & _ & _ & _ & Hlt' & (q' & Hq' & Hprofit') & _).
  apply ltb_lt in Hlt'. unfold _one in Hlt'. rewrite value_one in Hlt'.
  destruct (profit_value _ _ Hq) as [_ V]. destruct (profit_value _ _ Hq') as [_ V'].
  rewrite Hprofit, Hprofit', V, V'.
  set (c := value (total_cost opp)) in *. set (c' := value (total_cost opp')) in *.
  apply round_prec_mono.
  assert (Hin : (round_prec (round_prec (1 - c') / c')
                 <= round_prec (round_prec (1 - c) / c))%Q); [|lra].
  apply round_prec_mono.
  assert (A' : (0 <= round_prec (1 - c'))%Q) by (apply round_prec_nonneg; lra).
  assert (A : (round_prec (1 - c') <= round_prec (1 - c))%Q)
    by (apply round_prec_mono; lra).
  apply Qle_trans with (round_prec (1 - c') / c)%Q.
  - apply Qdiv_antitone; assumption.
  - apply Qdiv_le_mono; assumption.
Qed.

(** A total cost of 0.75 against one of 0.85. *)
Lemma cheaper_is_more_profitable_witness :
  (value (profit_pct Samples.some_opportunity)
   <= value (profit_pct Samples.cheaper_opportunity))%Q.
Proof.
  apply (cheaper_is_more_profitable Samples.engine_3pct Samples.engine_3pct
           (Samples.quotes 30 70) (Samples.quotes 50 45)
           (Samples.quotes 40 70) (Samples.quotes 50 45)
           Samples.cheaper_opportunity Samples.some_opportunity eq_refl eq_refl).
  - vm_compute. reflexivity.
  - vm_compute. discriminate.
Defined.

(** *** The size of the stake *)

(** X6.  For a non-negative maximum bet of at most 27 digits and a
    non-negative slippage tolerance, the stake per side is at most half the
    maximum bet plus half a cent (the two stakes together exceed the maximum
    bet by at most one cent, which rounding to cents can add); with a
    tolerance of at most 100 it is not negative. *)
Theorem calculate_bet_size_within_max (self : ArbitrageEngine)
    (opportunity : Opportunity) (b : Decimal) :
  calculate_bet_size self opportunity = Ok b ->
  (0 <= value (max_bet self))%Q ->
  (Z.of_N (coeff (max_bet self)) < 10 ^ 27)%Z ->
  (0 <= value (slippage self))%Q ->
  (value b <= value (max_bet self) / 2 + (1 # 200))%Q
  /\ ((value (slippage self) <= 100)%Q -> (0 <= value b)%Q).
Proof.
  intros H Hm Hd Hs.
  destruct (calculate_bet_size_value self opportunity b H) as [Vb _].
  unfold bet_size_value in Vb.
  set (m := value (max_bet self)) in *. set (s := value (slippage self)) in *.
  set (f := round_prec (1 - round_prec (s / 100))) in *.
  assert (Hq0 : (0 <= round_prec (s / 100))%Q)
    by (apply round_prec_nonneg; apply Qle_shift_div_l; lra).
  assert (Hf1 : (f <= 1)%Q) by (apply round_prec_le_1; lra).
  pose proof (signed_nonneg _ Hm) as Hz. pose proof (signed_abs (max_bet self)) as Ha.
  assert (Em : (m == inject_Z (signed (max_bet self)) * p10 (expo (max_bet self)))%Q)
    by reflexivity.
  assert (Hmf : (m * f <= m)%Q).
  { assert (m * f <= m * 1)%Q
      by (rewrite !(Qmult_comm m); apply Qmult_le_compat_r; assumption).
    lra. }
  assert (H1 : (round_prec (m * f) <= m)%Q).
  { rewrite Em at 2. apply round_prec_p10; [unfold prec; lia|]. rewrite <- Em. exact Hmf. }
  assert (Eh : (m / 2 == inject_Z (5 * signed (max_bet self))
                         * p10 (expo (max_bet self) - 1))%Q).
  { rewrite p10_pred, inject_Z_mult, Em. change (inject_Z 5) with 5%Q. field. }
  assert (H2 : (round_prec (round_prec (m * f) / 2) <= m / 2)%Q).
  { rewrite Eh. apply round_prec_p10; [unfold prec; lia|]. rewrite <- Eh.
    apply Qdiv_le_mono; [reflexivity|exact H1]. }
  split.
  - rewrite Vb.
    apply Qle_trans with (round_at (-2) (m / 2)); [apply round_at_mono; exact H2|].
    pose proof (round_at_upper (-2) (m / 2)) as U.
    assert (E2 : ((1 # 2) * p10 (-2) == 1 # 200)%Q) by reflexivity.
    lra.
  - intros Hs1.
    assert (Hq1 : (round_prec (s / 100) <= 1)%Q)
      by (apply round_prec_le_1; apply Qle_shift_div_r; lra).
    assert (Hf0 : (0 <= f)%Q) by (apply round_prec_nonneg; lra).
    rewrite Vb.
    assert (E0 : (0 == inject_Z 0 * p10 (-2))%Q) by ring.
    rewrite E0. apply round_at_ge. rewrite <- E0.
    apply round_prec_nonneg. apply Qle_shift_div_l; [reflexivity|].
    assert (0 <= round_prec (m * f))%Q
      by (apply round_prec_nonneg, Qmult_le_0_compat; assumption).
    lra.
Qed.

Lemma calculate_bet_size_within_max_witness :
  (value (mkDecimal false 498 (-2)) <= value (max_bet Samples.engine_3pct) / 2 + (1 # 200))%Q
  /\ ((value (slippage Samples.engine_3pct) <= 100)%Q
      -> (0 <= value (mkDecimal false 498 (-2)))%Q).
Proof.
  apply (calculate_bet_size_within_max Samples.engine_3pct Samples.some_opportunity
           (mkDecimal false 498 (-2)) eq_refl).
  - vm_compute. discriminate.
  - vm_compute. reflexivity.
  - vm_compute. discriminate.
Defined.
(** *** estimate_profit *)


Lemma estimate_profit_value (self : ArbitrageEngine) (opportunity : Opportunity)
    (bet_size r : Decimal) :
  estimate_profit self opportunity bet_size = Ok r ->
  truthy (total_cost opportunity) = true
  /\ expo r = (-2)%Z
  /\ (value r
      == round_at (-2)
           (round_prec
              (round_prec (round_prec (value bet_size * 2)
                           / value (total_cost opportunity))
               - round_prec (value bet_size * 2))))%Q.
Proof.
  unfold estimate_profit. intros H.
  destruct (truthy (total_cost opportunity)) eqn:T;
    [|rewrite (div_raises _ _ T) in H; discriminate].
  split; [reflexivity|].
  destruct (value_div (Dec.mul bet_size two) (total_cost opportunity) T)
    as (payout & Hp & Vp).
  rewrite Hp in H. cbn [bind] in H.
  apply value_quantize in H. destruct H as [Vr Er]. split; [exact Er|].
  rewrite Vr. change (expo cent) with (-2)%Z. apply round_at_comp.
  rewrite value_sub. apply round_prec_comp.
  rewrite Vp, value_mul, value_two. reflexivity.
Qed.




(** X8.  For a total cost in (0, 1] and a non-negative stake, what
    [estimate_profit] returns is a non-negative amount in cents; and it does
    return when the stake is at most 10^12 and the total cost at least
    10^-12. *)
Theorem estimate_profit_nonneg (self : ArbitrageEngine) (opportunity : Opportunity)
    (bet_size : Decimal) :
  (0 < value (total_cost opportunity))%Q ->
  (value (total_cost opportunity) <= 1)%Q ->
  (0 <= value bet_size)%Q ->
  (forall r, estimate_profit self opportunity bet_size = Ok r ->
             expo r = (-2)%Z /\ (0 <= value r)%Q)
  /\ ((p10 (-12) <= value (total_cost opportunity))%Q ->
      (value bet_size <= p10 12)%Q ->
      exists r, estimate_profit self opportunity bet_size = Ok r).
Proof.
  intros T0 T1 B0.
  set (c := value (total_cost opportunity)) in *.
  set (x := round_prec (value bet_size * 2)).
  assert (X0 : (0 <= x)%Q) by (apply round_prec_nonneg; lra).
  assert (Hge : (x <= round_prec (x / c))%Q).
  { assert (Hx : (x == round_prec x)%Q).
    { unfold x. rewrite round_prec_idem. reflexivity. }
    rewrite Hx at 1. apply round_prec_mono.
    apply Qle_shift_div_l; [exact T0|].
    assert (x * c <= x * 1)%Q
      by (rewrite !(Qmult_comm x); apply Qmult_le_compat_r; assumption).
    lra. }
  split.
  - intros r H. destruct (estimate_profit_value _ _ _ _ H) as (_ & Er & Vr).
    split; [exact Er|]. rewrite Vr. fold c x.
    assert (E0 : (0 == inject_Z 0 * p10 (-2))%Q) by ring.
    rewrite E0. apply round_at_ge. rewrite <- E0.
    apply round_prec_nonneg. lra.
  - intros C12 B12. unfold estimate_profit.
    assert (T : truthy (total_cost opportunity) = true)
      by (apply truthy_value; fold c; intros E; lra).
    destruct (value_div (Dec.mul bet_size two) (total_cost opportunity) T)
      as (payout & Hp & Vp).
    rewrite Hp. cbn [bind].
    rewrite value_mul, value_two in Vp. fold c x in Vp.
    apply quantize_cent_ok.
    + rewrite value_sub, Vp, value_mul, value_two. fold x.
      apply round_prec_nonneg. lra.
    + rewrite value_sub, Vp, value_mul, value_two. fold x.
      pose proof (p10_pos 12) as P12. pose proof (p10_pos 24) as P24.
      assert (X1 : (x <= inject_Z 2 * p10 12)%Q).
      { apply round_prec_p10; [reflexivity|]. change (inject_Z 2) with 2%Q. lra. }
      assert (Y1 : (round_prec (x / c) <= inject_Z 2 * p10 24)%Q).
      { apply round_prec_p10; [reflexivity|].
        apply Qle_shift_div_r; [exact T0|].
        assert (E24 : (p10 24 == p10 12 * p10 12)%Q)
          by (rewrite <- p10_add; reflexivity).
        assert (E1 : (p10 12 * p10 (-12) == 1)%Q)
          by (rewrite <- p10_add; reflexivity).
        change (inject_Z 2) with 2%Q in *.
        assert (2 * p10 12 * (p10 12 * p10 (-12)) <= 2 * p10 12 * (p10 12 * c))%Q.
        { apply Qmult_le_l; [lra|]. apply Qmult_le_l; [lra|]. exact C12. }
        assert (E1' : (2 * p10 12 * (p10 12 * p10 (-12)) == 2 * p10 12)%Q)
          by (rewrite E1; ring).
        rewrite E24. lra. }
      assert (Z1 : (round_prec (round_prec (x / c) - x) <= inject_Z 2 * p10 24)%Q).
      { apply round_prec_p10; [reflexivity|]. lra. }
      assert (inject_Z 2 * p10 24 < p10 25)%Q.
      { replace 25%Z with (24 + 1)%Z by reflexivity. rewrite p10_succ.
        change (inject_Z 2) with 2%Q. lra. }
      lra.
Qed.

(** A stake of 4.98 per side on a total cost of 0.85: a profit of 1.76. *)
Lemma estimate_profit_nonneg_witness :
  exists r, estimate_profit Samples.engine_3pct Samples.some_opportunity
              (mkDecimal false 498 (-2)) = Ok r
            /\ expo r = (-2)%Z /\ (0 <= value r)%Q.
Proof.
  destruct (estimate_profit_nonneg Samples.engine_3pct Samples.some_opportunity
              (mkDecimal false 498 (-2))) as [Hsign Hret].
  - vm_compute. reflexivity.
  - vm_compute. discriminate.
  - vm_compute. discriminate.
  - destruct Hret as (r & Hr); [vm_compute; discriminate|vm_compute; discriminate|].
    exists r. split; [exact Hr|]. apply Hsign. exact Hr.
Defined.

End EngineFacts.

(** ** The TTL cache *)

Module CacheFacts.

Import Cache.
Local Open Scope Z_scope.

Section WithValues.

Context {V : Type}.

Implicit Types (self : AsyncCache V) (entry : CacheEntry V).

Lemma get_live self (key : string) entry (now : Z) :
  _cache self !! key = Some entry -> now < expires_at entry ->
  get now key self = (value entry, self).
Proof.
  intros Hk Hlive. unfold get. rewrite Hk.
  destruct (Z.ltb_spec now (expires_at entry)); [reflexivity|lia].
Qed.

Lemma get_expired self (key : string) entry (now : Z) :
  _cache self !! key = Some entry -> expires_at entry <= now ->
  get now key self = (None, invalidate key self).
Proof.
  intros Hk Hexp. unfold get, invalidate. rewrite Hk.
  destruct (Z.ltb_spec now (expires_at entry)); [lia|reflexivity].
Qed.

Lemma get_missing self (key : string) (now : Z) :
  _cache self !! key = None -> get now key self = (None, self).
Proof. intros Hk. unfold get. rewrite Hk. reflexivity. Qed.

Lemma set_lookup self (key : string) (v : option V) (ttl : option Z) (now : Z) :
  _cache (set now key v ttl self) !! key
  = Some {| value := v;
            expires_at := now + timedelta_seconds (ttl_or_default ttl self) |}.
Proof. unfold set. cbn [_cache]. apply lookup_insert_eq. Qed.

(** The keys [cleanup_expired] collects. *)
Lemma expired_keys_spec (m : gmap string (CacheEntry V)) (now : Z) (k : string) :
  k ∈ (List.filter (fun kv => expires_at (snd kv) <=? now) (map_to_list m)).*1
  <-> exists entry, m !! k = Some entry /\ expires_at entry <= now.
Proof.
  rewrite list_elem_of_fmap. split.
  - intros ([k' e] & -> & Hin). apply list_elem_of_In, filter_In in Hin.
    destruct Hin as [Hin Hexp]. apply list_elem_of_In, elem_of_map_to_list in Hin.
    exists e. split; [assumption|]. apply Z.leb_le. assumption.
  - intros (e & Hk & Hexp). exists (k, e). split; [reflexivity|].
    apply list_elem_of_In, filter_In. split.
    + apply list_elem_of_In, elem_of_map_to_list. assumption.
    + apply Z.leb_le. assumption.
Qed.

Lemma NoDup_fst_filter {A B : Type} (f : A * B -> bool) (l : list (A * B)) :
  NoDup (l.*1) -> NoDup ((List.filter f l).*1).
Proof.
  induction l as [|x l IH]; cbn [List.filter fmap list_fmap]; intros Hnd; [assumption|].
  apply NoDup_cons in Hnd. destruct Hnd as [Hx Hnd].
  destruct (f x); [|auto]. cbn [fmap list_fmap]. apply NoDup_cons. split; [|auto].
  intros Hin. apply Hx. apply list_elem_of_fmap in Hin. destruct Hin as (y & Ey & Hy).
  apply list_elem_of_fmap. exists y. split; [assumption|].
  apply list_elem_of_In. apply list_elem_of_In, filter_In in Hy. tauto.
Qed.

Lemma size_foldr_delete (m : gmap string (CacheEntry V)) (ks : list string) :
  NoDup ks -> (forall k, k ∈ ks -> is_Some (m !! k)) ->
  (length ks + size (foldr delete m ks) = size m)%nat.
Proof.
  induction ks as [|k ks IH]; intros Hnd Hin; cbn [foldr length]; [reflexivity|].
  apply NoDup_cons in Hnd. destruct Hnd as [Hk Hnd].
  assert (Hs : is_Some (foldr delete m ks !! k)).
  { rewrite lookup_foldr_delete_not_elem_of by assumption. apply Hin. left. }
  rewrite map_size_delete_Some by assumption.
  pose proof (map_size_ne_0_lookup_2 _ _ Hs) as Hne.
  specialize (IH Hnd (fun k' Hk' => Hin k' (list_elem_of_further _ _ _ Hk'))).
  lia.
Qed.

Lemma cleanup_expired_lookup self (now : Z) (k : string) :
  _cache (snd (cleanup_expired now self)) !! k
  = match _cache self !! k with
    | Some entry => if expires_at entry <=? now then None else Some entry
    | None => None
    end.
Proof.
  unfold cleanup_expired. cbn [snd _cache].
  set (expired := (List.filter _ (map_to_list (_cache self))).*1).
  destruct (_cache self !! k) as [entry|] eqn:Hk.
  - destruct (Z.leb_spec (expires_at entry) now) as [Hexp|Hlive].
    + apply lookup_foldr_delete. apply expired_keys_spec. eauto.
    + rewrite lookup_foldr_delete_not_elem_of; [assumption|].
      intros Hin. apply expired_keys_spec in Hin. destruct Hin as (e & He & Hexp).
      rewrite Hk in He. injection He as <-. lia.
  - destruct (decide (k ∈ expired)) as [Hin|Hout].
    + apply lookup_foldr_delete. assumption.
    + rewrite lookup_foldr_delete_not_elem_of by assumption. assumption.
Qed.

Lemma cleanup_expired_count self (now : Z) :
  (fst (cleanup_expired now self) + size (_cache (snd (cleanup_expired now self)))
   = size (_cache self))%nat.
Proof.
  unfold cleanup_expired. cbn [fst snd _cache].
  apply size_foldr_delete.
  - apply NoDup_fst_filter, NoDup_fst_map_to_list.
  - intros k Hin. apply expired_keys_spec in Hin. destruct Hin as (e & He & _).
    rewrite He. eauto.
Qed.

(** X27.  A value set with a TTL [t] other than 0 is returned by [get]
    before [t] elapses and is absent at or after expiry (set without a TTL,
    it lives for the cache's default TTL); [get] on a present but expired
    entry evicts the entry and returns None; [cleanup_expired] removes
    exactly the entries whose expiry is at or before now and returns how
    many it removed. *)
Theorem cache_ttl_properties self (key : string) (v : option V) (ttl : option Z)
    (set_at now : Z) :
  (forall t, ttl = Some t -> t <> 0 ->
             (now < set_at + t * 1000000 ->
              get now key (set set_at key v ttl self) = (v, set set_at key v ttl self))
             /\ (set_at + t * 1000000 <= now ->
                 fst (get now key (set set_at key v ttl self)) = None))
  /\ (ttl = None ->
      (now < set_at + _ttl self * 1000000 ->
       get now key (set set_at key v ttl self) = (v, set set_at key v ttl self))
      /\ (set_at + _ttl self * 1000000 <= now ->
          fst (get now key (set set_at key v ttl self)) = None))
  /\ (forall entry,
         _cache self !! key = Some entry -> expires_at entry <= now ->
         get now key self = (None, invalidate key self)
         /\ _cache (snd (get now key self)) !! key = None)
  /\ (forall k,
         _cache (snd (cleanup_expired now self)) !! k
         = match _cache self !! k with
           | Some entry => if expires_at entry <=? now then None else Some entry
           | None => None
           end)
  /\ (fst (cleanup_expired now self) + size (_cache (snd (cleanup_expired now self)))
      = size (_cache self))%nat.
Proof.
  assert (Hset : forall d,
             ttl_or_default ttl self = d ->
             (now < set_at + d * 1000000 ->
              get now key (set set_at key v ttl self) = (v, set set_at key v ttl self))
             /\ (set_at + d * 1000000 <= now ->
                 fst (get now key (set set_at key v ttl self)) = None)).
  { intros d Hd. pose proof (set_lookup self key v ttl set_at) as Hl.
    rewrite Hd in Hl. unfold timedelta_seconds in Hl. split; intros Hnow.
    - rewrite (get_live _ _ _ _ Hl) by (cbn [expires_at]; lia). reflexivity.
    - rewrite (get_expired _ _ _ _ Hl) by (cbn [expires_at]; lia). reflexivity. }
  repeat apply conj.
  - intros t -> Ht. apply Hset. cbn [ttl_or_default].
    destruct (Z.eqb_spec t 0); [contradiction|reflexivity].
  - intros ->. apply Hset. reflexivity.
  - intros entry Hk Hexp. rewrite (get_expired _ _ _ _ Hk Hexp). split; [reflexivity|].
    cbn [snd invalidate _cache]. apply lookup_delete_eq.
  - apply cleanup_expired_lookup.
  - apply cleanup_expired_count.
Qed.

(** C10.  A live entry that holds None reads as an absent key, and
    [get_or_fetch] then runs the producer and stores what it returns over
    the unexpired entry. *)
Theorem cached_None_is_fetched_again {W : Type} self (key : string) entry
    (now_get now_set : Z) (fetch_fn : W -> result (option V) * W) (w : W) :
  _cache self !! key = Some entry ->
  value entry = None ->
  now_get < expires_at entry ->
  get now_get key self = (None, self)
  /\ fst (get now_get key self) = fst (get now_get key (invalidate key self))
  /\ get_or_fetch now_get now_set key fetch_fn self w
     = match fetch_fn w with
       | (Ok v, w') => (Ok v, set now_set key v None self, w')
       | (Raise e, w') => (Raise e, self, w')
       end.
Proof.
  intros Hk Hv Hlive.
  assert (Hget : get now_get key self = (None, self))
    by (rewrite (get_live _ _ _ _ Hk Hlive), Hv; reflexivity).
  repeat apply conj.
  - exact Hget.
  - rewrite Hget. rewrite get_missing; [reflexivity|].
    unfold invalidate. cbn [_cache]. apply lookup_delete_eq.
  - unfold get_or_fetch. rewrite Hget. reflexivity.
Qed.

End WithValues.

Lemma cache_ttl_properties_witness :
  get 59999999 "k" Samples.cache_ttl_60 = (Some 7%nat, Samples.cache_ttl_60)
  /\ fst (get 60000000 "k" Samples.cache_ttl_60) = None.
Proof.
  pose proof (cache_ttl_properties (__init__ 10) "k" (Some 7%nat) (Some 60) 0)
    as H.
  split.
  - apply (proj1 (H 59999999)) with (t := 60); [reflexivity|lia|lia].
  - apply (proj1 (H 60000000)) with (t := 60); [reflexivity|lia|lia].
Defined.

(** C8.  The code at a TTL of 0: a value set with TTL 0 in a cache whose
    default TTL is 10 seconds is stored as if no TTL had been given
    ([ttl or self._ttl] reads the 0 as absent), and [get] still returns it
    five seconds later; a TTL of -1 is honoured, and the value is absent at
    once. *)
Lemma cache_ttl_zero_still_live :
  fst (get 5000000 "k" Samples.cache_ttl_0) = Some 7%nat
  /\ Samples.cache_ttl_0 = set 0 "k" (Some 7%nat) None (__init__ 10)
  /\ fst (get 0 "k" (set 0 "k" (Some 7%nat) (Some (-1)) (__init__ 10))) = None.
Proof. repeat split. Qed.

Lemma cached_None_is_fetched_again_witness :
  get_or_fetch 1000000 1000000 "k" Samples.counting_producer
    Samples.cache_holding_None 0%nat
  = (Ok (Some 1%nat),
     set 1000000 "k" (Some 1%nat) None Samples.cache_holding_None,
     1%nat).
Proof.
  refine (proj2 (proj2 (cached_None_is_fetched_again Samples.cache_holding_None "k"
                   {| value := None; expires_at := 60000000 |}
                   1000000 1000000 Samples.counting_producer 0%nat _ _ _)));
    [reflexivity|reflexivity|reflexivity].
Defined.


(** *** Further properties of the cache operations *)

Section MoreCache.

Context {V : Type}.

Implicit Types (self : AsyncCache V) (entry : CacheEntry V).

Lemma AsyncCache_eq self self' :
  _cache self = _cache self' -> _ttl self = _ttl self' -> self = self'.
Proof. destruct self, self'. cbn. intros -> ->. reflexivity. Qed.

(** X9.  After [invalidate] the key reads as absent; every other key
    reads as before; invalidating a key that is not cached changes nothing
    (nothing is raised); and invalidating twice is invalidating once. *)
Theorem invalidate_properties self (key other : string) (now : Z) :
  get now key (invalidate key self) = (None, invalidate key self)
  /\ (other <> key ->
      _cache (invalidate key self) !! other = _cache self !! other
      /\ fst (get now other (invalidate key self)) = fst (get now other self))
  /\ (_cache self !! key = None -> invalidate key self = self)
  /\ invalidate key (invalidate key self) = invalidate key self
  /\ _ttl (invalidate key self) = _ttl self.
Proof.
  repeat apply conj.
  - apply get_missing. unfold invalidate. cbn [_cache]. apply lookup_delete_eq.
  - intros Hne.
    assert (Hl : _cache (invalidate key self) !! other = _cache self !! other)
      by (unfold invalidate; cbn [_cache]; apply lookup_delete_ne; congruence).
    split; [exact Hl|]. unfold get. rewrite Hl.
    destruct (_cache self !! other) as [e|]; [|reflexivity].
    destruct (now <? expires_at e); reflexivity.
  - intros Hk. apply AsyncCache_eq; [|reflexivity].
    unfold invalidate. cbn [_cache]. apply delete_id. exact Hk.
  - apply AsyncCache_eq; [|reflexivity].
    unfold invalidate. cbn [_cache]. apply delete_id. apply lookup_delete_eq.
  - reflexivity.
Qed.

(** X10.  After [clear] every key reads as absent and [cleanup_expired]
    finds nothing to remove; the default TTL is kept, so a value set next
    without a TTL expires after the default TTL. *)
Theorem clear_properties self (key : string) (now : Z) :
  get now key (clear self) = (None, clear self)
  /\ cleanup_expired now (clear self) = (0%nat, clear self)
  /\ clear (clear self) = clear self
  /\ (forall (v : option V) (set_at : Z),
         _cache (set set_at key v None (clear self))
         = {[ key := {| value := v;
                        expires_at := set_at + timedelta_seconds (_ttl self) |} ]}).
Proof.
  repeat apply conj.
  - apply get_missing. apply lookup_empty.
  - unfold cleanup_expired, clear. cbn [_cache _ttl].
    rewrite map_to_list_empty. reflexivity.
  - reflexivity.
  - intros v set_at. unfold set, clear. cbn [_cache _ttl ttl_or_default].
    apply insert_empty.
Qed.

(** X11.  Setting a key again replaces the entry, value and expiry alike:
    the cache is as if the earlier [set] had not happened.  A [set] leaves
    every other key's entry, and what [get] returns for it, unchanged. *)
Theorem set_overwrites self (key other : string) (v1 v2 : option V)
    (ttl1 ttl2 : option Z) (t1 t2 now : Z) :
  set t2 key v2 ttl2 (set t1 key v1 ttl1 self) = set t2 key v2 ttl2 self
  /\ (other <> key ->
      _cache (set t1 key v1 ttl1 self) !! other = _cache self !! other
      /\ fst (get now other (set t1 key v1 ttl1 self)) = fst (get now other self)).
Proof.
  split.
  - apply AsyncCache_eq; [|reflexivity].
    unfold set. cbn [_cache _ttl].
    replace (ttl_or_default ttl2 {| _cache := _; _ttl := _ttl self |})
      with (ttl_or_default ttl2 self) by (destruct ttl2; reflexivity).
    apply insert_insert_eq.
  - intros Hne.
    assert (Hl : _cache (set t1 key v1 ttl1 self) !! other = _cache self !! other)
      by (unfold set; cbn [_cache]; apply lookup_insert_ne; congruence).
    split; [exact Hl|]. unfold get. rewrite Hl.
    destruct (_cache self !! other) as [e|]; [|reflexivity].
    destruct (now <? expires_at e); reflexivity.
Qed.

(** X12.  [get] returns a value only from an entry of that key that has
    not expired, and then leaves the cache as it is; whatever it returns, it
    touches no other key, adds no entry and keeps the default TTL. *)
Theorem get_only_live self (key : string) (now : Z) :
  (forall v, fst (get now key self) = Some v ->
             exists entry, _cache self !! key = Some entry
                           /\ value entry = Some v
                           /\ now < expires_at entry
                           /\ snd (get now key self) = self)
  /\ (forall other, other <> key ->
                    _cache (snd (get now key self)) !! other = _cache self !! other)
  /\ _cache (snd (get now key self)) ⊆ _cache self
  /\ _ttl (snd (get now key self)) = _ttl self.
Proof.
  unfold get. destruct (_cache self !! key) as [e|] eqn:Hk.
  - destruct (Z.ltb_spec now (expires_at e)) as [Hlive|Hexp]; cbn [fst snd _cache _ttl].
    + repeat apply conj; try reflexivity.
      intros v Hv. exists e. repeat split; assumption.
    + repeat apply conj; try reflexivity.
      * intros v Hv. discriminate.
      * intros other Hne. apply lookup_delete_ne. congruence.
      * apply delete_subseteq.
  - cbn [fst snd]. repeat apply conj; try reflexivity.
    intros v Hv. discriminate.
Qed.

Lemma filter_nil_iff {A : Type} (f : A -> bool) (l : list A) :
  (forall x, In x l -> f x = false) -> List.filter f l = [].
Proof.
  induction l as [|x l IH]; intros H; [reflexivity|].
  cbn [List.filter]. rewrite (H x (or_introl eq_refl)).
  apply IH. intros y Hy. apply H. right. exact Hy.
Qed.

(** X13.  [cleanup_expired] cannot be observed through [get]: at the
    instant of the cleanup or later, every key reads the same with or
    without it.  The entries it leaves are all still live, and a second
    cleanup at the same instant removes nothing. *)
Theorem cleanup_expired_transparent self (key : string) (now later : Z) :
  now <= later ->
  fst (get later key (snd (cleanup_expired now self))) = fst (get later key self)
  /\ (forall entry, _cache (snd (cleanup_expired now self)) !! key = Some entry ->
                    now < expires_at entry)
  /\ cleanup_expired now (snd (cleanup_expired now self))
     = (0%nat, snd (cleanup_expired now self)).
Proof.
  intros Hle.
  assert (Hlive : forall k entry,
             _cache (snd (cleanup_expired now self)) !! k = Some entry ->
             now < expires_at entry).
  { intros k entry. rewrite cleanup_expired_lookup.
    destruct (_cache self !! k) as [e|]; [|discriminate].
    destruct (Z.leb_spec (expires_at e) now); [discriminate|].
    intros [= <-]. assumption. }
  repeat apply conj.
  - unfold get. rewrite cleanup_expired_lookup.
    destruct (_cache self !! key) as [e|]; [|reflexivity].
    destruct (Z.leb_spec (expires_at e) now) as [Hexp|Hl].
    + destruct (Z.ltb_spec later (expires_at e)); [lia|reflexivity].
    + destruct (later <? expires_at e); reflexivity.
  - apply Hlive.
  - set (self' := snd (cleanup_expired now self)) in *.
    unfold cleanup_expired.
    rewrite filter_nil_iff.
    + reflexivity.
    + intros [k e] Hin. cbn [snd].
      apply list_elem_of_In, elem_of_map_to_list in Hin.
      apply Hlive in Hin. apply Z.leb_gt. exact Hin.
Qed.

(** A live entry holding a value is served as it is: the producer is
    not run and the cache is not changed. *)
Lemma get_or_fetch_live {W : Type} self (key : string) entry (v : V)
    (now_get now_set : Z) (fetch_fn : W -> result (option V) * W) (w : W) :
  _cache self !! key = Some entry ->
  value entry = Some v ->
  now_get < expires_at entry ->
  get_or_fetch now_get now_set key fetch_fn self w = (Ok (Some v), self, w).
Proof.
  intros Hk Hv Hlive. unfold get_or_fetch.
  rewrite (get_live _ _ _ _ Hk Hlive), Hv. reflexivity.
Qed.

(** [get] removes at most the entry asked for, and keeps the default
    TTL. *)
Lemma get_keeps self (key : string) (now : Z) :
  _cache (snd (get now key self)) ⊆ _cache self
  /\ _ttl (snd (get now key self)) = _ttl self.
Proof.
  unfold get. destruct (_cache self !! key) as [e|]; [|split; reflexivity].
  destruct (now <? expires_at e); cbn [snd _cache _ttl]; [split; reflexivity|].
  split; [apply delete_subseteq|reflexivity].
Qed.

(** X14.  When [get_or_fetch] misses and the producer returns a value,
    the value is stored; a second [get_or_fetch] before the default TTL has
    elapsed since returns the same value without running any producer (the
    producer's world is left as the first call left it) and without changing
    the cache. *)
Theorem get_or_fetch_then_hit {W : Type} self (key : string) (v : V)
    (now1 set_at now2 set_at2 : Z) (fetch_fn fetch_fn2 : W -> result (option V) * W)
    (w w' : W) :
  fst (get now1 key self) = None ->
  fetch_fn w = (Ok (Some v), w') ->
  now2 < set_at + _ttl self * 1000000 ->
  exists self1,
    get_or_fetch now1 set_at key fetch_fn self w = (Ok (Some v), self1, w')
    /\ get_or_fetch now2 set_at2 key fetch_fn2 self1 w' = (Ok (Some v), self1, w').
Proof.
  intros Hmiss Hfetch Hlive. unfold get_or_fetch at 1.
  destruct (get now1 key self) as [cached self0] eqn:G.
  cbn [fst] in Hmiss. subst cached. rewrite Hfetch.
  eexists. split; [reflexivity|].
  assert (Httl : _ttl self0 = _ttl self).
  { pose proof (proj2 (get_keeps self key now1)) as H.
    rewrite G in H. exact H. }
  eapply get_or_fetch_live.
  - apply set_lookup.
  - reflexivity.
  - cbn [expires_at ttl_or_default]. rewrite Httl. unfold timedelta_seconds. lia.
Qed.

(** X15.  When [get_or_fetch] misses and the producer raises, the
    exception reaches the caller, nothing is stored (the cache holds no more
    than before) and the key still reads as absent. *)
Theorem get_or_fetch_fetch_raises {W : Type} self (key : string) (e : exn)
    (now_get now_set : Z) (fetch_fn : W -> result (option V) * W) (w w' : W) :
  fst (get now_get key self) = None ->
  fetch_fn w = (Raise e, w') ->
  get_or_fetch now_get now_set key fetch_fn self w
  = (Raise e, snd (get now_get key self), w')
  /\ _cache (snd (get now_get key self)) ⊆ _cache self
  /\ fst (get now_get key (snd (get now_get key self))) = None.
Proof.
  intros Hmiss Hfetch. unfold get_or_fetch.
  destruct (get now_get key self) as [cached self0] eqn:G.
  cbn [fst] in Hmiss. subst cached. rewrite Hfetch. cbn [snd].
  split; [reflexivity|].
  pose proof (proj1 (get_keeps self key now_get)) as Hsub.
  rewrite G in Hsub. cbn [snd] in Hsub. split; [exact Hsub|].
  revert G. unfold get. destruct (_cache self !! key) as [en|] eqn:Hk.
  - destruct (Z.ltb_spec now_get (expires_at en)).
    + intros [= Hv <-]. rewrite Hk.
      destruct (Z.ltb_spec now_get (expires_at en)); [|lia]. exact Hv.
    + intros [= <-]. cbn [_cache]. rewrite lookup_delete_eq. reflexivity.
  - intros [= <-]. rewrite Hk. reflexivity.
Qed.

End MoreCache.

Lemma cleanup_expired_transparent_witness :
  fst (get 1000000 "k" (snd (cleanup_expired 0 Samples.cache_ttl_0)))
  = fst (get 1000000 "k" Samples.cache_ttl_0).
Proof.
  apply (cleanup_expired_transparent Samples.cache_ttl_0 "k" 0 1000000). lia.
Defined.

(** The first call runs the producer (once: the count goes from 0 to 1);
    the second, five seconds later, does not. *)
Lemma get_or_fetch_then_hit_witness :
  exists self1,
    get_or_fetch 0 0 "k" Samples.counting_producer (__init__ 10) 0%nat
    = (Ok (Some 1%nat), self1, 1%nat)
    /\ get_or_fetch 5000000 5000000 "k" Samples.counting_producer self1 1%nat
       = (Ok (Some 1%nat), self1, 1%nat).
Proof.
  apply (get_or_fetch_then_hit (__init__ 10) "k" 1%nat 0 0 5000000 5000000
           Samples.counting_producer Samples.counting_producer 0%nat 1%nat);
    [reflexivity|reflexivity|reflexivity].
Defined.

Lemma get_or_fetch_fetch_raises_witness :
  get_or_fetch 0 0 "k" Samples.failing_producer (@__init__ nat 10) 0%nat
  = (Raise (Exception "unreachable"), snd (get 0 "k" (@__init__ nat 10)), 1%nat).
Proof.
  apply (get_or_fetch_fetch_raises (@__init__ nat 10) "k" (Exception "unreachable")
           0 0 Samples.failing_producer 0%nat 1%nat);
    [reflexivity|reflexivity].
Defined.

End CacheFacts.

(** ** The market matcher *)

Module MonitorFacts.

Import Monitor DecFacts.
Local Open Scope string_scope.

Lemma time_map_get_In (time_slot : string) (time_map : TimeMap)
    (v : list (Decimal * Market)) :
  time_map_get time_slot time_map = Some v -> In (time_slot, v) time_map.
Proof.
  induction time_map as [|[k w] rest IH]; cbn [time_map_get]; [discriminate|].
  destruct (String.eqb_spec k time_slot) as [->|Hne].
  - intros [= ->]. left. reflexivity.
  - intros H. right. apply IH. assumption.
Qed.

(** The loop over one Limitless market: the qualifying Polymarket markets
    of the slot, in order. *)
Lemma inner_loop_filter (self : MarketMonitor) (time_slot : string)
    (lim : Decimal * Market) (polys : list (Decimal * Market)) :
  (let '(lim_strike, lim_market) := lim in
   flat_map
     (fun '(poly_strike, poly_market) =>
        let diff := Dec.abs (Dec.sub lim_strike poly_strike) in
        if Dec.leb diff (max_strike_diff self)
        then [ {| limitless := lim_market; polymarket := poly_market;
                  strike_limitless := lim_strike; strike_polymarket := poly_strike;
                  strike_diff := diff; time := time_slot |} ]
        else [])
     polys)
  = qualifying_pairs self time_slot [lim] polys.
Proof.
  destruct lim as [lim_strike lim_market]. unfold qualifying_pairs.
  cbn [list_prod]. rewrite app_nil_r.
  induction polys as [|[poly_strike poly_market] polys IH]; [reflexivity|].
  cbn [flat_map map List.filter]. cbv zeta.
  destruct (Dec.leb (Dec.abs (Dec.sub lim_strike poly_strike)) (max_strike_diff self));
    cbn [map app]; rewrite IH; reflexivity.
Qed.

Lemma qualifying_pairs_cons (self : MarketMonitor) (time_slot : string)
    (lim : Decimal * Market) (lims polys : list (Decimal * Market)) :
  qualifying_pairs self time_slot (lim :: lims) polys
  = (qualifying_pairs self time_slot [lim] polys
     ++ qualifying_pairs self time_slot lims polys)%list.
Proof.
  unfold qualifying_pairs. cbn [list_prod]. rewrite app_nil_r.
  rewrite List.filter_app, map_app. reflexivity.
Qed.

(** The loops over one time slot emit exactly the qualifying pairs of the
    cross product. *)
Lemma slot_loops_filter (self : MarketMonitor) (time_slot : string)
    (lims polys : list (Decimal * Market)) :
  flat_map
    (fun '(lim_strike, lim_market) =>
       flat_map
         (fun '(poly_strike, poly_market) =>
            let diff := Dec.abs (Dec.sub lim_strike poly_strike) in
            if Dec.leb diff (max_strike_diff self)
            then [ {| limitless := lim_market; polymarket := poly_market;
                      strike_limitless := lim_strike; strike_polymarket := poly_strike;
                      strike_diff := diff; time := time_slot |} ]
            else [])
         polys)
    lims
  = qualifying_pairs self time_slot lims polys.
Proof.
  match goal with |- flat_map ?g lims = _ => set (f := g) end.
  induction lims as [|lim lims IH]; [reflexivity|].
  cbn [flat_map]. rewrite IH, qualifying_pairs_cons.
  f_equal. subst f. pose proof (inner_loop_filter self time_slot lim polys) as H.
  destruct lim as [lim_strike lim_market]. exact H.
Qed.

Lemma match_time_maps_spec (self : MarketMonitor) (lim_map poly_map : TimeMap) :
  match_time_maps self lim_map poly_map
  = flat_map
      (fun '(time_slot, lims) =>
         match time_map_get time_slot poly_map with
         | Some polys => qualifying_pairs self time_slot lims polys
         | None => []
         end)
      lim_map.
Proof.
  unfold match_time_maps.
  match goal with |- flat_map ?g lim_map = _ => set (f := g) end.
  match goal with |- _ = flat_map ?g lim_map => set (f' := g) end.
  induction lim_map as [|[time_slot lims] rest IH]; [reflexivity|].
  cbn [flat_map]. rewrite IH. f_equal. subst f f'. cbv beta iota.
  destruct (time_map_get time_slot poly_map) as [polys|]; [|reflexivity].
  apply slot_loops_filter.
Qed.

Lemma qualifying_pairs_In (self : MarketMonitor) (time_slot : string)
    (lims polys : list (Decimal * Market))
    (lim_strike poly_strike : Decimal) (lim_market poly_market : Market) :
  In (lim_strike, lim_market) lims -> In (poly_strike, poly_market) polys ->
  Dec.leb (Dec.abs (Dec.sub lim_strike poly_strike)) (max_strike_diff self) = true ->
  In {| limitless := lim_market; polymarket := poly_market;
        strike_limitless := lim_strike; strike_polymarket := poly_strike;
        strike_diff := Dec.abs (Dec.sub lim_strike poly_strike);
        time := time_slot |}
     (qualifying_pairs self time_slot lims polys).
Proof.
  intros Hl Hp Hq. unfold qualifying_pairs. apply in_map_iff.
  exists ((lim_strike, lim_market), (poly_strike, poly_market)).
  split; [reflexivity|]. apply filter_In. split; [|exact Hq].
  apply in_prod; assumption.
Qed.

Lemma find_matching_markets_fetched (self : MarketMonitor)
    (lim_markets poly_markets : list Market) :
  outcome (get_active_hourly_markets (limitless_client self)) = Ok lim_markets ->
  outcome (get_active_hourly_markets (polymarket_client self)) = Ok poly_markets ->
  find_matching_markets self
  = match_time_maps self (_build_time_strike_map lim_markets "title")
                    (_build_time_strike_map poly_markets "question").
Proof.
  intros Hl Hp. unfold find_matching_markets, find_matching_markets_body.
  unfold gather_return_exceptions. cbn [outcome bind]. rewrite Hl, Hp. reflexivity.
Qed.

(** C5.  If either venue's fetch raises, [find_matching_markets] returns the
    empty list: its body already returns it (no matching is attempted), and
    nothing is raised to the caller. *)
Theorem find_matching_markets_fetch_fails (self : MarketMonitor) (e : exn) :
  outcome (get_active_hourly_markets (limitless_client self)) = Raise e
  \/ outcome (get_active_hourly_markets (polymarket_client self)) = Raise e ->
  find_matching_markets_body self = Ok [] /\ find_matching_markets self = [].
Proof.
  intros H. unfold find_matching_markets, find_matching_markets_body.
  unfold gather_return_exceptions. cbn [outcome bind].
  destruct H as [H|H]; rewrite H.
  - split; reflexivity.
  - destruct (outcome (get_active_hourly_markets (limitless_client self)));
      split; reflexivity.
Qed.

Lemma find_matching_markets_fetch_fails_witness :
  find_matching_markets Samples.monitor_limitless_down = [].
Proof.
  apply (find_matching_markets_fetch_fails Samples.monitor_limitless_down
           (Exception "connection reset")).
  left. reflexivity.
Defined.

(** C6.  For a time slot present in both venues' parsed maps, every pair of
    the cross product whose strike difference is at most the threshold
    (equality included) is emitted as a match; the difference is the same
    in either order of the strikes; and the matches are, slot by slot,
    exactly the qualifying pairs of the cross product, none merged or
    dropped. *)
Theorem find_matching_markets_all_pairs (self : MarketMonitor)
    (lim_markets poly_markets : list Market) (time_slot : string)
    (lims polys : list (Decimal * Market))
    (lim_strike poly_strike : Decimal) (lim_market poly_market : Market) :
  outcome (get_active_hourly_markets (limitless_client self)) = Ok lim_markets ->
  outcome (get_active_hourly_markets (polymarket_client self)) = Ok poly_markets ->
  time_map_get time_slot (_build_time_strike_map lim_markets "title") = Some lims ->
  time_map_get time_slot (_build_time_strike_map poly_markets "question") = Some polys ->
  In (lim_strike, lim_market) lims ->
  In (poly_strike, poly_market) polys ->
  (value (Dec.abs (Dec.sub lim_strike poly_strike)) <= value (max_strike_diff self))%Q ->
  In {| limitless := lim_market; polymarket := poly_market;
        strike_limitless := lim_strike; strike_polymarket := poly_strike;
        strike_diff := Dec.abs (Dec.sub lim_strike poly_strike);
        time := time_slot |}
     (find_matching_markets self)
  /\ Dec.abs (Dec.sub lim_strike poly_strike) = Dec.abs (Dec.sub poly_strike lim_strike)
  /\ find_matching_markets self
     = flat_map
         (fun '(slot, slot_lims) =>
            match time_map_get slot (_build_time_strike_map poly_markets "question") with
            | Some slot_polys => qualifying_pairs self slot slot_lims slot_polys
            | None => []
            end)
         (_build_time_strike_map lim_markets "title").
Proof.
  intros Hl Hp Hlims Hpolys Il Ip Hq.
  rewrite (find_matching_markets_fetched self _ _ Hl Hp), match_time_maps_spec.
  repeat apply conj.
  - apply in_flat_map. exists (time_slot, lims). split.
    + apply time_map_get_In. assumption.
    + cbv beta iota. rewrite Hpolys. apply qualifying_pairs_In; try assumption.
      apply leb_le. assumption.
  - apply abs_sub_comm.
  - reflexivity.
Qed.

(** Strikes 95,000 and 95,200.00 at 14:00 with a threshold of 200.0: the
    difference equals the threshold, and the pair is matched. *)
Lemma find_matching_markets_all_pairs_witness :
  In Samples.matched (find_matching_markets Samples.monitor_ok).
Proof.
  refine (proj1 (find_matching_markets_all_pairs Samples.monitor_ok
                   [Samples.lim_95000] [Samples.poly_95200] "14:00"
                   [(mkDecimal false 95000 0, Samples.lim_95000)]
                   [(mkDecimal false 9520000 (-2), Samples.poly_95200)]
                   (mkDecimal false 95000 0) (mkDecimal false 9520000 (-2))
                   Samples.lim_95000 Samples.poly_95200
                   eq_refl eq_refl eq_refl eq_refl _ _ _)).
  - left. reflexivity.
  - left. reflexivity.
  - vm_compute. discriminate.
Defined.


(** *** The time-strike map *)

Lemma time_map_get_append (slot slot' : string) (x : Decimal * Market)
    (time_map : TimeMap) :
  default [] (time_map_get slot (time_map_append slot' x time_map))
  = (default [] (time_map_get slot time_map)
     ++ if String.eqb slot' slot then [x] else [])%list.
Proof.
  induction time_map as [|[k v] rest IH]; cbn [time_map_append time_map_get].
  - destruct (String.eqb slot' slot); reflexivity.
  - destruct (String.eqb_spec k slot') as [->|Hne].
    + cbn [time_map_get]. destruct (String.eqb_spec slot' slot) as [->|Hne'].
      * reflexivity.
      * cbn [from_option]. rewrite app_nil_r. reflexivity.
    + cbn [time_map_get]. destruct (String.eqb_spec k slot) as [->|Hne'].
      * destruct (String.eqb_spec slot' slot) as [->|_]; [contradiction|].
        cbn [from_option]. rewrite app_nil_r. reflexivity.
      * exact IH.
Qed.

Lemma time_map_get_nonempty (slot slot' : string) (x : Decimal * Market)
    (time_map : TimeMap) :
  (forall l, time_map_get slot time_map = Some l -> l <> []) ->
  forall l, time_map_get slot (time_map_append slot' x time_map) = Some l -> l <> [].
Proof.
  induction time_map as [|[k v] rest IH]; cbn [time_map_append time_map_get]; intros H l.
  - destruct (String.eqb slot' slot); [|discriminate]. intros [= <-]. discriminate.
  - destruct (String.eqb_spec k slot') as [->|Hne]; cbn [time_map_get].
    + destruct (String.eqb_spec slot' slot) as [->|Hne'].
      * intros [= <-]. intros E. apply app_eq_nil in E. destruct E; discriminate.
      * intros Hl. apply H. revert Hl.
        destruct (String.eqb_spec slot' slot); [contradiction|]. auto.
    + revert H. cbn [time_map_get]. destruct (String.eqb_spec k slot) as [->|Hne'].
      * intros H. apply H.
      * intros H. apply IH. exact H.
Qed.

(** The entries of one slot: the markets whose title parses to that slot,
    with their strikes, in the order of the feed. *)
Lemma build_time_strike_map_slot (markets : list Market) (title_key slot : string) :
  default [] (time_map_get slot (_build_time_strike_map markets title_key))
  = flat_map
      (fun market =>
         match parse_strike_and_time (default "" (fields market !! title_key)) with
         | Some (strike, time_slot) =>
             if String.eqb time_slot slot then [(strike, market)] else []
         | None => []
         end)
      markets
  /\ forall l, time_map_get slot (_build_time_strike_map markets title_key) = Some l ->
               l <> [].
Proof.
  unfold _build_time_strike_map.
  match goal with |- context [fold_left ?g markets []] => set (step := g) end.
  match goal with |- context [flat_map ?g markets] => set (f := g) end.
  assert (H : forall acc,
             (forall l, time_map_get slot acc = Some l -> l <> []) ->
             default [] (time_map_get slot (fold_left step markets acc))
             = (default [] (time_map_get slot acc) ++ flat_map f markets)%list
             /\ forall l, time_map_get slot (fold_left step markets acc) = Some l ->
                          l <> []).
  { induction markets as [|m ms IH]; intros acc Hacc; cbn [fold_left flat_map].
    - rewrite app_nil_r. split; [reflexivity|exact Hacc].
    - assert (Hstep : default [] (time_map_get slot (step acc m))
                      = (default [] (time_map_get slot acc) ++ f m)%list
                      /\ forall l, time_map_get slot (step acc m) = Some l -> l <> []).
      { subst step f. cbv beta zeta.
        destruct (parse_strike_and_time (default "" (fields m !! title_key)))
          as [[strike time_slot]|].
        - split; [apply time_map_get_append|].
          apply time_map_get_nonempty. exact Hacc.
        - rewrite app_nil_r. split; [reflexivity|exact Hacc]. }
      destruct Hstep as [E Hne]. destruct (IH (step acc m) Hne) as [E' Hne'].
      split; [|exact Hne']. rewrite E', E, <- app_assoc. reflexivity. }
  destruct (H [] ltac:(discriminate)) as [E Hne]. split; [exact E|exact Hne].
Qed.

(** The markets filed under one slot. *)
Lemma time_strike_map_entries (markets : list Market)
    (title_key slot : string) (strike : Decimal) (market : Market) :
  (exists entries,
      time_map_get slot (_build_time_strike_map markets title_key) = Some entries
      /\ In (strike, market) entries)
  <-> In market markets
      /\ parse_strike_and_time (default "" (fields market !! title_key))
         = Some (strike, slot).
Proof.
  destruct (build_time_strike_map_slot markets title_key slot) as [E _].
  assert (Hin : In (strike, market)
                   (default [] (time_map_get slot
                                  (_build_time_strike_map markets title_key)))
                <-> In market markets
                    /\ parse_strike_and_time (default "" (fields market !! title_key))
                       = Some (strike, slot)).
  { rewrite E, in_flat_map. split.
    - intros (m & Hm & Hx).
      destruct (parse_strike_and_time (default "" (fields m !! title_key)))
        as [[s t]|] eqn:P; [|contradiction].
      destruct (String.eqb_spec t slot) as [->|]; [|contradiction].
      destruct Hx as [[= <- <-]|[]]. split; assumption.
    - intros [Hm P]. exists market. split; [exact Hm|].
      rewrite P, String.eqb_refl. left. reflexivity. }
  rewrite <- Hin. split.
  - intros (entries & -> & Hx). exact Hx.
  - destruct (time_map_get slot _) as [entries|]; [|intros []].
    intros Hx. exists entries. split; [reflexivity|exact Hx].
Qed.

Lemma time_map_append_keys (slot : string) (x : Decimal * Market) (time_map : TimeMap) :
  map fst (time_map_append slot x time_map)
  = if in_dec String.string_dec slot (map fst time_map) then map fst time_map
    else (map fst time_map ++ [slot])%list.
Proof.
  induction time_map as [|[k v] rest IH]; cbn [time_map_append map fst].
  - destruct (in_dec _ _ _) as [[]|_]. reflexivity.
  - destruct (String.eqb_spec k slot) as [->|Hne].
    + cbn [map fst].
      destruct (in_dec _ slot (slot :: map fst rest)) as [_|N]; [reflexivity|].
      exfalso. apply N. left. reflexivity.
    + cbn [map fst]. rewrite IH.
      destruct (in_dec _ slot (map fst rest)) as [I|N];
        destruct (in_dec _ slot (k :: map fst rest)) as [I'|N']; try reflexivity.
      * exfalso. apply N'. right. exact I.
      * exfalso. destruct I' as [E|I']; [congruence|contradiction].
Qed.

(** The map has one entry per time slot, as a dict has one per key. *)
Lemma build_time_strike_map_keys (markets : list Market) (title_key : string) :
  List.NoDup (map fst (_build_time_strike_map markets title_key)).
Proof.
  unfold _build_time_strike_map.
  match goal with |- context [fold_left ?g markets []] => set (step := g) end.
  assert (H : forall acc, List.NoDup (map fst acc) ->
                          List.NoDup (map fst (fold_left step markets acc))).
  { induction markets as [|m ms IH]; intros acc Hacc; cbn [fold_left]; [exact Hacc|].
    apply IH. subst step. cbv beta zeta.
    destruct (parse_strike_and_time _) as [[strike time_slot]|]; [|exact Hacc].
    rewrite time_map_append_keys.
    destruct (in_dec _ time_slot (map fst acc)) as [I|N]; [exact Hacc|].
    apply NoDup_ListNoDup, NoDup_app. repeat split.
    - apply NoDup_ListNoDup. exact Hacc.
    - intros y Hy Hy'. apply list_elem_of_In in Hy.
      apply list_elem_of_singleton in Hy'. subst y. contradiction.
    - apply NoDup_singleton. }
  apply H. constructor.
Qed.

Lemma time_map_get_of_In (slot : string) (v : list (Decimal * Market))
    (time_map : TimeMap) :
  List.NoDup (map fst time_map) -> In (slot, v) time_map ->
  time_map_get slot time_map = Some v.
Proof.
  induction time_map as [|[k w] rest IH]; cbn [map fst time_map_get]; intros Hnd Hin;
    [contradiction|].
  inversion Hnd as [|? ? Hk Hnd']; subst.
  destruct Hin as [[= -> ->]|Hin].
  - rewrite String.eqb_refl. reflexivity.
  - destruct (String.eqb_spec k slot) as [->|Hne]; [|apply IH; assumption].
    exfalso. apply Hk. apply in_map_iff. exists (slot, v). split; [reflexivity|exact Hin].
Qed.

Lemma qualifying_pairs_inv (self : MarketMonitor) (time_slot : string)
    (lims polys : list (Decimal * Market)) (m : MarketMatch) :
  In m (qualifying_pairs self time_slot lims polys) ->
  In (strike_limitless m, limitless m) lims
  /\ In (strike_polymarket m, polymarket m) polys
  /\ strike_diff m = Dec.abs (Dec.sub (strike_limitless m) (strike_polymarket m))
  /\ Dec.leb (strike_diff m) (max_strike_diff self) = true
  /\ time m = time_slot.
Proof.
  unfold qualifying_pairs. intros H. apply in_map_iff in H.
  destruct H as ([[ls lm] [ps pm]] & <- & Hin).
  apply filter_In in Hin. destruct Hin as [Hin Hq].
  apply in_prod_iff in Hin. destruct Hin as [Hl Hp].
  cbn [strike_limitless limitless strike_polymarket polymarket strike_diff time].
  repeat split; assumption.
Qed.


(** X19.  [_build_time_strike_map] files under each time slot exactly the
    markets whose title parses to that slot, each with its parsed strike, in
    the order of the feed; a market whose title is missing or does not parse
    is left out; no slot is listed twice and none is listed empty. *)
Theorem build_time_strike_map_spec (markets : list Market) (title_key : string) :
  (forall slot,
      default [] (time_map_get slot (_build_time_strike_map markets title_key))
      = flat_map
          (fun market =>
             match parse_strike_and_time (default "" (fields market !! title_key)) with
             | Some (strike, time_slot) =>
                 if String.eqb time_slot slot then [(strike, market)] else []
             | None => []
             end)
          markets)
  /\ (forall slot entries,
         time_map_get slot (_build_time_strike_map markets title_key) = Some entries
         <-> In (slot, entries) (_build_time_strike_map markets title_key))
  /\ (forall slot entries,
         In (slot, entries) (_build_time_strike_map markets title_key) ->
         entries <> [])
  /\ List.NoDup (map fst (_build_time_strike_map markets title_key)).
Proof.
  pose proof (build_time_strike_map_keys markets title_key) as Hnd.
  repeat apply conj.
  - intros slot. apply build_time_strike_map_slot.
  - intros slot entries. split.
    + apply time_map_get_In.
    + apply time_map_get_of_In. exact Hnd.
  - intros slot entries Hin.
    apply (proj2 (build_time_strike_map_slot markets title_key slot)).
    apply time_map_get_of_In; assumption.
  - exact Hnd.
Qed.

(** X20.  With both feeds fetched, a match is returned exactly when its
    two markets come from the two feeds, their titles parse to the match's
    strikes and to one and the same time slot, the strike difference is the
    absolute difference of the strikes, and it is at most the threshold. *)
Theorem find_matching_markets_matches (self : MarketMonitor)
    (lim_markets poly_markets : list Market) (m : MarketMatch) :
  outcome (get_active_hourly_markets (limitless_client self)) = Ok lim_markets ->
  outcome (get_active_hourly_markets (polymarket_client self)) = Ok poly_markets ->
  (In m (find_matching_markets self)
   <-> In (limitless m) lim_markets
       /\ In (polymarket m) poly_markets
       /\ parse_strike_and_time (default "" (fields (limitless m) !! "title"))
          = Some (strike_limitless m, time m)
       /\ parse_strike_and_time (default "" (fields (polymarket m) !! "question"))
          = Some (strike_polymarket m, time m)
       /\ strike_diff m = Dec.abs (Dec.sub (strike_limitless m) (strike_polymarket m))
       /\ (value (strike_diff m) <= value (max_strike_diff self))%Q).
Proof.
  intros Hl Hp.
  rewrite (find_matching_markets_fetched self _ _ Hl Hp), match_time_maps_spec.
  rewrite in_flat_map. split.
  - intros ([slot lims] & Hin & Hm).
    destruct (time_map_get slot (_build_time_strike_map poly_markets "question"))
      as [polys|] eqn:Hpolys; [|contradiction].
    apply qualifying_pairs_inv in Hm.
    destruct Hm as (Il & Ip & Hd & Hq & Ht). subst slot.
    apply time_map_get_of_In in Hin; [|apply build_time_strike_map_keys].
    destruct (proj1 (time_strike_map_entries lim_markets "title" (time m)
                       (strike_limitless m) (limitless m))) as [? ?]; [eauto|].
    destruct (proj1 (time_strike_map_entries poly_markets "question" (time m)
                       (strike_polymarket m) (polymarket m))) as [? ?]; [eauto|].
    repeat split; try assumption. apply leb_le. exact Hq.
  - intros (Il & Ip & Pl & Pp & Hd & Hq).
    destruct (proj2 (time_strike_map_entries lim_markets "title" (time m)
                       (strike_limitless m) (limitless m)) (conj Il Pl))
      as (lims & Hlims & Hinl).
    destruct (proj2 (time_strike_map_entries poly_markets "question" (time m)
                       (strike_polymarket m) (polymarket m)) (conj Ip Pp))
      as (polys & Hpolys & Hinp).
    exists (time m, lims). split; [apply time_map_get_In; exact Hlims|].
    rewrite Hpolys.
    assert (Hq' : Dec.leb (Dec.abs (Dec.sub (strike_limitless m) (strike_polymarket m)))
                    (max_strike_diff self) = true)
      by (apply leb_le; rewrite <- Hd; exact Hq).
    pose proof (qualifying_pairs_In self (time m) lims polys _ _ _ _ Hinl Hinp Hq') as H.
    destruct m as [lm pm ls ps d t]. cbn in *. subst d. exact H.
Qed.

Lemma find_matching_markets_matches_witness :
  In Samples.matched (find_matching_markets Samples.monitor_ok)
  <-> In (limitless Samples.matched) [Samples.lim_95000]
      /\ In (polymarket Samples.matched) [Samples.poly_95200]
      /\ parse_strike_and_time
           (default "" (fields (limitless Samples.matched) !! "title"))
         = Some (strike_limitless Samples.matched, time Samples.matched)
      /\ parse_strike_and_time
           (default "" (fields (polymarket Samples.matched) !! "question"))
         = Some (strike_polymarket Samples.matched, time Samples.matched)
      /\ strike_diff Samples.matched
         = Dec.abs (Dec.sub (strike_limitless Samples.matched)
                            (strike_polymarket Samples.matched))
      /\ (value (strike_diff Samples.matched)
          <= value (max_strike_diff Samples.monitor_ok))%Q.
Proof.
  apply (find_matching_markets_matches Samples.monitor_ok
           [Samples.lim_95000] [Samples.poly_95200] Samples.matched);
    reflexivity.
Defined.

(** *** Text and its code points *)

Ltac by_cases :=
  repeat (match goal with
          | |- context [N.ltb ?a ?b] => destruct (N.ltb_spec a b); try lia
          | |- context [N.leb ?a ?b] => destruct (N.leb_spec a b); try lia
          end; cbn [andb]).

Lemma utf8_decode_encode (c : N) (bytes : list N) :
  (c < 1114112)%N ->
  utf8_decode (utf8_encode c ++ bytes) = c :: utf8_decode bytes.
Proof.
  intros Hc. unfold utf8_encode.
  pose proof (N.div_mod' c 64) as E1. pose proof (N.mod_lt c 64 ltac:(lia)) as B1.
  pose proof (N.div_mod' (c / 64) 64) as E2.
  pose proof (N.mod_lt (c / 64) 64 ltac:(lia)) as B2.
  pose proof (N.div_mod' (c / 64 / 64) 64) as E3.
  pose proof (N.mod_lt (c / 64 / 64) 64 ltac:(lia)) as B3.
  replace (c / 4096)%N with (c / 64 / 64)%N by (rewrite N.Div0.div_div; reflexivity).
  replace (c / 262144)%N with (c / 64 / 64 / 64)%N
    by (rewrite !N.Div0.div_div; reflexivity).
  set (r1 := (c mod 64)%N) in *. set (q1 := (c / 64)%N) in *.
  set (r2 := (q1 mod 64)%N) in *. set (q2 := (q1 / 64)%N) in *.
  set (r3 := (q2 mod 64)%N) in *. set (q3 := (q2 / 64)%N) in *.
  clearbody r1 q1 r2 q2 r3 q3.
  destruct (N.ltb_spec c 128).
  { cbn [app utf8_decode]. by_cases. reflexivity. }
  destruct (N.ltb_spec c 2048).
  { cbn [app utf8_decode]. unfold continuation. by_cases. f_equal. lia. }
  destruct (N.ltb_spec c 65536).
  { cbn [app utf8_decode]. unfold continuation. by_cases. f_equal. lia. }
  cbn [app utf8_decode]. unfold continuation. by_cases. f_equal. lia.
Qed.

Lemma utf8_encode_bytes (c : N) :
  (c < 1114112)%N -> Forall (fun b => (b < 256)%N) (utf8_encode c).
Proof.
  intros Hc. unfold utf8_encode.
  pose proof (N.mod_lt c 64 ltac:(lia)).
  pose proof (N.mod_lt (c / 64) 64 ltac:(lia)).
  pose proof (N.mod_lt (c / 4096) 64 ltac:(lia)).
  assert (c < 2048 -> c / 64 < 32)%N by (intros; apply N.Div0.div_lt_upper_bound; lia).
  assert (c < 65536 -> c / 4096 < 16)%N by (intros; apply N.Div0.div_lt_upper_bound; lia).
  assert (c / 262144 < 5)%N by (apply N.Div0.div_lt_upper_bound; lia).
  destruct (N.ltb_spec c 128); [repeat constructor; lia|].
  destruct (N.ltb_spec c 2048); [repeat constructor; lia|].
  destruct (N.ltb_spec c 65536); repeat constructor; lia.
Qed.

(** Writing code points and reading them back gives the same code
    points. *)
Lemma code_points_text (cs : list N) :
  Forall (fun c => (c < 1114112)%N) cs -> code_points (text cs) = cs.
Proof.
  intros H. unfold code_points, text.
  rewrite list_ascii_of_string_of_list_ascii, map_map.
  assert (E : forall bs, Forall (fun b => (b < 256)%N) bs ->
                         map (fun b => N_of_ascii (ascii_of_N b)) bs = bs).
  { induction 1 as [|b bs Hb _ IH]; [reflexivity|].
    cbn [map]. rewrite (N_ascii_embedding b Hb), IH. reflexivity. }
  rewrite E.
  - induction H as [|c cs Hc _ IH]; [reflexivity|].
    cbn [flat_map]. rewrite (utf8_decode_encode c _ Hc), IH. reflexivity.
  - induction H as [|c cs Hc _ IH]; [constructor|].
    cbn [flat_map]. apply Forall_app. split; [apply utf8_encode_bytes; exact Hc|exact IH].
Qed.

Lemma decimal_digit_spec (c d : N) :
  decimal_digit c = Some d ->
  (d < 10)%N /\ In (c - d)%N decimal_zeros /\ (d <= c)%N.
Proof.
  unfold decimal_digit.
  destruct (List.find _ decimal_zeros) as [zero|] eqn:F; [|discriminate].
  intros [= <-]. apply find_some in F. destruct F as [Hin Hc].
  apply andb_true_iff in Hc. destruct Hc as [H1 H2].
  apply N.leb_le in H1. apply N.ltb_lt in H2.
  replace (c - (c - zero))%N with zero by lia. repeat split; [lia|exact Hin|lia].
Qed.

Lemma is_digit_code_point (c : N) : is_digit c = true -> (c < 1114112)%N.
Proof.
  unfold is_digit. destruct (decimal_digit c) as [d|] eqn:E; [|discriminate].
  intros _. destruct (decimal_digit_spec _ _ E) as (Hd & Hin & Hle).
  assert (B : forallb (fun zero => (zero <=? 130032)%N) decimal_zeros = true)
    by reflexivity.
  rewrite forallb_forall in B. specialize (B _ Hin). apply N.leb_le in B. lia.
Qed.

(** *** The two regular expressions *)

Lemma span_digits_spec (s ds r : list N) :
  span_digits s = (ds, r) ->
  s = (ds ++ r)%list /\ forallb is_digit ds = true
  /\ match r with c :: _ => is_digit c = false | [] => True end.
Proof.
  revert ds r. induction s as [|c s IH]; cbn [span_digits]; intros ds r.
  - intros [= <- <-]. repeat split.
  - destruct (is_digit c) eqn:D.
    + destruct (span_digits s) as [ds' r'] eqn:E. intros [= <- <-].
      destruct (IH ds' r' eq_refl) as (-> & F & Hr).
      cbn [forallb app]. rewrite D, F. repeat split. exact Hr.
    + intros [= <- <-]. repeat split. exact D.
Qed.

Lemma comma_groups_spec (s gs r : list N) :
  comma_groups s = (gs, r) ->
  s = (gs ++ r)%list
  /\ exists groups,
       gs = flat_map (cons (ord ",")) groups
       /\ Forall (fun group => length group = 3%nat /\ forallb is_digit group = true)
                 groups.
Proof.
  remember (length s) as n eqn:Hn. revert s Hn gs r.
  induction n as [n IH] using lt_wf_ind. intros s Hn gs r.
  destruct s as [|c0 [|a [|b [|c rest]]]]; cbn [comma_groups];
    try (intros [= <- <-]; split; [reflexivity|exists []; split; [reflexivity|constructor]]).
  destruct ((c0 =? ord ",")%N && is_digit a && is_digit b && is_digit c) eqn:G.
  - destruct (comma_groups rest) as [gs' r'] eqn:E. intros [= <- <-].
    destruct (IH (length rest) ltac:(subst n; cbn [length]; lia) rest eq_refl gs' r' E)
      as (-> & groups & -> & F).
    apply andb_true_iff in G. destruct G as [G Dc].
    apply andb_true_iff in G. destruct G as [G Db].
    apply andb_true_iff in G. destruct G as [G Da].
    apply N.eqb_eq in G. subst c0.
    split; [reflexivity|]. exists ([a; b; c] :: groups). split; [reflexivity|].
    constructor; [|exact F]. cbn [forallb length]. rewrite Da, Db, Dc. split; reflexivity.
  - intros [= <- <-]. split; [reflexivity|]. exists []. split; [reflexivity|constructor].
Qed.

Lemma cents_group_spec (s : list N) :
  cents_group s = []
  \/ exists a b r, s = ord "." :: a :: b :: r /\ cents_group s = [ord "."; a; b]
                   /\ is_digit a = true /\ is_digit b = true.
Proof.
  destruct s as [|c0 [|a [|b r]]]; cbn [cents_group]; try (left; reflexivity).
  destruct ((c0 =? ord ".")%N && is_digit a && is_digit b) eqn:G; [|left; reflexivity].
  apply andb_true_iff in G. destruct G as [G Db].
  apply andb_true_iff in G. destruct G as [G Da].
  apply N.eqb_eq in G. subst c0. right. exists a, b, r. repeat split; assumption.
Qed.

Lemma cents_group_prefix (s : list N) : exists r, s = (cents_group s ++ r)%list.
Proof.
  destruct (cents_group_spec s) as [E|(a & b & r & -> & E & _)]; rewrite E.
  - exists s. reflexivity.
  - exists r. reflexivity.
Qed.

Lemma strike_match_at_spec (s g : list N) :
  strike_match_at s = Some g ->
  strike_text g /\ exists rest, s = (ord "$" :: g ++ rest)%list.
Proof.
  unfold strike_match_at. destruct s as [|c0 s]; [discriminate|].
  destruct (N.eqb_spec c0 (ord "$")) as [->|]; [|discriminate].
  destruct (span_digits s) as [ds r1] eqn:E1.
  destruct ds as [|d ds]; [discriminate|].
  destruct (comma_groups r1) as [gs r2] eqn:E2. intros [= <-].
  destruct (span_digits_spec _ _ _ E1) as (-> & F1 & _).
  destruct (comma_groups_spec _ _ _ E2) as (-> & groups & -> & F2).
  destruct (cents_group_prefix r2) as (rest & Hr). split.
  - exists (d :: ds), groups, (cents_group r2).
    repeat apply conj; try assumption; try reflexivity; [discriminate|].
    destruct (cents_group_spec r2) as [E|(a & b & r & _ & E & Da & Db)]; rewrite E;
      [left; reflexivity|right; eauto].
  - exists rest. rewrite Hr at 1. cbn [app]. rewrite <- !app_assoc. reflexivity.
Qed.

Lemma strike_search_spec (s g : list N) :
  strike_search s = Some g ->
  strike_text g /\ exists pre rest, s = (pre ++ ord "$" :: g ++ rest)%list.
Proof.
  induction s as [|c s IH].
  - cbn. discriminate.
  - cbn [strike_search]. destruct (strike_match_at (c :: s)) as [g'|] eqn:M.
    + intros [= ->]. destruct (strike_match_at_spec _ _ M) as (T & rest & E).
      split; [exact T|]. exists [], rest. exact E.
    + intros H. destruct (IH H) as (T & pre & rest & ->).
      split; [exact T|]. exists (c :: pre), rest. reflexivity.
Qed.

Lemma is_digit_not_comma (c : N) : is_digit c = true -> (c =? ord ",")%N = false.
Proof. intros D. destruct (N.eqb_spec c (ord ",")); [subst c; discriminate|reflexivity]. Qed.

Lemma is_digit_not_point (c : N) : is_digit c = true -> N.eqb (ord ".") c = false.
Proof. intros D. destruct (N.eqb_spec (ord ".") c); [subst c; discriminate|reflexivity]. Qed.

Lemma filter_digits_commas (l : list N) :
  forallb is_digit l = true ->
  List.filter (fun c => negb (c =? ord ",")%N) l = l
  /\ List.filter is_digit l = l /\ existsb (N.eqb (ord ".")) l = false.
Proof.
  induction l as [|c l IH]; cbn [forallb List.filter existsb]; [repeat split|].
  intros H. apply andb_true_iff in H. destruct H as [D F].
  destruct (IH F) as (E1 & E2 & E3).
  rewrite (is_digit_not_comma c D), (is_digit_not_point c D), D, E1, E2, E3.
  repeat split.
Qed.

Lemma filter_comma_groups (l : list N) :
  forallb comma_or_digit l = true ->
  List.filter (fun c => negb (c =? ord ",")%N) l = List.filter is_digit l
  /\ existsb (N.eqb (ord ".")) l = false.
Proof.
  induction l as [|c l IH]; cbn [forallb List.filter existsb]; [repeat split|].
  intros H. apply andb_true_iff in H. destruct H as [D F].
  destruct (IH F) as (E1 & E2). rewrite E1, E2. unfold comma_or_digit in D.
  destruct (N.eqb_spec c (ord ",")) as [->|Hne]; cbn [negb orb] in *.
  - repeat split.
  - rewrite D, (is_digit_not_point c D). repeat split.
Qed.

Lemma forallb_filter_id {A : Type} (f : A -> bool) (l : list A) :
  forallb f (List.filter f l) = true.
Proof.
  induction l as [|x l IH]; [reflexivity|]. cbn [List.filter].
  destruct (f x) eqn:E; [|exact IH]. cbn [forallb]. rewrite E, IH. reflexivity.
Qed.

Lemma filter_groups (groups : list (list N)) :
  Forall (fun g => length g = 3%nat /\ forallb is_digit g = true) groups ->
  forallb comma_or_digit (flat_map (cons (ord ",")) groups) = true
  /\ List.filter is_digit (flat_map (cons (ord ",")) groups) = concat groups.
Proof.
  induction 1 as [|g groups [_ Hd] _ [IH1 IH2]]; [split; reflexivity|].
  cbn [flat_map concat]. change (ord "," :: g) with ([ord ","] ++ g)%list.
  rewrite !forallb_app, !List.filter_app, IH1, IH2.
  destruct (filter_digits_commas g Hd) as (_ & E & _). rewrite E. split; [|reflexivity].
  cbn [forallb]. rewrite andb_true_r. cbn [andb].
  clear -Hd. induction g as [|x g IH]; [reflexivity|].
  cbn [forallb] in *. apply andb_true_iff in Hd. destruct Hd as [Dx Hd].
  assert (Ex : comma_or_digit x = true)
    by (unfold comma_or_digit; rewrite Dx; apply orb_true_r).
  rewrite Ex. apply IH. exact Hd.
Qed.

Lemma span_digits_app (ds r : list N) :
  forallb is_digit ds = true ->
  match r with c :: _ => is_digit c = false | [] => True end ->
  span_digits (ds ++ r) = (ds, r).
Proof.
  intros F Hr. induction ds as [|c ds IH]; cbn [app].
  - destruct r as [|c r]; [reflexivity|]. cbn [span_digits]. rewrite Hr. reflexivity.
  - cbn [forallb] in F. apply andb_true_iff in F. destruct F as [D F].
    cbn [span_digits]. rewrite D, (IH F). reflexivity.
Qed.

(** [Decimal(...)] of a strike text with its commas removed: the digits of
    the text read as one whole number, two of them decimals when the text has
    a point. *)
Lemma decimal_of_strike_text (g : list N) :
  strike_text g ->
  decimal_of_text (List.filter (fun c => negb (c =? ord ",")%N) g)
  = mkDecimal false (digits_value (List.filter is_digit g))
              (if existsb (N.eqb (ord ".")) g then -2 else 0).
Proof.
  intros (ds & groups & cs & -> & _ & Fd & HG & Hcs).
  destruct (filter_groups groups HG) as [Fg _].
  set (gs := flat_map (cons (ord ",")) groups) in *.
  destruct (filter_digits_commas ds Fd) as (E1 & E2 & E3).
  destruct (filter_comma_groups gs Fg) as (E4 & E5).
  rewrite !List.filter_app, !existsb_app, E1, E2, E3, E4, E5. cbn [orb].
  assert (FD : forallb is_digit (ds ++ List.filter is_digit gs) = true)
    by (rewrite forallb_app, Fd, forallb_filter_id; reflexivity).
  unfold decimal_of_text. rewrite app_assoc.
  destruct Hcs as [->|(a & b & -> & Da & Db)].
  - cbn [List.filter existsb].
    rewrite (span_digits_app _ [] FD I), !app_nil_r. reflexivity.
  - assert (Ecs1 : List.filter (fun c => negb (c =? ord ",")%N) [ord "."; a; b]
                   = [ord "."; a; b]).
    { cbn [List.filter].
      rewrite (is_digit_not_comma a Da), (is_digit_not_comma b Db). reflexivity. }
    assert (Ecs2 : List.filter is_digit [ord "."; a; b] = [a; b]).
    { cbn [List.filter]. rewrite Da, Db. reflexivity. }
    assert (Ecs3 : existsb (N.eqb (ord ".")) [ord "."; a; b] = true) by reflexivity.
    rewrite Ecs1, Ecs2, Ecs3.
    rewrite (span_digits_app _ [ord "."; a; b] FD eq_refl).
    rewrite <- app_assoc. reflexivity.
Qed.

(** *** TIME_REGEX *)

Lemma utc_follows_spec (s : list N) :
  utc_follows s = true ->
  exists ws post, s = (ws ++ ord "U" :: ord "T" :: ord "C" :: post)%list
                  /\ forallb is_space ws = true.
Proof.
  induction s as [|c s IH]; cbn [utc_follows]; [discriminate|].
  destruct (is_space c) eqn:Sp.
  - intros H. destruct (IH H) as (ws & post & -> & F).
    exists (c :: ws), post. cbn [forallb app]. rewrite Sp, F. split; reflexivity.
  - destruct s as [|t [|c' post]]; try discriminate.
    intros H. apply andb_true_iff in H. destruct H as [H Hc].
    apply andb_true_iff in H. destruct H as [Hu Ht].
    apply N.eqb_eq in Hu, Ht, Hc. subst.
    exists [], post. split; reflexivity.
Qed.

Lemma time_match_at_spec (s g : list N) :
  time_match_at s = Some g ->
  time_text g /\ exists rest, s = (g ++ rest)%list /\ utc_follows rest = true.
Proof.
  unfold time_match_at.
  assert (Hone :
    match s with
    | a :: c0 :: c :: d :: rest =>
        if is_digit a && (c0 =? ord ":")%N && is_digit c && is_digit d && utc_follows rest
        then Some [a; c0; c; d] else None
    | _ => None
    end = Some g ->
    time_text g /\ exists rest, s = (g ++ rest)%list /\ utc_follows rest = true).
  { destruct s as [|a [|c0 [|c [|d rest]]]]; try discriminate.
    destruct (is_digit a && (c0 =? ord ":")%N && is_digit c && is_digit d
              && utc_follows rest) eqn:G; [|discriminate].
    intros [= <-].
    apply andb_true_iff in G. destruct G as [G U].
    apply andb_true_iff in G. destruct G as [G Dd].
    apply andb_true_iff in G. destruct G as [G Dc].
    apply andb_true_iff in G. destruct G as [Da G].
    apply N.eqb_eq in G. subst c0. split.
    - exists [a], c, d. cbn [forallb length app]. rewrite Da. repeat split; auto.
    - exists rest. split; [reflexivity|exact U]. }
  destruct s as [|a [|b [|c0 [|c [|d rest]]]]]; try exact Hone.
  destruct (is_digit a && is_digit b && (c0 =? ord ":")%N && is_digit c && is_digit d
            && utc_follows rest) eqn:G; [|exact Hone].
  intros [= <-].
  apply andb_true_iff in G. destruct G as [G U].
  apply andb_true_iff in G. destruct G as [G Dd].
  apply andb_true_iff in G. destruct G as [G Dc].
  apply andb_true_iff in G. destruct G as [G E].
  apply andb_true_iff in G. destruct G as [Da Db].
  apply N.eqb_eq in E. subst c0. split.
  - exists [a; b], c, d. cbn [forallb length app]. rewrite Da, Db. repeat split; auto.
  - exists rest. split; [reflexivity|exact U].
Qed.

Lemma time_search_spec (s g : list N) :
  time_search s = Some g ->
  time_text g
  /\ exists pre ws post,
       s = (pre ++ g ++ ws ++ ord "U" :: ord "T" :: ord "C" :: post)%list
       /\ forallb is_space ws = true.
Proof.
  assert (Hat : forall s, time_match_at s = Some g ->
                          time_text g
                          /\ exists pre ws post,
                               s = (pre ++ g ++ ws ++ ord "U" :: ord "T" :: ord "C" :: post)%list
                               /\ forallb is_space ws = true).
  { clear s. intros s M. destruct (time_match_at_spec _ _ M) as (T & rest & -> & U).
    destruct (utc_follows_spec _ U) as (ws & post & -> & F).
    split; [exact T|]. exists [], ws, post. split; [reflexivity|exact F]. }
  induction s as [|c s IH].
  - cbn [time_search]. destruct (time_match_at []) eqn:M; [|discriminate].
    intros [= ->]. apply Hat. exact M.
  - cbn [time_search]. destruct (time_match_at (c :: s)) as [g'|] eqn:M.
    + intros [= ->]. apply Hat. exact M.
    + intros H. destruct (IH H) as (T & pre & ws & post & -> & F).
      split; [exact T|]. exists (c :: pre), ws, post. split; [reflexivity|exact F].
Qed.

(** The code points of a time text are code points of Unicode. *)
Lemma time_text_code_points (g : list N) :
  time_text g -> Forall (fun c => (c < 1114112)%N) g.
Proof.
  intros (h & c & d & -> & _ & Fh & Dc & Dd).
  apply Forall_app. split.
  - apply List.Forall_forall. intros x Hx. apply is_digit_code_point.
    rewrite forallb_forall in Fh. apply Fh. exact Hx.
  - repeat constructor; try (apply is_digit_code_point; assumption).
Qed.

(** X21.  What [parse_strike_and_time] returns was read off the title,
    taken as the code points of a [str]: the strike is the text after a
    dollar sign (decimal digits of any script, comma groups, an optional
    point and two digits) with its digits read as one whole number, each
    digit for the value it stands for, the commas ignored, and two decimals
    when the point is there (so it is never negative); the time is a text
    [h:mm] or [hh:mm] of the title, in decimal digits of any script, that is
    followed, after optional Unicode white space, by UTC.  A title with no
    dollar sign or without UTC is not parsed. *)
Theorem parse_strike_and_time_shape (title : string) (strike : Decimal)
    (time_slot : string) :
  parse_strike_and_time title = Some (strike, time_slot) ->
  (exists pre g rest,
      code_points title = (pre ++ ord "$" :: g ++ rest)%list
      /\ strike_text g
      /\ strike = mkDecimal false (digits_value (List.filter is_digit g))
                            (if existsb (N.eqb (ord ".")) g then -2 else 0))
  /\ (exists pre ws post,
         code_points title
         = (pre ++ code_points time_slot
                ++ ws ++ ord "U" :: ord "T" :: ord "C" :: post)%list
         /\ forallb is_space ws = true
         /\ time_text (code_points time_slot)).
Proof.
  unfold parse_strike_and_time.
  destruct (strike_search (code_points title)) as [g|] eqn:S; [|discriminate].
  destruct (time_search (code_points title)) as [t|] eqn:T; [|discriminate].
  intros [= <- <-].
  destruct (strike_search_spec _ _ S) as (Hg & pre & rest & E).
  destruct (time_search_spec _ _ T) as (Ht & pre' & ws & post & E' & F).
  rewrite (code_points_text t (time_text_code_points t Ht)). split.
  - exists pre, g, rest. repeat split; try assumption.
    apply decimal_of_strike_text. exact Hg.
  - exists pre', ws, post. repeat split; assumption.
Qed.

Lemma parse_strike_and_time_shape_witness :
  (exists pre g rest,
      code_points "BTC above $95,200.00 at 14:00 UTC?"
      = (pre ++ ord "$" :: g ++ rest)%list
      /\ strike_text g
      /\ mkDecimal false 9520000 (-2)
         = mkDecimal false (digits_value (List.filter is_digit g))
                     (if existsb (N.eqb (ord ".")) g then -2 else 0))
  /\ (exists pre ws post,
         code_points "BTC above $95,200.00 at 14:00 UTC?"
         = (pre ++ code_points "14:00"
                ++ ws ++ ord "U" :: ord "T" :: ord "C" :: post)%list
         /\ forallb is_space ws = true
         /\ time_text (code_points "14:00")).
Proof.
  apply (parse_strike_and_time_shape "BTC above $95,200.00 at 14:00 UTC?"
           (mkDecimal false 9520000 (-2)) "14:00").
  vm_compute. reflexivity.
Defined.

(** *** Titles of the expected form are read in full *)

Lemma strike_search_skip (pre s : list N) :
  forallb (fun x => negb (x =? ord "$")%N) pre = true ->
  strike_search (pre ++ s) = strike_search s.
Proof.
  induction pre as [|x pre IH]; cbn [forallb app]; [reflexivity|].
  intros H. apply andb_true_iff in H. destruct H as [Hx F].
  apply negb_true_iff in Hx.
  cbn [strike_search]. unfold strike_match_at. rewrite Hx. apply IH. exact F.
Qed.

Lemma strike_search_at (s g : list N) :
  strike_match_at s = Some g -> strike_search s = Some g.
Proof. intros H. destruct s; cbn [strike_search]; rewrite H; reflexivity. Qed.

Lemma comma_groups_stop (r : list N) :
  match r with x :: _ => x <> ord "," | [] => True end -> comma_groups r = ([], r).
Proof.
  destruct r as [|c0 [|a [|b [|c rest]]]]; try reflexivity.
  intros H. cbn [comma_groups].
  destruct (N.eqb_spec c0 (ord ",")); [contradiction|reflexivity].
Qed.

Lemma comma_groups_app (groups : list (list N)) (r : list N) :
  Forall (fun g => length g = 3%nat /\ forallb is_digit g = true) groups ->
  match r with x :: _ => x <> ord "," | [] => True end ->
  comma_groups (flat_map (cons (ord ",")) groups ++ r) = (flat_map (cons (ord ",")) groups, r).
Proof.
  intros HG Hr. induction HG as [|g groups [Hl Hd] _ IH]; cbn [flat_map app].
  - apply comma_groups_stop. exact Hr.
  - destruct g as [|a [|b [|c [|? ?]]]]; try discriminate.
    cbn [forallb] in Hd.
    apply andb_true_iff in Hd. destruct Hd as [Da Hd].
    apply andb_true_iff in Hd. destruct Hd as [Db Hd].
    apply andb_true_iff in Hd. destruct Hd as [Dc _].
    cbn [app comma_groups]. rewrite Da, Db, Dc, IH. reflexivity.
Qed.

Lemma cents_group_app (cs rest : list N) :
  cs = [] \/ (exists a b, cs = [ord "."; a; b] /\ is_digit a = true /\ is_digit b = true) ->
  match rest with x :: _ => x <> ord "." | [] => True end ->
  cents_group (cs ++ rest) = cs.
Proof.
  intros [->|(a & b & -> & Da & Db)] Hr.
  - cbn [app]. destruct rest as [|c0 [|a [|b r]]]; try reflexivity.
    cbn [cents_group]. destruct (N.eqb_spec c0 (ord ".")); [contradiction|reflexivity].
  - cbn [app cents_group]. rewrite Da, Db. reflexivity.
Qed.

Lemma strike_match_at_reads (ds : list N) (groups : list (list N))
    (cs rest : list N) :
  ds <> [] -> forallb is_digit ds = true ->
  Forall (fun g => length g = 3%nat /\ forallb is_digit g = true) groups ->
  cs = [] \/ (exists a b, cs = [ord "."; a; b] /\ is_digit a = true /\ is_digit b = true) ->
  match rest with
  | x :: _ => is_digit x = false /\ x <> ord "," /\ x <> ord "."
  | [] => True
  end ->
  strike_match_at (ord "$" :: ds ++ flat_map (cons (ord ",")) groups ++ cs ++ rest)
  = Some (ds ++ flat_map (cons (ord ",")) groups ++ cs)%list.
Proof.
  intros Hne Fd HG Hcs Hrest. unfold strike_match_at. cbn [N.eqb Bool.eqb].
  assert (R1 : match (cs ++ rest)%list with x :: _ => x <> ord "," | [] => True end).
  { destruct Hcs as [->|(a & b & -> & _)]; cbn [app]; [|discriminate].
    destruct rest; [exact I|tauto]. }
  assert (R2 : match rest with x :: _ => x <> ord "." | [] => True end)
    by (destruct rest; [exact I|tauto]).
  assert (R3 : match (flat_map (cons (ord ",")) groups ++ cs ++ rest)%list with
               | x :: _ => is_digit x = false
               | [] => True
               end).
  { destruct groups as [|g groups]; cbn [flat_map app]; [|reflexivity].
    destruct Hcs as [->|(a & b & -> & _)]; cbn [app]; [|reflexivity].
    destruct rest; [exact I|tauto]. }
  rewrite (span_digits_app ds _ Fd R3).
  destruct ds as [|d0 ds]; [contradiction|].
  rewrite (comma_groups_app groups _ HG R1), (cents_group_app cs rest Hcs R2).
  reflexivity.
Qed.

Lemma utc_follows_intro (ws post : list N) :
  forallb is_space ws = true -> utc_follows (ws ++ ord "U" :: ord "T" :: ord "C" :: post) = true.
Proof.
  induction ws as [|x ws IH]; cbn [forallb app]; [reflexivity|].
  intros H. apply andb_true_iff in H. destruct H as [Sx F].
  cbn [utc_follows]. rewrite Sx. apply IH. exact F.
Qed.

Lemma time_match_at_reads (h : list N) (c d : N) (rest : list N) :
  (length h = 1 \/ length h = 2)%nat ->
  forallb is_digit (h ++ [c; d]) = true ->
  utc_follows rest = true ->
  time_match_at (h ++ ord ":" :: c :: d :: rest) = Some (h ++ [ord ":"; c; d])%list.
Proof.
  intros Hl Fd U. destruct h as [|a [|b [|? ?]]]; cbn [length] in Hl; try lia.
  - cbn [forallb app] in *.
    apply andb_true_iff in Fd. destruct Fd as [Da Fd].
    apply andb_true_iff in Fd. destruct Fd as [Dc Fd].
    apply andb_true_iff in Fd. destruct Fd as [Dd _].
    unfold time_match_at. destruct rest as [|x rest]; [discriminate|].
    change (is_digit (ord ":")) with false. rewrite Da, Dc, Dd, U.
    cbn [andb]. rewrite N.eqb_refl. reflexivity.
  - cbn [forallb app] in *.
    apply andb_true_iff in Fd. destruct Fd as [Da Fd].
    apply andb_true_iff in Fd. destruct Fd as [Db Fd].
    apply andb_true_iff in Fd. destruct Fd as [Dc Fd].
    apply andb_true_iff in Fd. destruct Fd as [Dd _].
    unfold time_match_at. rewrite Da, Db, Dc, Dd, U, N.eqb_refl. reflexivity.
Qed.

Lemma time_search_at (s g : list N) :
  time_match_at s = Some g -> time_search s = Some g.
Proof. intros H. destruct s; cbn [time_search]; rewrite H; reflexivity. Qed.

Lemma time_search_skip (pre h : list N) (tail : list N) :
  forallb (fun x => negb (x =? ord ":")%N) pre = true ->
  h <> [] -> forallb is_digit h = true ->
  (length h = 2%nat
   \/ forall p x, pre = (p ++ [x])%list -> is_digit x = false) ->
  time_search (pre ++ h ++ ord ":" :: tail) = time_search (h ++ ord ":" :: tail).
Proof.
  intros F Hne Fh Hend. induction pre as [|x pre IH]; [reflexivity|].
  cbn [forallb] in F. apply andb_true_iff in F. destruct F as [Hx F].
  apply negb_true_iff in Hx.
  assert (Hend' : length h = 2%nat
                  \/ forall p y, pre = (p ++ [y])%list -> is_digit y = false).
  { destruct Hend as [?|H]; [left; assumption|right].
    intros p y ->. apply (H (x :: p) y). reflexivity. }
  rewrite <- (IH F Hend'). cbn [app time_search].
  destruct (time_match_at (x :: pre ++ h ++ ord ":" :: tail)) as [g|] eqn:M; [exfalso|reflexivity].
  destruct (time_match_at_spec _ _ M) as ((h' & c' & d' & -> & Hl' & Fh' & _) & rest & E & _).
  destruct h as [|a h]; [contradiction|].
  cbn [forallb] in Fh. apply andb_true_iff in Fh. destruct Fh as [Da Fh].
  assert (Na : a <> ord ":") by (intros ->; discriminate).
  destruct h' as [|a' [|b' [|? ?]]]; cbn [length] in Hl'; try lia.
  - (* one digit, then the colon at index 1 *)
    cbn [app] in E. destruct pre as [|y pre]; cbn [app] in E.
    + injection E as _ E _. contradiction.
    + injection E as _ E _. subst y.
      cbn [forallb] in F. discriminate.
  - (* two digits, then the colon at index 2 *)
    cbn [app forallb] in E, Fh'.
    apply andb_true_iff in Fh'. destruct Fh' as [Da' Fh'].
    apply andb_true_iff in Fh'. destruct Fh' as [Db' _].
    destruct pre as [|y [|z pre]]; cbn [app] in E.
    + destruct h as [|b h]; cbn [app] in E.
      * (* a one-digit hour right after [x], which is a digit *)
        injection E as E1 E2 _. subst.
        destruct Hend as [Hl|H]; [discriminate|].
        rewrite (H [] a' eq_refl) in Da'. discriminate.
      * injection E as _ _ E _. subst b.
        cbn [forallb] in Fh. discriminate.
    + injection E as _ _ E _. contradiction.
    + injection E as _ _ E _. subst z.
      cbn [forallb] in F. apply andb_true_iff in F. destruct F as [_ F].
      cbn [forallb] in F. discriminate.
Qed.

(** X22.  A title of the expected form is read in full, the title taken as
    the code points of a [str] and a digit being a decimal digit of any
    script.  The form: after the first dollar sign come digits, any number
    of groups of a comma and three digits and possibly a point and two
    digits, and then the end of the title or a character that is no digit,
    comma or point; and the first colon of the title has before it an hour
    of one or two digits (one digit only when no digit precedes it) and
    after it two digits, optional Unicode white space and UTC.  The strike
    returned is the number written, each digit read for the value it stands
    for and the commas ignored, with two decimals when the point is there;
    the time returned is the hour, the colon and the two digits as the title
    has them. *)
Theorem parse_strike_and_time_reads (title : string)
    (pre ds : list N) (groups : list (list N)) (cs rest : list N)
    (pre' h : list N) (c d : N) (ws post : list N) :
  code_points title
  = (pre ++ ord "$" :: ds ++ flat_map (cons (ord ",")) groups ++ cs ++ rest)%list ->
  forallb (fun x => negb (x =? ord "$")%N) pre = true ->
  ds <> [] -> forallb is_digit ds = true ->
  Forall (fun g => length g = 3%nat /\ forallb is_digit g = true) groups ->
  cs = [] \/ (exists a b, cs = [ord "."; a; b] /\ is_digit a = true /\ is_digit b = true) ->
  match rest with
  | x :: _ => is_digit x = false /\ x <> ord "," /\ x <> ord "."
  | [] => True
  end ->
  code_points title
  = (pre' ++ h ++ ord ":" :: c :: d :: ws ++ ord "U" :: ord "T" :: ord "C" :: post)%list ->
  forallb (fun x => negb (x =? ord ":")%N) pre' = true ->
  forallb is_digit (h ++ [c; d]) = true ->
  (length h = 2%nat
   \/ (length h = 1%nat /\ forall p x, pre' = (p ++ [x])%list -> is_digit x = false)) ->
  forallb is_space ws = true ->
  parse_strike_and_time title
  = Some (mkDecimal false (digits_value (ds ++ concat groups ++ tl cs))
                    (match cs with [] => 0 | _ => -2 end),
          text (h ++ [ord ":"; c; d])).
Proof.
  intros Es Fpre Hne Fd HG Hcs Hrest Et Fpre' Fh Hh Fws.
  unfold parse_strike_and_time.
  assert (S : strike_search (code_points title)
              = Some (ds ++ flat_map (cons (ord ",")) groups ++ cs)%list).
  { rewrite Es, (strike_search_skip pre _ Fpre). apply strike_search_at.
    apply strike_match_at_reads; assumption. }
  assert (Hlen : (length h = 1 \/ length h = 2)%nat) by (destruct Hh as [?|[? _]]; auto).
  assert (Fh' : forallb is_digit h = true).
  { rewrite forallb_app in Fh. apply andb_true_iff in Fh. tauto. }
  assert (T : time_search (code_points title) = Some (h ++ [ord ":"; c; d])%list).
  { rewrite Et, time_search_skip; try assumption.
    - apply time_search_at. apply time_match_at_reads; try assumption.
      apply utc_follows_intro. exact Fws.
    - intros ->. cbn [length] in Hlen. lia.
    - destruct Hh as [?|[_ ?]]; auto. }
  rewrite S, T. f_equal. f_equal.
  assert (HT : strike_text (ds ++ flat_map (cons (ord ",")) groups ++ cs)).
  { exists ds, groups, cs. repeat apply conj; try assumption. reflexivity. }
  rewrite (decimal_of_strike_text _ HT).
  destruct (filter_digits_commas ds Fd) as (_ & E2 & E3).
  destruct (filter_groups groups HG) as [Fg E4].
  destruct (filter_comma_groups _ Fg) as (_ & E5).
  rewrite !List.filter_app, !existsb_app, E2, E3, E4, E5.
  destruct Hcs as [->|(a & b & -> & Da & Db)].
  - reflexivity.
  - cbn [List.filter existsb tl orb]. rewrite Da, Db. reflexivity.
Qed.

Lemma parse_strike_and_time_reads_witness :
  parse_strike_and_time "BTC above $95٩ at 14:00 UTC"
  = Some (mkDecimal false 959 0, "14:00").
Proof.
  apply (parse_strike_and_time_reads "BTC above $95٩ at 14:00 UTC"
           (code_points "BTC above ") [ord "9"; ord "5"; 1641%N] [] []
           (code_points " at 14:00 UTC")
           (code_points "BTC above $95٩ at ") [ord "1"; ord "4"]
           (ord "0") (ord "0") [ord " "] []).
  - reflexivity.
  - reflexivity.
  - discriminate.
  - reflexivity.
  - constructor.
  - left. reflexivity.
  - repeat split; discriminate.
  - reflexivity.
  - reflexivity.
  - reflexivity.
  - left. reflexivity.
  - reflexivity.
Defined.

End MonitorFacts.

(** ** The order executor *)

Module ExecutorFacts.

Import Engine Monitor Executor.
Local Open Scope string_scope.

(** What a leg's wrapper makes of the client's outcome: a confirmation, or
    None when the submission raised. *)
Lemma caught_to_None_outcome {A : Type} (t : task (option A)) :
  outcome (caught_to_None t) = Ok (try_except (outcome t) (fun _ => None))
  /\ finishes_after (caught_to_None t) = finishes_after t.
Proof. split; reflexivity. Qed.

(** Both legs submitted: the result when the wait does not time out, that
    is, when the timeout is positive and both legs finish before it has
    passed. *)
Lemma execute_arbitrage_in_time (self : OrderExecutor) (opportunity : Opportunity)
    (bet : Decimal) (match_ : MarketMatch) (token market_id : string)
    (leg_a leg_b : task (option Dict)) :
  _get_polymarket_token_id self (Monitor.polymarket match_)
                           (polymarket_side opportunity) = Some token ->
  token <> "" ->
  limitless_id match_ = Ok market_id ->
  place_order (limitless self) market_id (limitless_side opportunity) bet
              (limitless_price opportunity) = leg_a ->
  place_order (polymarket self) token "BUY" bet
              (polymarket_price opportunity) = leg_b ->
  (0 < execution_timeout self)%Z ->
  (Z.max (finishes_after leg_a) (finishes_after leg_b)
   < execution_timeout self * 1000)%Z ->
  execute_arbitrage self opportunity bet match_
  = Ok {| success :=
            dict_truthy (try_except (outcome leg_a) (fun _ => None))
            && dict_truthy (try_except (outcome leg_b) (fun _ => None));
          limitless_order := try_except (outcome leg_a) (fun _ => None);
          polymarket_order := try_except (outcome leg_b) (fun _ => None);
          error := None;
          bet_size := Some bet |}.
Proof.
  intros Htok Hne Hid Ha Hb Hpos Htime. unfold execute_arbitrage.
  rewrite Htok. assert (Ht : str_truthy (Some token) = true)
    by (destruct token; [contradiction|reflexivity]).
  rewrite Ht. cbn [negb]. rewrite Hid. cbn [bind from_option]. unfold id.
  unfold _execute_limitless_order, _execute_polymarket_order.
  rewrite Ha, Hb. unfold gather, wait_for, caught_to_None.
  cbn [outcome finishes_after].
  destruct (Z.ltb_spec 0 (execution_timeout self)); [|lia].
  destruct (Z.ltb_spec (Z.max (finishes_after leg_a) (finishes_after leg_b))
              (execution_timeout self * 1000)); [|lia].
  reflexivity.
Qed.

(** C3.  When both legs are submitted and the wait does not time out (the
    timeout is positive and both legs finish before it has passed), each
    leg's order in the result is that leg's own outcome, a raised exception
    reading as None; in particular, with leg A confirmed and leg B raising,
    the result has success false, the leg-A confirmation, no leg-B
    confirmation, and both_filled false. *)
Theorem execute_arbitrage_leg_b_raises (self : OrderExecutor)
    (opportunity : Opportunity) (bet : Decimal) (match_ : MarketMatch)
    (token market_id : string) (leg_a leg_b : task (option Dict)) :
  _get_polymarket_token_id self (Monitor.polymarket match_)
                           (polymarket_side opportunity) = Some token ->
  token <> "" ->
  limitless_id match_ = Ok market_id ->
  place_order (limitless self) market_id (limitless_side opportunity) bet
              (limitless_price opportunity) = leg_a ->
  place_order (polymarket self) token "BUY" bet
              (polymarket_price opportunity) = leg_b ->
  (0 < execution_timeout self)%Z ->
  (Z.max (finishes_after leg_a) (finishes_after leg_b)
   < execution_timeout self * 1000)%Z ->
  exists r,
    execute_arbitrage self opportunity bet match_ = Ok r
    /\ limitless_order r = try_except (outcome leg_a) (fun _ => None)
    /\ polymarket_order r = try_except (outcome leg_b) (fun _ => None)
    /\ (forall (confirmation : Dict) (e : exn),
           outcome leg_a = Ok (Some confirmation) ->
           outcome leg_b = Raise e ->
           success r = false
           /\ limitless_order r = Some confirmation
           /\ polymarket_order r = None
           /\ both_filled r = false).
Proof.
  intros Htok Hne Hid Ha Hb Hpos Htime.
  eexists. split; [eapply execute_arbitrage_in_time; eassumption|].
  cbn [limitless_order polymarket_order success].
  split; [reflexivity|]. split; [reflexivity|].
  intros confirmation e Hoa Hob. unfold both_filled.
  cbn [limitless_order polymarket_order]. rewrite Hoa, Hob. cbn [try_except dict_truthy].
  rewrite andb_false_r. repeat split; reflexivity.
Qed.

Lemma execute_arbitrage_leg_b_raises_witness :
  execute_arbitrage Samples.executor_leg_b_raises Samples.some_opportunity
                    (mkDecimal false 498 (-2)) Samples.matched
  = Ok {| success := false;
          limitless_order := Some Samples.confirmation;
          polymarket_order := None;
          error := None;
          bet_size := Some (mkDecimal false 498 (-2)) |}.
Proof.
  destruct (execute_arbitrage_leg_b_raises Samples.executor_leg_b_raises
              Samples.some_opportunity (mkDecimal false 498 (-2)) Samples.matched
              "token-no" "lim-1"
              (mkTask 100 (Ok (Some Samples.confirmation)))
              (mkTask 50 (Raise (Exception "rejected"))))
    as (r & Hr & _);
    [reflexivity|discriminate|reflexivity|reflexivity|reflexivity|
     reflexivity|reflexivity|].
  rewrite Hr. vm_compute in Hr. injection Hr as <-. reflexivity.
Defined.

(** C4.  When both legs are submitted and waiting for them takes longer
    than the execution timeout, the result reports failure with the error
    "Execution timeout" and no confirmation for either leg, whatever the
    two submissions end with. *)
Theorem execute_arbitrage_timeout (self : OrderExecutor)
    (opportunity : Opportunity) (bet : Decimal) (match_ : MarketMatch)
    (token market_id : string) (leg_a leg_b : task (option Dict)) :
  _get_polymarket_token_id self (Monitor.polymarket match_)
                           (polymarket_side opportunity) = Some token ->
  token <> "" ->
  limitless_id match_ = Ok market_id ->
  place_order (limitless self) market_id (limitless_side opportunity) bet
              (limitless_price opportunity) = leg_a ->
  place_order (polymarket self) token "BUY" bet
              (polymarket_price opportunity) = leg_b ->
  (execution_timeout self * 1000
   < Z.max (finishes_after leg_a) (finishes_after leg_b))%Z ->
  execute_arbitrage self opportunity bet match_
  = Ok {| success := false;
          limitless_order := None;
          polymarket_order := None;
          error := Some "Execution timeout";
          bet_size := Some bet |}.
Proof.
  intros Htok Hne Hid Ha Hb Htime. unfold execute_arbitrage.
  rewrite Htok. assert (Ht : str_truthy (Some token) = true)
    by (destruct token; [contradiction|reflexivity]).
  rewrite Ht. cbn [negb]. rewrite Hid. cbn [bind from_option]. unfold id.
  unfold _execute_limitless_order, _execute_polymarket_order.
  rewrite Ha, Hb. unfold gather, wait_for, caught_to_None.
  cbn [outcome finishes_after].
  destruct (Z.ltb_spec (Z.max (finishes_after leg_a) (finishes_after leg_b))
              (execution_timeout self * 1000)); [lia|].
  rewrite andb_false_r. reflexivity.
Qed.

Lemma execute_arbitrage_timeout_witness :
  execute_arbitrage Samples.executor_slow Samples.some_opportunity
                    (mkDecimal false 498 (-2)) Samples.matched
  = Ok {| success := false;
          limitless_order := None;
          polymarket_order := None;
          error := Some "Execution timeout";
          bet_size := Some (mkDecimal false 498 (-2)) |}.
Proof.
  apply (execute_arbitrage_timeout Samples.executor_slow
           Samples.some_opportunity (mkDecimal false 498 (-2)) Samples.matched
           "token-no" "lim-1"
           (mkTask 100 (Ok (Some Samples.confirmation)))
           (mkTask 13000 (Ok (Some Samples.confirmation))));
    [reflexivity|discriminate|reflexivity|reflexivity|reflexivity|].
  vm_compute. reflexivity.
Defined.


(** *** The result of execute_arbitrage *)

(** Both legs are wrapped so that a failed submission reads as None: waiting
    for the two of them ends with both outcomes or with a timeout, never
    with a leg's exception. *)
Lemma wait_for_legs (leg_a leg_b : task (option Dict)) (timeout : Z) :
  wait_for (gather (caught_to_None leg_a) (caught_to_None leg_b)) timeout
  = if (0 <? timeout)%Z
       && (Z.max (finishes_after leg_a) (finishes_after leg_b) <? timeout * 1000)%Z
    then Ok (try_except (outcome leg_a) (fun _ => None),
             try_except (outcome leg_b) (fun _ => None))
    else Raise TimeoutError.
Proof. reflexivity. Qed.

(** X16.  Without a usable Polymarket token id (no token list, fewer than
    two tokens, or a selected token whose id is missing or empty)
    [execute_arbitrage] returns a failed result with the error "Invalid
    Polymarket token ID", no order for either leg and no bet size. *)
Theorem execute_arbitrage_invalid_token (self : OrderExecutor)
    (opportunity : Opportunity) (bet : Decimal) (match_ : MarketMatch) :
  (forall l, tokens (Monitor.polymarket match_) = Some l -> (length l < 2)%nat)
  \/ _get_polymarket_token_id self (Monitor.polymarket match_)
       (polymarket_side opportunity) = None
  \/ _get_polymarket_token_id self (Monitor.polymarket match_)
       (polymarket_side opportunity) = Some "" ->
  execute_arbitrage self opportunity bet match_
  = Ok {| success := false; limitless_order := None; polymarket_order := None;
          error := Some "Invalid Polymarket token ID"; bet_size := None |}.
Proof.
  intros H.
  assert (Hf : str_truthy (_get_polymarket_token_id self (Monitor.polymarket match_)
                             (polymarket_side opportunity)) = false).
  { destruct H as [H|[->| ->]]; [|reflexivity|reflexivity].
    unfold _get_polymarket_token_id.
    destruct (tokens (Monitor.polymarket match_)) as [l|]; [|reflexivity].
    specialize (H l eq_refl). cbn [from_option]. unfold id.
    destruct (Nat.ltb_spec (length l) 2); [reflexivity|lia]. }
  unfold execute_arbitrage. rewrite Hf. reflexivity.
Qed.

Lemma execute_arbitrage_invalid_token_witness :
  execute_arbitrage Samples.executor_slow Samples.some_opportunity
                    (mkDecimal false 498 (-2)) Samples.matched_without_tokens
  = Ok {| success := false; limitless_order := None; polymarket_order := None;
          error := Some "Invalid Polymarket token ID"; bet_size := None |}.
Proof.
  apply (execute_arbitrage_invalid_token Samples.executor_slow
           Samples.some_opportunity (mkDecimal false 498 (-2))
           Samples.matched_without_tokens).
  left. intros l H. discriminate H.
Defined.

(** The success flag of a result is its [both_filled]. *)
Lemma execute_arbitrage_success (self : OrderExecutor) (opportunity : Opportunity)
    (bet : Decimal) (match_ : MarketMatch) (r : ExecutionResult) :
  execute_arbitrage self opportunity bet match_ = Ok r -> success r = both_filled r.
Proof.
  unfold execute_arbitrage.
  destruct (str_truthy _); cbn [negb].
  - destruct (limitless_id match_) as [market_id|]; [|discriminate].
    cbn [bind]. unfold _execute_limitless_order, _execute_polymarket_order.
    unfold wait_for, gather, caught_to_None. cbn [outcome finishes_after].
    destruct (_ && _); intros [= <-]; reflexivity.
  - intros [= <-]. reflexivity.
Qed.

(** X17.  In every result [execute_arbitrage] returns, success holds
    exactly when both orders are filled ([both_filled]); a successful result
    carries no error and the bet size; the error is absent or one of
    "Invalid Polymarket token ID" and "Execution timeout" (a leg's own
    exception is never reported there); and a result with an error carries no
    order. *)
Theorem execute_arbitrage_result (self : OrderExecutor)
    (opportunity : Opportunity) (bet : Decimal) (match_ : MarketMatch)
    (r : ExecutionResult) :
  execute_arbitrage self opportunity bet match_ = Ok r ->
  success r = both_filled r
  /\ (success r = true -> error r = None /\ bet_size r = Some bet)
  /\ (error r = None
      \/ error r = Some "Invalid Polymarket token ID"
      \/ error r = Some "Execution timeout")
  /\ (error r <> None -> limitless_order r = None /\ polymarket_order r = None).
Proof.
  unfold execute_arbitrage.
  destruct (str_truthy _).
  - cbn [negb]. destruct (limitless_id match_) as [market_id|]; [|discriminate].
    cbn [bind]. unfold _execute_limitless_order, _execute_polymarket_order.
    rewrite wait_for_legs.
    destruct (_ && _); intros [= <-]; unfold both_filled;
      cbn [success error bet_size limitless_order polymarket_order dict_truthy andb].
    + repeat apply conj; auto. intros H. contradiction.
    + repeat apply conj; auto; discriminate.
  - cbn [negb]. intros [= <-]. unfold both_filled.
    cbn [success error bet_size limitless_order polymarket_order dict_truthy andb].
    repeat apply conj; auto; discriminate.
Qed.

Lemma execute_arbitrage_result_witness :
  success {| success := false; limitless_order := Some Samples.confirmation;
             polymarket_order := None; error := None;
             bet_size := Some (mkDecimal false 498 (-2)) |}
  = both_filled {| success := false; limitless_order := Some Samples.confirmation;
                   polymarket_order := None; error := None;
                   bet_size := Some (mkDecimal false 498 (-2)) |}.
Proof.
  apply (execute_arbitrage_result Samples.executor_leg_b_raises
           Samples.some_opportunity (mkDecimal false 498 (-2)) Samples.matched).
  vm_compute. reflexivity.
Defined.

(** X18.  [execute_arbitrage] raises exactly when the token id is usable
    and the Limitless record of the match has no [id]: the KeyError of
    [match.limitless_id], which is evaluated before the [try] block. *)
Theorem execute_arbitrage_raises (self : OrderExecutor)
    (opportunity : Opportunity) (bet : Decimal) (match_ : MarketMatch) (e : exn) :
  execute_arbitrage self opportunity bet match_ = Raise e
  <-> str_truthy (_get_polymarket_token_id self (Monitor.polymarket match_)
                    (polymarket_side opportunity)) = true
      /\ fields (Monitor.limitless match_) !! "id" = None
      /\ e = KeyError "id".
Proof.
  unfold execute_arbitrage, limitless_id.
  destruct (str_truthy _); cbn [negb].
  - destruct (fields (Monitor.limitless match_) !! "id") as [i|]; cbn [bind].
    + unfold _execute_limitless_order, _execute_polymarket_order.
      rewrite wait_for_legs. split.
      * destruct (_ && _); discriminate.
      * intros (_ & ? & _). discriminate.
    + split.
      * intros [= <-]. repeat split.
      * intros (_ & _ & ->). reflexivity.
  - split; [discriminate|]. intros (? & _). discriminate.
Qed.

End ExecutorFacts.

(** ** The bot's loop *)

Module BotFacts.

Import Engine Monitor Executor Bot ExecutorFacts.
Local Open Scope string_scope.

(** The four ways [process_match] can end, with what each adds to the
    counters. *)
Lemma process_match_cases (self : ArbitrageBot) (match_ : MarketMatch) (stats : Stats) :
  process_match self match_ stats = (false, stats)
  \/ process_match self match_ stats = (false, count_opportunity stats)
  \/ process_match self match_ stats
     = (false, count_failed (count_executed (count_opportunity stats)))
  \/ process_match self match_ stats
     = (true, count_successful (count_executed (count_opportunity stats))).
Proof.
  unfold process_match, process_match_body, and_then, lift, ret, add_to.
  destruct (limitless_id match_) as [market_id|]; [|auto].
  destruct (polymarket_condition_id match_) as [condition_id|]; [|auto].
  destruct (outcome (gather _ _)) as [[lim_prices poly_prices]|]; [|auto].
  destruct (negb (prices_truthy lim_prices) || negb (prices_truthy poly_prices)); [auto|].
  destruct (find_arbitrage _ _ _) as [[opportunity|]|]; [|auto|auto].
  destruct (calculate_bet_size _ _) as [bet_size|]; [|auto].
  destruct (estimate_profit _ _ _) as [estimated_profit|]; [|auto].
  destruct (execute_arbitrage _ _ _ _) as [result|]; [|auto].
  destruct (success result); auto.
Qed.

(** X23.  [process_match] never changes the scan counter; when it returns
    True it has counted one opportunity, one executed trade and one
    successful trade, and nothing else; when it returns False the count of
    successful trades is unchanged; it keeps the counters consistent
    (executed = successful + failed, executed <= opportunities found); and
    neither what it returns nor what it adds depends on the counters it
    finds: its effect is to add to them what it adds to fresh counters. *)
Theorem process_match_counters (self : ArbitrageBot) (match_ : MarketMatch)
    (stats : Stats) :
  scans (snd (process_match self match_ stats)) = scans stats
  /\ (fst (process_match self match_ stats) = true ->
      snd (process_match self match_ stats)
      = count_successful (count_executed (count_opportunity stats)))
  /\ (fst (process_match self match_ stats) = false ->
      trades_successful (snd (process_match self match_ stats))
      = trades_successful stats)
  /\ (consistent stats -> consistent (snd (process_match self match_ stats)))
  /\ process_match self match_ stats
     = (fst (process_match self match_ initial_stats),
        plus stats (snd (process_match self match_ initial_stats))).
Proof.
  assert (Hdelta : process_match self match_ stats
                   = (fst (process_match self match_ initial_stats),
                      plus stats (snd (process_match self match_ initial_stats)))).
  { assert (H0 : stats = plus stats initial_stats)
      by (destruct stats;
          unfold plus, count_opportunity, count_executed, count_failed,
            count_successful, initial_stats; cbn; f_equal; lia).
    assert (H1 : count_opportunity stats = plus stats (count_opportunity initial_stats))
      by (destruct stats;
          unfold plus, count_opportunity, count_executed, count_failed,
            count_successful, initial_stats; cbn; f_equal; lia).
    assert (H2 : count_failed (count_executed (count_opportunity stats))
                 = plus stats (count_failed (count_executed
                                               (count_opportunity initial_stats))))
      by (destruct stats;
          unfold plus, count_opportunity, count_executed, count_failed,
            count_successful, initial_stats; cbn; f_equal; lia).
    assert (H3 : count_successful (count_executed (count_opportunity stats))
                 = plus stats (count_successful (count_executed
                                                   (count_opportunity initial_stats))))
      by (destruct stats;
          unfold plus, count_opportunity, count_executed, count_failed,
            count_successful, initial_stats; cbn; f_equal; lia).
    unfold process_match, process_match_body, and_then, lift, ret, add_to.
    destruct (limitless_id match_) as [market_id|]; [|cbn [fst snd]; congruence].
    destruct (polymarket_condition_id match_) as [condition_id|];
      [|cbn [fst snd]; congruence].
    destruct (outcome (gather _ _)) as [[lim_prices poly_prices]|];
      [|cbn [fst snd]; congruence].
    destruct (negb (prices_truthy lim_prices) || negb (prices_truthy poly_prices));
      [cbn [fst snd]; congruence|].
    destruct (find_arbitrage _ _ _) as [[opportunity|]|];
      [|cbn [fst snd]; congruence|cbn [fst snd]; congruence].
    destruct (calculate_bet_size _ _) as [bet_size|]; [|cbn [fst snd]; congruence].
    destruct (estimate_profit _ _ _) as [estimated_profit|];
      [|cbn [fst snd]; congruence].
    destruct (execute_arbitrage _ _ _ _) as [result|]; [|cbn [fst snd]; congruence].
    destruct (success result); cbn [fst snd]; congruence. }
  split; [|split; [|split; [|split; [|exact Hdelta]]]].
  all: destruct (process_match_cases self match_ stats) as [E|[E|[E|E]]];
    rewrite E; cbn [fst snd]; try reflexivity; try discriminate.
  all: unfold consistent; destruct stats; cbn; lia.
Qed.

(** X24.  [process_match] returns True exactly when both identifiers are
    present, both price fetches return a non-empty dictionary, an opportunity
    is found, sized and its profit estimated without an exception, and the
    execution returns a result in which both orders are filled. *)
Theorem process_match_trades (self : ArbitrageBot) (match_ : MarketMatch)
    (stats : Stats) :
  fst (process_match self match_ stats) = true
  <-> exists market_id condition_id lim_prices poly_prices opportunity bet_size
             estimated_profit result,
        limitless_id match_ = Ok market_id
        /\ polymarket_condition_id match_ = Ok condition_id
        /\ outcome (gather (limitless_get_market_prices self market_id)
                           (polymarket_get_market_prices self condition_id))
           = Ok (lim_prices, poly_prices)
        /\ lim_prices <> ∅ /\ poly_prices <> ∅
        /\ find_arbitrage (arbitrage_engine self) lim_prices poly_prices
           = Ok (Some opportunity)
        /\ calculate_bet_size (arbitrage_engine self) opportunity = Ok bet_size
        /\ estimate_profit (arbitrage_engine self) opportunity bet_size
           = Ok estimated_profit
        /\ execute_arbitrage (executor self) opportunity bet_size match_ = Ok result
        /\ both_filled result = true.
Proof.
  unfold process_match, process_match_body, and_then, lift, ret, add_to. split.
  - destruct (limitless_id match_) as [market_id|]; [|discriminate].
    destruct (polymarket_condition_id match_) as [condition_id|]; [|discriminate].
    destruct (outcome (gather _ _)) as [[lim_prices poly_prices]|] eqn:G; [|discriminate].
    destruct (negb (prices_truthy lim_prices) || negb (prices_truthy poly_prices)) eqn:P;
      [discriminate|].
    destruct (find_arbitrage _ _ _) as [[opportunity|]|] eqn:F;
      [|discriminate|discriminate].
    destruct (calculate_bet_size _ _) as [bet_size|] eqn:B; [|discriminate].
    destruct (estimate_profit _ _ _) as [estimated_profit|] eqn:E; [|discriminate].
    destruct (execute_arbitrage _ _ _ _) as [result|] eqn:X; [|discriminate].
    destruct (success result) eqn:Sc; [|discriminate]. intros _.
    apply orb_false_iff in P. destruct P as [P1 P2].
    apply negb_false_iff in P1, P2. unfold prices_truthy in P1, P2.
    apply negb_true_iff, bool_decide_eq_false in P1, P2.
    exists market_id, condition_id, lim_prices, poly_prices, opportunity, bet_size,
      estimated_profit, result.
    repeat apply conj; try assumption; try reflexivity.
    rewrite <- (execute_arbitrage_success _ _ _ _ _ X). exact Sc.
  - intros (market_id & condition_id & lim_prices & poly_prices & opportunity & bet_size
            & estimated_profit & result & H1 & H2 & H3 & N1 & N2 & H4 & H5 & H6 & H7 & H8).
    rewrite H1, H2, H3.
    unfold prices_truthy.
    rewrite (bool_decide_eq_false_2 _ N1), (bool_decide_eq_false_2 _ N2). cbn [negb orb].
    rewrite H4, H5, H6, H7. rewrite (execute_arbitrage_success _ _ _ _ _ H7), H8. reflexivity.
Qed.

Lemma process_matches_counters (self : ArbitrageBot) (matches : list MarketMatch)
    (stats : Stats) :
  length (fst (process_matches self matches stats)) = length matches
  /\ scans (snd (process_matches self matches stats)) = scans stats
  /\ trades_successful (snd (process_matches self matches stats))
     = (trades_successful stats
        + trades_this_scan (fst (process_matches self matches stats)))%nat
  /\ (consistent stats -> consistent (snd (process_matches self matches stats))).
Proof.
  revert stats. induction matches as [|m rest IH]; intros stats; cbn [process_matches].
  - cbn. repeat apply conj; try lia. auto.
  - destruct (process_match self m stats) as [traded stats1] eqn:E.
    specialize (IH stats1).
    destruct (process_matches self rest stats1) as [results stats2].
    cbn [fst snd length] in *. destruct IH as (L & Sc & T & C).
    pose proof (process_match_cases self m stats) as Hc. rewrite E in Hc.
    assert (Hs : scans stats1 = scans stats
                 /\ trades_successful stats1
                    = (trades_successful stats + if traded then 1 else 0)%nat
                 /\ (consistent stats -> consistent stats1)).
    { unfold consistent.
      destruct Hc as [[= -> ->]|[[= -> ->]|[[= -> ->]|[= -> ->]]]];
        destruct stats; cbn; repeat apply conj; lia. }
    destruct Hs as (Sc1 & T1 & C1).
    repeat apply conj.
    + lia.
    + lia.
    + rewrite T, T1. unfold trades_this_scan. cbn [List.filter].
      destruct traded; cbn [length]; lia.
    + auto.
Qed.

(** X25.  One scan adds exactly one to the scan counter, even when no
    market matches or a fetch fails; it adds to the successful trades the
    number of matches processed with result True, at most one per match;
    the counters of a new bot are consistent and a scan keeps them so; with
    no match it changes no other counter; and it leaves no expired entry in
    the bot's cache. *)
Theorem scan_and_execute_counters {V : Type} (now : Z) (self : ArbitrageBot)
    (stats : Stats) (cache : Cache.AsyncCache V) :
  scans (fst (scan_and_execute now self stats cache)) = S (scans stats)
  /\ trades_successful (fst (scan_and_execute now self stats cache))
     = (trades_successful stats
        + trades_this_scan
            (fst (process_matches self (find_matching_markets (monitor self))
                    (count_scan stats))))%nat
  /\ (trades_successful (fst (scan_and_execute now self stats cache))
      <= trades_successful stats + length (find_matching_markets (monitor self)))%nat
  /\ consistent initial_stats
  /\ (consistent stats -> consistent (fst (scan_and_execute now self stats cache)))
  /\ (find_matching_markets (monitor self) = [] ->
      fst (scan_and_execute now self stats cache) = count_scan stats)
  /\ (forall key entry,
         Cache._cache (snd (scan_and_execute now self stats cache)) !! key = Some entry ->
         (now < Cache.expires_at entry)%Z).
Proof.
  unfold scan_and_execute. cbn [fst snd].
  pose proof (process_matches_counters self (find_matching_markets (monitor self))
                (count_scan stats)) as (L & Sc & T & C).
  assert (Hlen : forall l, (trades_this_scan l <= length l)%nat).
  { intros l. unfold trades_this_scan. apply List.filter_length_le. }
  pose proof (Hlen (fst (process_matches self (find_matching_markets (monitor self))
                           (count_scan stats)))) as Hle.
  assert (Hc : consistent stats -> consistent (count_scan stats))
    by (unfold consistent; destruct stats; cbn; auto).
  assert (Hinit : consistent initial_stats) by (unfold consistent; cbn; lia).
  assert (Hcache : forall key entry,
             Cache._cache (snd (Cache.cleanup_expired now cache)) !! key = Some entry ->
             (now < Cache.expires_at entry)%Z).
  { intros key entry. rewrite CacheFacts.cleanup_expired_lookup.
    destruct (Cache._cache cache !! key) as [e|]; [|discriminate].
    destruct (Z.leb_spec (Cache.expires_at e) now); [discriminate|].
    intros [= <-]. assumption. }
  assert (Est : match find_matching_markets (monitor self) with
                | [] => count_scan stats
                | _ :: _ => snd (process_matches self (find_matching_markets (monitor self))
                                   (count_scan stats))
                end
                = snd (process_matches self (find_matching_markets (monitor self))
                         (count_scan stats)))
    by (destruct (find_matching_markets (monitor self)); reflexivity).
  rewrite Est.
  split; [|split; [|split; [|split; [exact Hinit|split; [|split; [|exact Hcache]]]]]].
  - rewrite Sc. reflexivity.
  - rewrite T. reflexivity.
  - rewrite T. cbn [trades_successful count_scan]. lia.
  - intros H. apply C, Hc. exact H.
  - intros F. rewrite F. reflexivity.
Qed.

End BotFacts.

(** ** Credentials *)

Module CredentialsFacts.

Import Credentials.
Local Open Scope string_scope.

(** X26.  A credential getter reads the environment once: a key it has
    returned is non-empty, is the value of its variable, and is returned by
    every later call whatever the environment then holds; a call that finds
    the variable missing or empty raises and remembers nothing.  The
    Polymarket API key is optional: a missing one is returned as the empty
    string, and that too is what every later call returns. *)
Theorem credentials_are_read_once (environ later : Environ) :
  (forall key slot,
      get_limitless_key environ None = (inl key, slot) ->
      key <> "" /\ environ !! "LIMITLESS_API_KEY" = Some key
      /\ get_limitless_key later slot = (inl key, slot))
  /\ (forall e slot,
         get_limitless_key environ None = (inr e, slot) ->
         slot = None
         /\ (environ !! "LIMITLESS_API_KEY" = None
             \/ environ !! "LIMITLESS_API_KEY" = Some ""))
  /\ (exists key,
         get_polymarket_api_key environ None = (inl key, Some key)
         /\ key = default "" (environ !! "POLYMARKET_API_KEY")
         /\ get_polymarket_api_key later (Some key) = (inl key, Some key)).
Proof.
  repeat apply conj.
  - intros key slot. unfold get_limitless_key, lru_cache, getenv.
    destruct (environ !! "LIMITLESS_API_KEY") as [k|]; cbn [from_option]; unfold id.
    + destruct (String.eqb_spec k ""); [discriminate|].
      intros [= <- <-]. repeat split; auto.
    + cbn. discriminate.
  - intros e slot. unfold get_limitless_key, lru_cache, getenv.
    destruct (environ !! "LIMITLESS_API_KEY") as [k|]; cbn [from_option]; unfold id.
    + destruct (String.eqb_spec k "") as [->|]; [|discriminate].
      intros [= <- <-]. split; [reflexivity|right; reflexivity].
    + cbn. intros [= <- <-]. split; [reflexivity|left; reflexivity].
  - eexists. repeat split.
Qed.

End CredentialsFacts.
